(** * SDL_FontCache: glyph atlas cache and text layout

    A shallow embedding of [SDL_FontCache.cpp]: the UTF-8 codepoint codec,
    the glyph hash map, the shelf packer with its cache levels, the glyph
    provider, and the measuring, wrapping and drawing loops of the layout
    engine, followed by the properties established about them.

    Conventions.
    - C integers are [Z].  A conversion to a 16-bit or unsigned type is
      written with [Uint16], [Sint16] or [Uint32] at the place where the source
      converts; the result of an [int] expression is wrapped with [Sint32]
      (one wrap per expression: wrapping is compatible with [+], [-], [*]).
    - A C string is the [list byte] of the bytes before its terminator; a
      pointer into a string is the suffix that starts at the pointer.  Reading
      at the end of the list yields the terminator 0.  The memory behind the
      terminator is not part of the list: where the source reads or steps
      behind the terminator - at a lead byte whose continuation bytes are cut
      off by the terminator - the embedding reads 0 and stops, which the
      source does not.  The embedding follows the source on the texts of
      [whole_characters], and the statements that depend on what is read
      carry that condition.
    - An array is the [list] of its slots.  A store or a read past the end
      of the array is outside the allocation in the source; the list is left
      as it is by such a store and gives no slot to such a read.  The
      statements about the cache levels are about indices inside the array.
    - A pointer that may be null is an [option].  A function whose callers
      have dereferenced the font before they call it takes the font itself,
      and its own test for a null font is not written.
    - Functions that mutate the font through [FC_Font*] return the new font.
    - Pixels are not modelled: calls that only draw into a texture or set its
      colour ([FC_AddGlyphToCache], [set_color_for_all_caches]) leave no trace. *)

From Stdlib Require Import ZArith Lia List Bool.
From coqutil Require Import Byte.
From stdpp Require Import base list.

Local Open Scope Z_scope.

(** ** Fixed-width integers *)

Definition Uint16 (z : Z) : Z := z mod 2 ^ 16.
Definition Uint32 (z : Z) : Z := z mod 2 ^ 32.
Definition Sint16 (z : Z) : Z := (z + 2 ^ 15) mod 2 ^ 16 - 2 ^ 15.
Definition Sint32 (z : Z) : Z := (z + 2 ^ 31) mod 2 ^ 32 - 2 ^ 31.

(** [FC_MIN] and [FC_MAX]. *)
Definition FC_MIN (a b : Z) : Z := if a <? b then a else b.
Definition FC_MAX (a b : Z) : Z := if a >? b then a else b.

(** [FC_CACHE_PADDING]: extra pixels of padding around each glyph. *)
Definition FC_CACHE_PADDING : Z := 1.

(** ** C strings *)

Abbreviation cstring := (list byte).

(** [*(str + i)] as an [unsigned char]. *)
Definition peek (str : cstring) (i : nat) : Z :=
  match str !! i with
  | Some b => byte.unsigned b
  | None => 0
  end.

Definition char_nl : byte := Byte.x0a.
Definition char_tab : byte := Byte.x09.
Definition char_space : byte := Byte.x20.

(** [new_concat]: a fresh buffer holding [a] followed by [b]. *)
Definition new_concat (a b : cstring) : cstring := a ++ b.

(** ** Rectangles and glyph data *)

Record SDL_Rect : Type := mkRect {
  rect_x : Z;
  rect_y : Z;
  rect_w : Z;
  rect_h : Z
}.

(** Modelled from the spec: [FC_GlyphData] is declared in SDL_FontCache.h,
    which is not among the sources; it is the rectangle and cache-level index
    of the spec's GlyphRect, with the field names [FC_MakeGlyphData] assigns. *)
Record FC_GlyphData : Type := mkGlyphData {
  rect : SDL_Rect;
  cache_level : Z
}.

Record SDL_Color : Type := mkColor {
  color_r : Z;
  color_g : Z;
  color_b : Z;
  color_a : Z
}.

(** [FC_MakeGlyphData(int cache_level, Sint16 x, Sint16 y, Uint16 w, Uint16 h)]:
    the arguments are converted to the 16-bit parameter types. *)
Definition FC_MakeGlyphData (level x y w h : Z) : FC_GlyphData :=
  {| rect := {| rect_x := Sint16 x; rect_y := Sint16 y;
                rect_w := Uint16 w; rect_h := Uint16 h |};
     cache_level := level |}.

(** [SDL_RectUnion]: the sums and differences are [int] operations. *)
Definition SDL_RectUnion (A B : SDL_Rect) : SDL_Rect :=
  let x := FC_MIN (rect_x A) (rect_x B) in
  let y := FC_MIN (rect_y A) (rect_y B) in
  let x2 := FC_MAX (Sint32 (rect_x A + rect_w A)) (Sint32 (rect_x B + rect_w B)) in
  let y2 := FC_MAX (Sint32 (rect_y A + rect_h A)) (Sint32 (rect_y B + rect_h B)) in
  {| rect_x := x; rect_y := y;
     rect_w := FC_MAX 0 (Sint32 (x2 - x));
     rect_h := FC_MAX 0 (Sint32 (y2 - y)) |}.

(** ** Codepoint codec *)

(** The bytes [FC_GetUTF8FromCodepoint] stores from [result[0]] on, the
    terminator included. *)
Definition utf8_of_codepoint (codepoint : Z) : list byte :=
  let a := Z.land (Z.shiftr codepoint 24) 255 in
  let b := Z.land (Z.shiftr codepoint 16) 255 in
  let c := Z.land (Z.shiftr codepoint 8) 255 in
  let d := Z.land codepoint 255 in
  if a =? 0 then
    if b =? 0 then
      if c =? 0 then [byte.of_Z d; Byte.x00]
      else [byte.of_Z c; byte.of_Z d; Byte.x00]
    else [byte.of_Z b; byte.of_Z c; byte.of_Z d; Byte.x00]
  else [byte.of_Z a; byte.of_Z b; byte.of_Z c; byte.of_Z d; Byte.x00].

(** [FC_GetUTF8FromCodepoint(char* result, Uint32 codepoint)]: [result] is the
    caller's buffer (null: nothing happens); the stored bytes overwrite its
    beginning. *)
Definition FC_GetUTF8FromCodepoint (result : option (list byte)) (codepoint : Z)
  : option (list byte) :=
  match result with
  | None => None
  | Some buf =>
      let out := utf8_of_codepoint codepoint in
      Some (out ++ drop (length out) buf)
  end.

(** The body of [FC_GetCodepointFromUTF8] once both pointers are known to be
    non-null: the codepoint read at [str] and the new value of [*c].  The
    continuation bytes are read without a test for the terminator.  When the
    character is cut off by the terminator the source reads the terminator
    and the bytes behind it, and leaves the pointer on or behind the
    terminator; here those reads give 0 and the pointer ends as the empty
    suffix, so the two agree only when the character is whole. *)
Definition codepoint_at (str : cstring) (advance_pointer : bool) : Z * cstring :=
  let result := 0 in
  if peek str 0 <=? 127 then (peek str 0, str)
  else if peek str 0 <? 224 then
    let result := Z.lor result (Uint32 (Z.shiftl (peek str 0) 8)) in
    let result := Z.lor result (Uint32 (peek str 1)) in
    (result, if advance_pointer then drop 1 str else str)
  else if peek str 0 <? 240 then
    let result := Z.lor result (Uint32 (Z.shiftl (peek str 0) 16)) in
    let result := Z.lor result (Uint32 (Z.shiftl (peek str 1) 8)) in
    let result := Z.lor result (Uint32 (peek str 2)) in
    (result, if advance_pointer then drop 2 str else str)
  else
    let result := Z.lor result (Uint32 (Z.shiftl (peek str 0) 24)) in
    let result := Z.lor result (Uint32 (Z.shiftl (peek str 1) 16)) in
    let result := Z.lor result (Uint32 (Z.shiftl (peek str 2) 8)) in
    let result := Z.lor result (Uint32 (peek str 3)) in
    (result, if advance_pointer then drop 3 str else str).

(** [FC_GetCodepointFromUTF8(const char** c, Uint8 advance_pointer)]: [c] is
    [None] for a null [c], [Some None] for a null [*c]. *)
Definition FC_GetCodepointFromUTF8 (c : option (option cstring)) (advance_pointer : bool)
  : Z * option (option cstring) :=
  match c with
  | None => (0, c)
  | Some None => (0, c)
  | Some (Some str) =>
      let '(result, str') := codepoint_at str advance_pointer in
      (result, Some (Some str'))
  end.

(** ** Glyph map *)

(** [FC_DEFAULT_NUM_BUCKETS]. *)
Definition FC_DEFAULT_NUM_BUCKETS : Z := 300.

(** A node of a bucket chain; the [next] pointer is the tail of the list. *)
Record FC_MapNode : Type := mkNode {
  key : Z;
  value : FC_GlyphData
}.

Record FC_Map : Type := mkMap {
  num_buckets : Z;
  buckets : list (list FC_MapNode)
}.

Definition FC_MapCreate (n : Z) : FC_Map :=
  {| num_buckets := n; buckets := replicate (Z.to_nat n) [] |}.

(** [codepoint % map->num_buckets], computed in [Uint32]. *)
Definition bucket_index (map : FC_Map) (codepoint : Z) : nat :=
  Z.to_nat (codepoint mod Uint32 (num_buckets map)).

(** The loop of [FC_MapInsert] over a non-empty chain: walk to the node whose
    [next] is null and hang the new node there. *)
Fixpoint chain_push (chain : list FC_MapNode) (node : FC_MapNode) : list FC_MapNode :=
  match chain with
  | [] => [node]
  | n :: next => n :: chain_push next node
  end.

(** [FC_MapInsert]: the value stored (null for a null map) and the map. *)
Definition FC_MapInsert (map : option FC_Map) (codepoint : Z) (glyph : FC_GlyphData)
  : option FC_GlyphData * option FC_Map :=
  match map with
  | None => (None, None)
  | Some m =>
      let index := bucket_index m codepoint in
      let node := {| key := codepoint; value := glyph |} in
      match buckets m !! index with
      | None => (None, map)
      | Some [] =>
          (Some glyph,
           Some {| num_buckets := num_buckets m;
                   buckets := <[index := [node]]> (buckets m) |})
      | Some chain =>
          (Some glyph,
           Some {| num_buckets := num_buckets m;
                   buckets := <[index := chain_push chain node]> (buckets m) |})
      end
  end.

(** The loop of [FC_MapFind]: the first node of the chain with the key. *)
Fixpoint chain_find (chain : list FC_MapNode) (codepoint : Z) : option FC_GlyphData :=
  match chain with
  | [] => None
  | n :: next => if key n =? codepoint then Some (value n) else chain_find next codepoint
  end.

Definition FC_MapFind (map : option FC_Map) (codepoint : Z) : option FC_GlyphData :=
  match map with
  | None => None
  | Some m =>
      match buckets m !! bucket_index m codepoint with
      | None => None
      | Some chain => chain_find chain codepoint
      end
  end.

(** Inserting a list of entries, one [FC_MapInsert] after the other. *)
Definition insert_all (map : option FC_Map) (entries : list (Z * FC_GlyphData)) : option FC_Map :=
  fold_left (fun mp kv => snd (FC_MapInsert mp (fst kv) (snd kv))) entries map.

(** ** Font, rasterizer and render backend *)

(** What [SDL_QueryTexture] reports about a texture. *)
Record SDL_Texture : Type := mkTexture {
  tex_w : Z;
  tex_h : Z
}.

Record SDL_Surface : Type := mkSurface {
  surf_w : Z;
  surf_h : Z
}.

(** The rasterizer handle: [TTF_RenderUTF8_Blended(ttf, buff, white)] as a
    function of the text, [None] when it returns null. *)
Definition TTF_Font : Type := cstring -> option SDL_Surface.

Definition TTF_RenderUTF8_Blended (ttf : TTF_Font) (text : cstring) : option SDL_Surface :=
  ttf text.

(** The renderer: [SDL_CreateTexture(renderer, format, access, w, h)] as a
    function of the size, [None] when it returns null. *)
Record SDL_Renderer : Type := mkRenderer {
  create_texture : Z -> Z -> option SDL_Texture
}.

Definition SDL_CreateTexture (renderer : option SDL_Renderer) (w h : Z) : option SDL_Texture :=
  match renderer with
  | None => None
  | Some r => create_texture r w h
  end.

(** [struct FC_Font], with the fields the functions below read or write.
    [glyph_cache] is the allocated array: its length is the allocation size
    and a slot that was never assigned holds whatever the allocation held. *)
Record FC_Font : Type := mkFont {
  renderer : option SDL_Renderer;
  ttf_source : option TTF_Font;
  height : Z;
  lineSpacing : Z;
  letterSpacing : Z;
  glyphs : option FC_Map;
  last_glyph : FC_GlyphData;
  glyph_cache_size : Z;
  glyph_cache_count : Z;
  glyph_cache : list (option SDL_Texture)
}.

Definition set_last_glyph (font : FC_Font) (g : FC_GlyphData) : FC_Font :=
  {| renderer := renderer font; ttf_source := ttf_source font;
     height := height font; lineSpacing := lineSpacing font;
     letterSpacing := letterSpacing font; glyphs := glyphs font;
     last_glyph := g;
     glyph_cache_size := glyph_cache_size font;
     glyph_cache_count := glyph_cache_count font;
     glyph_cache := glyph_cache font |}.

Definition set_glyphs (font : FC_Font) (m : option FC_Map) : FC_Font :=
  {| renderer := renderer font; ttf_source := ttf_source font;
     height := height font; lineSpacing := lineSpacing font;
     letterSpacing := letterSpacing font; glyphs := m;
     last_glyph := last_glyph font;
     glyph_cache_size := glyph_cache_size font;
     glyph_cache_count := glyph_cache_count font;
     glyph_cache := glyph_cache font |}.

Definition set_glyph_cache (font : FC_Font) (size count : Z)
    (cache : list (option SDL_Texture)) : FC_Font :=
  {| renderer := renderer font; ttf_source := ttf_source font;
     height := height font; lineSpacing := lineSpacing font;
     letterSpacing := letterSpacing font; glyphs := glyphs font;
     last_glyph := last_glyph font;
     glyph_cache_size := size;
     glyph_cache_count := count;
     glyph_cache := cache |}.

(** [FC_Init] on a zeroed font ([FC_CreateFont]): [slot0], [slot1] and [slot2]
    are what the newly allocated array of 3 cache-level slots holds. *)
Definition FC_Init (slot0 slot1 slot2 : option SDL_Texture) : FC_Font :=
  {| renderer := None;
     ttf_source := None;
     height := 0;
     lineSpacing := 0;
     letterSpacing := 0;
     glyphs := Some (FC_MapCreate FC_DEFAULT_NUM_BUCKETS);
     last_glyph := {| rect := {| rect_x := FC_CACHE_PADDING; rect_y := FC_CACHE_PADDING;
                                 rect_w := 0; rect_h := 0 |};
                      cache_level := 0 |};
     glyph_cache_size := 3;
     glyph_cache_count := 0;
     glyph_cache := [slot0; slot1; slot2] |}.

(** [FC_GetGlyphCacheLevel]: note the guard is [cache_level > glyph_cache_count],
    so the slot at index [glyph_cache_count] is read as well.  When
    [glyph_cache_count = glyph_cache_size] that slot lies past the end of
    the array: the source reads outside the allocation, the list has no
    such slot and [None] stands for what is read. *)
Definition FC_GetGlyphCacheLevel (font : FC_Font) (level : Z) : option SDL_Texture :=
  if (level <? 0) || (level >? glyph_cache_count font) then None
  else mjoin (glyph_cache font !! Z.to_nat level).

(** [FC_SetGlyphCacheLevel].  The array is enlarged only for
    [level = glyph_cache_count].  For [level = glyph_cache_count + 1] the
    store goes to a slot inside the array when
    [glyph_cache_count + 1 < glyph_cache_size]; otherwise the source stores
    past the end of the array, outside the allocation, which the list cannot
    show: it is left as it is. *)
Definition FC_SetGlyphCacheLevel (font : FC_Font) (level : Z) (cache_texture : option SDL_Texture)
  : bool * FC_Font :=
  if level <? 0 then (false, font)
  else if level >? glyph_cache_count font + 1 then (false, font)
  else
    let font1 :=
      if level =? glyph_cache_count font then
        let count := glyph_cache_count font + 1 in
        if count >? glyph_cache_size font then
          (* copy the old cache into a new array of [count] slots *)
          let new_cache :=
            take (Z.to_nat (glyph_cache_size font)) (glyph_cache font)
              ++ replicate (Z.to_nat (count - glyph_cache_size font)) None in
          set_glyph_cache font count count new_cache
        else set_glyph_cache font (glyph_cache_size font) count (glyph_cache font)
      else font in
    (true,
     set_glyph_cache font1 (glyph_cache_size font1) (glyph_cache_count font1)
       (<[Z.to_nat level := cache_texture]> (glyph_cache font1))).

(** [FC_GrowGlyphCache]: one texture of [height * 12] squared is requested and
    installed at index [glyph_cache_count].  The colour and render-target
    calls that follow act on the texture's pixels only. *)
Definition FC_GrowGlyphCache (font : FC_Font) : bool * FC_Font :=
  match SDL_CreateTexture (renderer font) (height font * 12) (height font * 12) with
  | None => (false, font)
  | Some new_level =>
      let '(ok, font') := FC_SetGlyphCacheLevel font (glyph_cache_count font) (Some new_level) in
      if ok then (true, font') else (false, font')
  end.

(** What a call does that uses [font->...] without a test for a null
    font: it returns a value, or it dereferences the null pointer, after
    which there is no value. *)
Inductive call_result (A : Type) : Type :=
| returned (value : A)
| null_dereference.
Arguments returned {A} _.
Arguments null_dereference {A}.

(** [FC_GetNumCacheLevels]: [return font->glyph_cache_count;], without a
    test. *)
Definition FC_GetNumCacheLevels (font : option FC_Font) : call_result Z :=
  match font with
  | None => null_dereference
  | Some f => returned (glyph_cache_count f)
  end.

(** The C string held by a buffer: the bytes before the first 0. *)
Fixpoint c_str (buf : list byte) : cstring :=
  match buf with
  | [] => []
  | b :: rest => if byte.unsigned b =? 0 then [] else b :: c_str rest
  end.

Section GlyphProvider.

(** [fc_tab_width]: width of a tab in units of the space width. *)
Variable fc_tab_width : Z.

(** What an uninitialised local [FC_GlyphData] holds when it is read. *)
Variable indeterminate : FC_GlyphData.

(** [FC_PackGlyphData] and [FC_GetGlyphData] call each other: the packer
    asks for the space glyph when the codepoint is TAB.  Each body is
    written over the function it calls, and the two are tied below. *)

Definition row_is_full (lg : FC_GlyphData) (width maxWidth : Z) : bool :=
  Sint32 (rect_x (rect lg) + rect_w (rect lg) + width) >=? maxWidth - FC_CACHE_PADDING.

Definition level_is_full (lg : FC_GlyphData) (height maxHeight : Z) : bool :=
  Sint32 (rect_y (rect lg) + height + height) >=? maxHeight - FC_CACHE_PADDING.

(** The packer from the row test on, for the final [width]. *)
Definition pack_at_cursor (font : FC_Font) (codepoint width maxWidth maxHeight : Z)
  : option FC_GlyphData * FC_Font :=
  let height := Uint16 (height font + FC_CACHE_PADDING) in
  let lg := last_glyph font in
  let go (lg : FC_GlyphData) :=
    (* Move to next space *)
    let r := rect lg in
    let lg' := {| rect := {| rect_x := Sint32 (rect_x r + (rect_w r + 1 + FC_CACHE_PADDING));
                             rect_y := rect_y r; rect_w := width; rect_h := rect_h r |};
                  cache_level := cache_level lg |} in
    let '(e, m) := FC_MapInsert (glyphs font) codepoint
                     (FC_MakeGlyphData (cache_level lg') (rect_x (rect lg')) (rect_y (rect lg'))
                                       (rect_w (rect lg')) (rect_h (rect lg'))) in
    (e, set_glyphs (set_last_glyph font lg') m) in
  if row_is_full lg width maxWidth then
    if level_is_full lg height maxHeight then
      (* Get ready to pack on the next cache level when it is ready *)
      (None,
       set_last_glyph font
         {| rect := {| rect_x := FC_CACHE_PADDING; rect_y := FC_CACHE_PADDING;
                       rect_w := 0; rect_h := rect_h (rect lg) |};
            cache_level := glyph_cache_count font |})
    else
      (* Go to next row *)
      go {| rect := {| rect_x := FC_CACHE_PADDING; rect_y := Sint32 (rect_y (rect lg) + height);
                       rect_w := 0; rect_h := rect_h (rect lg) |};
            cache_level := cache_level lg |}
  else go lg.

Section Bodies.

Variable get_glyph : FC_Font -> Z -> option FC_GlyphData * FC_Font.

Definition FC_PackGlyphData_body (font : FC_Font) (codepoint width maxWidth maxHeight : Z)
  : option FC_GlyphData * FC_Font :=
  let width := Uint16 width in
  let maxWidth := Uint16 maxWidth in
  let maxHeight := Uint16 maxHeight in
  (* TAB is special! *)
  if codepoint =? 9 then
    let '(found, font1) := get_glyph font 32 in
    let spaceGlyph := match found with Some g => g | None => indeterminate end in
    let width := Uint16 (Uint32 fc_tab_width * Uint32 (rect_w (rect spaceGlyph))) in
    pack_at_cursor font1 codepoint width maxWidth maxHeight
  else pack_at_cursor font codepoint width maxWidth maxHeight.

Variable pack_glyph : FC_Font -> Z -> Z -> Z -> Z -> option FC_GlyphData * FC_Font.

(** The glyph copied to [*result] ([None] when 0 is returned), and the font. *)
Definition FC_GetGlyphData_body (font : FC_Font) (codepoint : Z)
  : option FC_GlyphData * FC_Font :=
  match FC_MapFind (glyphs font) codepoint with
  | Some e => (Some e, font)
  | None =>
      match ttf_source font with
      | None => (None, font)
      | Some ttf =>
          let buff := c_str (utf8_of_codepoint codepoint) in
          match FC_GetGlyphCacheLevel font (cache_level (last_glyph font)) with
          | None => (None, font)
          | Some cache_image =>
              let w := tex_w cache_image in
              let h := tex_h cache_image in
              match TTF_RenderUTF8_Blended ttf buff with
              | None => (None, font)
              | Some surf =>
                  match pack_glyph font codepoint (surf_w surf) w h with
                  | (Some e, font1) => (Some e, font1)
                  | (None, font1) =>
                      (* Grow the cache *)
                      let '(_, font2) := FC_GrowGlyphCache font1 in
                      (* Try packing again *)
                      pack_glyph font2 codepoint (surf_w surf) w h
                  end
              end
          end
      end
  end.

End Bodies.

(** The call for the space glyph made from inside the packer.  Its own
    packing is for codepoint 32, which never takes the TAB branch, so the
    function given for that branch is not called. *)
Definition FC_GetGlyphData_space : FC_Font -> Z -> option FC_GlyphData * FC_Font :=
  FC_GetGlyphData_body (FC_PackGlyphData_body (fun font _ => (None, font))).

Definition FC_PackGlyphData : FC_Font -> Z -> Z -> Z -> Z -> option FC_GlyphData * FC_Font :=
  FC_PackGlyphData_body FC_GetGlyphData_space.

Definition FC_GetGlyphData : FC_Font -> Z -> option FC_GlyphData * FC_Font :=
  FC_GetGlyphData_body FC_PackGlyphData.

(** [FC_SetGlyphData]. *)
Definition FC_SetGlyphData (font : FC_Font) (codepoint : Z) (glyph_data : FC_GlyphData)
  : option FC_GlyphData * FC_Font :=
  let '(e, m) := FC_MapInsert (glyphs font) codepoint glyph_data in
  (e, set_glyphs font m).

(** [FC_GetGlyphData] and [FC_SetGlyphData] as an application calls them,
    with a font that may be null: both start by reading [font->glyphs],
    without a test. *)
Definition FC_GetGlyphData_call (font : option FC_Font) (codepoint : Z)
  : call_result (option FC_GlyphData * FC_Font) :=
  match font with
  | None => null_dereference
  | Some f => returned (FC_GetGlyphData f codepoint)
  end.

Definition FC_SetGlyphData_call (font : option FC_Font) (codepoint : Z)
    (glyph_data : FC_GlyphData) : call_result (option FC_GlyphData * FC_Font) :=
  match font with
  | None => null_dereference
  | Some f => returned (FC_SetGlyphData f codepoint glyph_data)
  end.

End GlyphProvider.

(** ** Text layout *)

(** The splitting loops keep [start] and [size]; [cur] is the slice
    [start .. start+size) read so far and the first argument is [end]. *)

Fixpoint explode_from (end_ : cstring) (delimiter : byte) (cur : cstring) : list cstring :=
  match end_ with
  | [] => [cur]
  | b :: rest =>
      if Byte.eqb b delimiter then cur :: explode_from rest delimiter []
      else explode_from rest delimiter (cur ++ [b])
  end.

(** [FC_Explode] on a non-null text. *)
Definition FC_Explode (text : cstring) (delimiter : byte) : list cstring :=
  explode_from text delimiter [].

Fixpoint explode_keep_from (end_ : cstring) (delimiter : byte) (cur : cstring) : list cstring :=
  match end_ with
  | [] => [cur]
  | b :: rest =>
      if Byte.eqb b delimiter then cur :: explode_keep_from rest delimiter [b]
      else explode_keep_from rest delimiter (cur ++ [b])
  end.

(** [FC_ExplodeAndKeep] on a non-null text: each piece after the first starts
    with the delimiter. *)
Definition FC_ExplodeAndKeep (text : cstring) (delimiter : byte) : list cstring :=
  explode_keep_from text delimiter [].

Definition is_breaking_space (b : byte) : bool :=
  Byte.eqb b char_space || Byte.eqb b char_tab.

(** The words and, in step, the one-byte strings copied from [end]: the
    separator, or the empty string when [end] is at the terminator. *)
Fixpoint explode_space_from (end_ : cstring) (cur : cstring) : list cstring * list cstring :=
  match end_ with
  | [] => ([cur], [[]])
  | b :: rest =>
      if is_breaking_space b then
        let '(words, spaces) := explode_space_from rest [] in
        (cur :: words, [b] :: spaces)
      else explode_space_from rest (cur ++ [b])
  end.

(** [FC_ExplodeBreakingSpace] on a non-null text: the words and [*spaces]. *)
Definition FC_ExplodeBreakingSpace (text : cstring) : list cstring * list cstring :=
  explode_space_from text [].

(** [FC_GetLineHeight]. *)
Definition FC_GetLineHeight (font : option FC_Font) : Z :=
  match font with
  | None => 0
  | Some f => height f
  end.

Section Layout.

Variable fc_tab_width : Z.
Variable indeterminate : FC_GlyphData.

(** [fc_buffer_size]: the size of the shared buffer, never 0. *)
Variable fc_buffer_size : Z.

Local Abbreviation FC_GetGlyphData := (FC_GetGlyphData fc_tab_width indeterminate).

(** [FC_EXTRACT_VARARGS(fc_buffer, formatted_text)]: [formatted] is the
    expansion of the format and its arguments; [vsnprintf] keeps at most
    [fc_buffer_size - 1] of its bytes. *)
Definition FC_EXTRACT_VARARGS (formatted : cstring) : cstring :=
  take (Z.to_nat (fc_buffer_size - 1)) formatted.

(** The loop of [FC_GetWidth]: [c] is the pointer, advanced by
    [FC_GetCodepointFromUTF8(&c, 1)] and by the [c++] of the [for].  Every
    turn moves [c] forward, so [length c] turns are enough.  After a
    character that the terminator cuts off, the [c++] of the source steps
    behind the terminator and the loop goes on over the bytes that follow
    in [fc_buffer]; here the loop ends with the list. *)
Fixpoint FC_GetWidth_loop (turns : nat) (font : FC_Font) (c : cstring) (width bigWidth : Z)
  : Z * Z * FC_Font :=
  match turns, c with
  | S turns', b :: _ =>
      if Byte.eqb b char_nl then
        FC_GetWidth_loop turns' font (drop 1 c) 0
          (if bigWidth >=? width then bigWidth else width)
      else
        let '(codepoint, c1) := codepoint_at c true in
        let '(found, font1) := FC_GetGlyphData font codepoint in
        match found with
        | Some glyph =>
            FC_GetWidth_loop turns' font1 (drop 1 c1)
              (Uint16 (width + rect_w (rect glyph))) bigWidth
        | None =>
            let '(found', font2) := FC_GetGlyphData font1 32 in
            match found' with
            | Some glyph =>
                FC_GetWidth_loop turns' font2 (drop 1 c1)
                  (Uint16 (width + rect_w (rect glyph))) bigWidth
            | None => FC_GetWidth_loop turns' font2 (drop 1 c1) width bigWidth
            end
        end
  | _, _ => (width, bigWidth, font)
  end.

(** [FC_GetWidth] from the loop on, over the content of [fc_buffer]. *)
Definition FC_GetWidth_buffer (font : FC_Font) (buffer : cstring) : Z * FC_Font :=
  let '(width, bigWidth, font') := FC_GetWidth_loop (length buffer) font buffer 0 0 in
  (if bigWidth >=? width then bigWidth else width, font').

(** [FC_GetWidth(font, "%s", text)] for a font and a text that are not null. *)
Definition FC_GetWidth_of (font : FC_Font) (text : cstring) : Z * FC_Font :=
  FC_GetWidth_buffer font (FC_EXTRACT_VARARGS text).

(** [FC_GetWidth]. *)
Definition FC_GetWidth (font : option FC_Font) (formatted_text : option cstring)
  : Z * option FC_Font :=
  match formatted_text, font with
  | Some text, Some f =>
      let '(w, f') := FC_GetWidth_of f text in (w, Some f')
  | _, _ => (0, font)
  end.

(** The word loop of [FC_GetBufferFitToColumn]: [current] is the result list
    so far, [line] the line being filled. *)
Fixpoint fit_words (font : FC_Font) (width : Z) (line : cstring) (current : list cstring)
    (word_iter spaces_iter : list cstring) : list cstring * FC_Font :=
  match word_iter, spaces_iter with
  | word :: word_next, space :: spaces_next =>
      let line_plus_word := new_concat line word in
      let word_plus_space := new_concat word space in
      let '(measured, font1) := FC_GetWidth_of font line_plus_word in
      if measured >? width then
        fit_words font1 width word_plus_space (current ++ [line]) word_next spaces_next
      else
        fit_words font1 width (new_concat line word_plus_space) current word_next spaces_next
  | _, _ => (current ++ [line], font)
  end.

(** The paragraph loop of [FC_GetBufferFitToColumn]. *)
Fixpoint fit_paragraphs (font : FC_Font) (width : Z) (current : list cstring)
    (iter : list cstring) : list cstring * FC_Font :=
  match iter with
  | [] => (current, font)
  | line :: next =>
      (* If line is too long, then add words one at a time until we go over. *)
      let '(too_long, font1) :=
        if width >? 0 then
          let '(measured, font1) := FC_GetWidth_of font line in (measured >? width, font1)
        else (false, font) in
      if too_long then
        match FC_ExplodeBreakingSpace line with
        | (word :: words, space :: spaces) =>
            let '(current', font2) :=
              fit_words font1 width (new_concat word space) current words spaces in
            fit_paragraphs font2 width current' next
        | _ => fit_paragraphs font1 width current next
        end
      else fit_paragraphs font1 width (current ++ [line]) next
  end.

(** [FC_GetBufferFitToColumn]: [buffer] is the content of [fc_buffer] on
    entry.  The [scale] argument is not used by the source. *)
Definition FC_GetBufferFitToColumn (font : FC_Font) (buffer : cstring) (width : Z)
    (keep_newlines : bool) : list cstring * FC_Font :=
  let ls := if keep_newlines then FC_ExplodeAndKeep buffer char_nl
            else FC_Explode buffer char_nl in
  fit_paragraphs font width [] ls.

(** [FC_GetColumnHeight]: the height and the font. *)
Definition FC_GetColumnHeight (font : option FC_Font) (width : Z) (formatted_text : option cstring)
  : Z * option FC_Font :=
  let width := Uint16 width in
  match font with
  | None => (0, None)
  | Some f =>
      match formatted_text with
      | None => (height f, font)
      | Some text =>
          if width =? 0 then (height f, font)
          else
            let '(ls, f') := FC_GetBufferFitToColumn f (FC_EXTRACT_VARARGS text) width false in
            let y := fold_left (fun y _ => Sint32 (y + FC_GetLineHeight (Some f'))) ls 0 in
            (Uint16 y, Some f')
      end
  end.

End Layout.

(** ** Drawing *)

(** The [float] operations the drawing code uses.  The properties below hold
    for any implementation of them. *)
Class FloatOps (float : Type) : Type := {
  float_of_int : Z -> float;
  int_of_float : float -> Z;
  float_add : float -> float -> float;
  float_mul : float -> float -> float
}.

(** Modelled from the spec: [FC_Scale] is declared in SDL_FontCache.h, which
    is not among the sources; it is the x/y scale pair of the spec's draw
    interface, with the fields the drawing code reads. *)
Record FC_Scale (float : Type) : Type := mkScale {
  scale_x : float;
  scale_y : float
}.
Arguments mkScale {float} _ _.
Arguments scale_x {float} _.
Arguments scale_y {float} _.

Section Drawing.

Context {float : Type} `{FloatOps float}.

Variable fc_tab_width : Z.
Variable indeterminate : FC_GlyphData.
Variable fc_buffer_size : Z.

(** [fc_render_callback(src, srcrect, dest, x, y, xscale, yscale)]: the
    rectangle it returns.  What it draws is not modelled. *)
Variable fc_render_callback :
  option SDL_Texture -> SDL_Rect -> Z -> Z -> float -> float -> SDL_Rect.

Local Abbreviation FC_GetGlyphData := (FC_GetGlyphData fc_tab_width indeterminate).
Local Abbreviation FC_EXTRACT_VARARGS := (FC_EXTRACT_VARARGS fc_buffer_size).
Local Abbreviation FC_GetBufferFitToColumn :=
  (FC_GetBufferFitToColumn fc_tab_width indeterminate fc_buffer_size).

(** [FC_DefaultRenderCallback]: the rectangle it returns. *)
Definition FC_DefaultRenderCallback (src : option SDL_Texture) (srcrect : SDL_Rect)
    (x y : Z) (xscale yscale : float) : SDL_Rect :=
  let w := float_mul (float_of_int (rect_w srcrect)) xscale in
  let h := float_mul (float_of_int (rect_h srcrect)) yscale in
  {| rect_x := x; rect_y := y; rect_w := int_of_float w; rect_h := int_of_float h |}.

(** The local variables of [FC_RenderLeft] that change in its loop, and the
    rectangles [fc_render_callback] returned so far, oldest first. *)
Record render_state : Type := mkRenderState {
  rs_font : FC_Font;
  destX : float;
  destY : float;
  dirtyRect : SDL_Rect;
  drawn : list SDL_Rect
}.

Section RenderLeftLoop.

Variable newlineX : Z.
Variable scale : FC_Scale float.
Variables destH destLineSpacing destLetterSpacing : float.

Definition advance_destX (st : render_state) (font : FC_Font) (glyph : FC_GlyphData)
  : render_state :=
  {| rs_font := font;
     destX := float_add (destX st)
                (float_add (float_mul (float_of_int (rect_w (rect glyph))) (scale_x scale))
                           destLetterSpacing);
     destY := destY st; dirtyRect := dirtyRect st; drawn := drawn st |}.

(** One glyph that is not the space: draw, grow the dirty rectangle, move on. *)
Definition draw_glyph (st : render_state) (font : FC_Font) (glyph : FC_GlyphData)
  : render_state :=
  let srcRect := rect glyph in
  let dstRect :=
    fc_render_callback (FC_GetGlyphCacheLevel font (cache_level glyph)) srcRect
      (int_of_float (destX st)) (int_of_float (destY st)) (scale_x scale) (scale_y scale) in
  let dirty :=
    if (rect_w (dirtyRect st) =? 0) || (rect_h (dirtyRect st) =? 0) then dstRect
    else SDL_RectUnion (dirtyRect st) dstRect in
  advance_destX
    {| rs_font := font; destX := destX st; destY := destY st;
       dirtyRect := dirty; drawn := drawn st ++ [dstRect] |}
    font glyph.

Definition with_font (st : render_state) (font : FC_Font) : render_state :=
  {| rs_font := font; destX := destX st; destY := destY st;
     dirtyRect := dirtyRect st; drawn := drawn st |}.

(** The loop of [FC_RenderLeft].  As in [FC_GetWidth_loop], it ends with the
    list, where the source goes on behind the terminator after a character
    that the terminator cuts off. *)
Fixpoint FC_RenderLeft_loop (turns : nat) (c : cstring) (st : render_state) : render_state :=
  match turns, c with
  | S turns', b :: _ =>
      if Byte.eqb b char_nl then
        FC_RenderLeft_loop turns' (drop 1 c)
          {| rs_font := rs_font st;
             destX := float_of_int newlineX;
             destY := float_add (destY st) (float_add destH destLineSpacing);
             dirtyRect := dirtyRect st; drawn := drawn st |}
      else
        let '(codepoint, c1) := codepoint_at c true in
        let '(found, font1) := FC_GetGlyphData (rs_font st) codepoint in
        match found with
        | Some glyph =>
            FC_RenderLeft_loop turns' (drop 1 c1)
              (if codepoint =? 32 then advance_destX st font1 glyph
               else draw_glyph st font1 glyph)
        | None =>
            (* codepoint = ' ' *)
            let '(found', font2) := FC_GetGlyphData font1 32 in
            match found' with
            | Some glyph => FC_RenderLeft_loop turns' (drop 1 c1) (advance_destX st font2 glyph)
            | None => FC_RenderLeft_loop turns' (drop 1 c1) (with_font st font2)
            end
        end
  | _, _ => st
  end.

End RenderLeftLoop.

(** [FC_RenderLeft] after its [font == nullptr] test: the dirty rectangle,
    the font, and the rectangles the callback returned. *)
Definition FC_RenderLeft_font (font : FC_Font) (dest : option SDL_Renderer) (x y : Z)
    (scale : FC_Scale float) (text : option cstring) : SDL_Rect * FC_Font * list SDL_Rect :=
  let dirtyRect0 := {| rect_x := x; rect_y := y; rect_w := 0; rect_h := 0 |} in
  let destH := float_mul (float_of_int (height font)) (scale_y scale) in
  let destLineSpacing := float_mul (float_of_int (lineSpacing font)) (scale_y scale) in
  let destLetterSpacing := float_mul (float_of_int (letterSpacing font)) (scale_x scale) in
  match text, dest with
  | Some c, Some _ =>
      if glyph_cache_count font =? 0 then (dirtyRect0, font, [])
      else
        let st :=
          FC_RenderLeft_loop x scale destH destLineSpacing destLetterSpacing (length c) c
            {| rs_font := font; destX := float_of_int x; destY := float_of_int y;
               dirtyRect := dirtyRect0; drawn := [] |} in
        (dirtyRect st, rs_font st, drawn st)
  | _, _ => (dirtyRect0, font, [])
  end.

(** [FC_RenderLeft]. *)
Definition FC_RenderLeft (font : option FC_Font) (dest : option SDL_Renderer) (x y : Z)
    (scale : FC_Scale float) (text : option cstring)
  : SDL_Rect * option FC_Font * list SDL_Rect :=
  match font with
  | None => ({| rect_x := x; rect_y := y; rect_w := 0; rect_h := 0 |}, None, [])
  | Some f =>
      let '(r, f', ds) := FC_RenderLeft_font f dest x y scale text in (r, Some f', ds)
  end.

Definition unit_scale : FC_Scale float := mkScale (float_of_int 1) (float_of_int 1).

(** [FC_Draw].  [set_color_for_all_caches] changes texture colours only. *)
Definition FC_Draw (font : option FC_Font) (dest : option SDL_Renderer) (x y : Z)
    (formatted_text : option cstring) : SDL_Rect * option FC_Font * list SDL_Rect :=
  match formatted_text, font with
  | Some text, Some _ =>
      FC_RenderLeft font dest x y unit_scale (Some (FC_EXTRACT_VARARGS text))
  | _, _ => ({| rect_x := x; rect_y := y; rect_w := 0; rect_h := 0 |}, font, [])
  end.

(** [FC_DrawScale]. *)
Definition FC_DrawScale (font : option FC_Font) (dest : option SDL_Renderer) (x y : Z)
    (scale : FC_Scale float) (formatted_text : option cstring)
  : SDL_Rect * option FC_Font * list SDL_Rect :=
  match formatted_text, font with
  | Some text, Some _ =>
      FC_RenderLeft font dest x y scale (Some (FC_EXTRACT_VARARGS text))
  | _, _ => ({| rect_x := x; rect_y := y; rect_w := 0; rect_h := 0 |}, font, [])
  end.

(** [FC_DrawColor]: the colour goes to [set_color_for_all_caches] only. *)
Definition FC_DrawColor (font : option FC_Font) (dest : option SDL_Renderer) (x y : Z)
    (color : SDL_Color) (formatted_text : option cstring)
  : SDL_Rect * option FC_Font * list SDL_Rect :=
  match formatted_text, font with
  | Some text, Some _ =>
      FC_RenderLeft font dest x y unit_scale (Some (FC_EXTRACT_VARARGS text))
  | _, _ => ({| rect_x := x; rect_y := y; rect_w := 0; rect_h := 0 |}, font, [])
  end.

(** The line loop of [FC_DrawColumnFromBuffer] for [FC_ALIGN_LEFT], where
    [FC_RenderAlign] is [FC_RenderLeft(font, dest, x, y, scale, text)]. *)
Fixpoint draw_lines (font : FC_Font) (dest : option SDL_Renderer) (box : SDL_Rect)
    (scale : FC_Scale float) (iter : list cstring) (y : Z) (drawn : list SDL_Rect)
  : Z * FC_Font * list SDL_Rect :=
  match iter with
  | [] => (y, font, drawn)
  | line :: next =>
      let '(_, font1, ds) := FC_RenderLeft_font font dest (rect_x box) y scale (Some line) in
      draw_lines font1 dest box scale next
        (Sint32 (y + FC_GetLineHeight (Some font1))) (drawn ++ ds)
  end.

(** [FC_DrawColumnFromBuffer] for [FC_ALIGN_LEFT]: [*total_height], the
    font, and the rectangles the callback returned. *)
Definition FC_DrawColumnFromBuffer (font : FC_Font) (buffer : cstring)
    (dest : option SDL_Renderer) (box : SDL_Rect) (scale : FC_Scale float)
  : Z * FC_Font * list SDL_Rect :=
  let '(ls, font1) := FC_GetBufferFitToColumn font buffer (rect_w box) false in
  let '(y, font2, ds) := draw_lines font1 dest box scale ls (rect_y box) [] in
  (Sint32 (y - rect_y box), font2, ds).

(** [FC_DrawColumn]. *)
Definition FC_DrawColumn (font : option FC_Font) (dest : option SDL_Renderer) (x y : Z)
    (width : Z) (formatted_text : option cstring)
  : SDL_Rect * option FC_Font * list SDL_Rect :=
  let width := Uint16 width in
  let box := {| rect_x := x; rect_y := y; rect_w := width; rect_h := 0 |} in
  match formatted_text, font with
  | Some text, Some f =>
      let '(total_height, f', ds) :=
        FC_DrawColumnFromBuffer f (FC_EXTRACT_VARARGS text) dest box unit_scale in
      ({| rect_x := rect_x box; rect_y := rect_y box; rect_w := width; rect_h := total_height |},
       Some f', ds)
  | _, _ => ({| rect_x := x; rect_y := y; rect_w := 0; rect_h := 0 |}, font, [])
  end.

End Drawing.

(** ** Vocabulary of the statements *)

(** Codepoints that are the packed bytes of a UTF-8 sequence whose lead byte
    selects the sequence's length: one byte up to 0x7F, two bytes with a lead
    byte below 0xE0, three with a lead byte below 0xF0, four otherwise. *)
Definition utf8_packed (c : Z) : bool :=
  ((0 <=? c) && (c <=? 0x7F))
  || ((0x8000 <=? c) && (c <=? 0xDFFF))
  || ((0xE00000 <=? c) && (c <=? 0xEFFFFF))
  || ((0xF0000000 <=? c) && (c <=? 0xFFFFFFFF)).

(** A map as [FC_MapCreate] allocates it: as many chains as [num_buckets]. *)
Definition FC_Map_wf (m : FC_Map) : Prop :=
  0 < num_buckets m < 2 ^ 31 /\ length (buckets m) = Z.to_nat (num_buckets m).

(** The width the packer works with: the argument converted to [Uint16], or
    for TAB the tab width times the width of the cached space glyph. *)
Definition packed_width (tab_width : Z) (font : FC_Font) (codepoint width : Z) : Z :=
  if codepoint =? 9 then
    match FC_MapFind (glyphs font) 32 with
    | Some spaceGlyph => Uint16 (Uint32 tab_width * Uint32 (rect_w (rect spaceGlyph)))
    | None => Uint16 width
    end
  else Uint16 width.

(** [U8_charsize]: the number of bytes of the character at the pointer. *)
Definition U8_charsize (character : option cstring) : Z :=
  match character with
  | None => 0
  | Some str =>
      if peek str 0 <=? 127 then 1
      else if peek str 0 <? 224 then 2
      else if peek str 0 <? 240 then 3
      else 4
  end.

(** One character of a text: as many bytes as [U8_charsize] says for its
    first byte, the first byte not being the newline. *)
Definition is_uchar (ch : cstring) : bool :=
  match ch with
  | [] => false
  | b :: _ => negb (Byte.eqb b char_nl) && (Z.of_nat (length ch) =? U8_charsize (Some ch))
  end.

(** A text of whole characters: it holds no 0 byte, and every byte that
    starts a character of [n] bytes, by [U8_charsize], is followed by [n - 1]
    continuation bytes, each at least 0x80.  No character of such a text is
    cut off by the terminator, nor by a newline, a space or a tab where the
    text is split.  [pending] counts the continuation bytes still to come. *)
Fixpoint whole_characters_from (pending : nat) (text : cstring) : bool :=
  match text with
  | [] => Nat.eqb pending 0
  | b :: rest =>
      match pending with
      | O =>
          negb (byte.unsigned b =? 0)
          && whole_characters_from (Z.to_nat (U8_charsize (Some [b]) - 1)) rest
      | S pending' => (128 <=? byte.unsigned b) && whole_characters_from pending' rest
      end
  end.

Definition whole_characters (text : cstring) : bool := whole_characters_from 0 text.

(** A text given as its lines, each line as its characters: the lines are
    joined with a newline between them. *)
Fixpoint join_lines (lines : list (list cstring)) : cstring :=
  match lines with
  | [] => []
  | [line] => concat line
  | line :: rest => concat line ++ char_nl :: join_lines rest
  end.

Section Measure.

Variable fc_tab_width : Z.
Variable indeterminate : FC_GlyphData.

Local Abbreviation FC_GetGlyphData := (FC_GetGlyphData fc_tab_width indeterminate).

(** The width a character adds to its line: that of its glyph, that of the
    space glyph when the glyph lookup fails, nothing when both fail.  The
    lookups may cache glyphs, so the font is passed along. *)
Definition glyph_advance (font : FC_Font) (ch : cstring) : Z * FC_Font :=
  match FC_GetGlyphData font (fst (codepoint_at ch false)) with
  | (Some glyph, font1) => (rect_w (rect glyph), font1)
  | (None, font1) =>
      match FC_GetGlyphData font1 32 with
      | (Some spaceGlyph, font2) => (rect_w (rect spaceGlyph), font2)
      | (None, font2) => (0, font2)
      end
  end.

(** The sum of the glyph widths of a line. *)
Fixpoint line_sum (font : FC_Font) (line : list cstring) : Z * FC_Font :=
  match line with
  | [] => (0, font)
  | ch :: rest =>
      let '(a, font1) := glyph_advance font ch in
      let '(s, font2) := line_sum font1 rest in
      (a + s, font2)
  end.

(** The sums of the lines of a text, first line first. *)
Fixpoint line_sums (font : FC_Font) (lines : list (list cstring)) : list Z * FC_Font :=
  match lines with
  | [] => ([], font)
  | line :: rest =>
      let '(s, font1) := line_sum font line in
      let '(ss, font2) := line_sums font1 rest in
      (s :: ss, font2)
  end.

End Measure.

(** The number of turns the loop of [FC_GetWidth] takes on a text: one for
    each character and one for each newline. *)
Fixpoint turns (lines : list (list cstring)) : nat :=
  match lines with
  | [] => 0
  | [line] => length line
  | line :: rest => length line + S (turns rest)
  end.

(** A pixel of a rectangle. *)
Definition pixel_in (r : SDL_Rect) (px py : Z) : Prop :=
  rect_x r <= px < rect_x r + rect_w r /\ rect_y r <= py < rect_y r + rect_h r.

(** [outer] contains [inner]: every pixel of [inner] is a pixel of [outer]. *)
Definition rect_covers (outer inner : SDL_Rect) : Prop :=
  forall px py, pixel_in inner px py -> pixel_in outer px py.

(** Coordinates for which the [int] sums and differences of [SDL_RectUnion]
    do not overflow. *)
Definition rect_in_range (r : SDL_Rect) : Prop :=
  (- 2 ^ 30 <= rect_x r < 2 ^ 30 /\ - 2 ^ 30 <= rect_x r + rect_w r < 2 ^ 30)
  /\ (- 2 ^ 30 <= rect_y r < 2 ^ 30 /\ - 2 ^ 30 <= rect_y r + rect_h r < 2 ^ 30).

(** The rectangle of a draw that is not flipped: in range, and of a width
    and height that are not negative. *)
Definition rect_upright (r : SDL_Rect) : Prop :=
  rect_in_range r /\ 0 <= rect_w r /\ 0 <= rect_h r.

(** How [FC_RenderLeft] updates [dirtyRect] with the rectangle of a draw. *)
Definition dirty_after (dirty dstRect : SDL_Rect) : SDL_Rect :=
  if (rect_w dirty =? 0) || (rect_h dirty =? 0) then dstRect
  else SDL_RectUnion dirty dstRect.

(** What is kept while [dirtyRect] is updated: it contains the rectangles
    drawn so far, and it is empty or in range. *)
Definition dirty_inv (dirty : SDL_Rect) (drawn : list SDL_Rect) : Prop :=
  Forall (rect_covers dirty) drawn
  /\ (rect_w dirty = 0 \/ rect_h dirty = 0 \/ rect_in_range dirty).

(** The one-byte strings [FC_ExplodeBreakingSpace] stores in [*spaces]. *)
Definition is_separator (s : cstring) : Prop :=
  s = [] \/ s = [char_space] \/ s = [char_tab].

(** A text without a space or a tab: it cannot be split. *)
Definition is_word (w : cstring) : Prop :=
  Forall (fun b => is_breaking_space b = false) w.

Section WrapVocabulary.

Variable fc_tab_width : Z.
Variable indeterminate : FC_GlyphData.
Variable fc_buffer_size : Z.

Local Abbreviation width_of := (FC_GetWidth_of fc_tab_width indeterminate fc_buffer_size).

(** A font that glyph lookups leave as it is: every glyph asked for is
    either cached already or cannot be added. *)
Definition lookups_pure (font : FC_Font) : Prop :=
  forall codepoint, snd (FC_GetGlyphData fc_tab_width indeterminate font codepoint) = font.

(** The word loop of [FC_GetBufferFitToColumn] with a record of its calls
    of [FC_GetWidth]: [log] holds, oldest first, each text that was measured
    and the width that was returned for it.  Without the record this is
    [fit_words]. *)
Fixpoint fit_words_log (font : FC_Font) (width : Z) (line : cstring) (current : list cstring)
    (word_iter spaces_iter : list cstring) (log : list (cstring * Z))
  : list cstring * FC_Font * list (cstring * Z) :=
  match word_iter, spaces_iter with
  | word :: word_next, space :: spaces_next =>
      let line_plus_word := new_concat line word in
      let word_plus_space := new_concat word space in
      let '(measured, font1) := width_of font line_plus_word in
      let log := log ++ [(line_plus_word, measured)] in
      if measured >? width then
        fit_words_log font1 width word_plus_space (current ++ [line]) word_next spaces_next log
      else
        fit_words_log font1 width (new_concat line word_plus_space) current
          word_next spaces_next log
  | _, _ => (current ++ [line], font, log)
  end.

(** The paragraph loop with the same record.  Without the record this is
    [fit_paragraphs]. *)
Fixpoint fit_paragraphs_log (font : FC_Font) (width : Z) (current : list cstring)
    (iter : list cstring) (log : list (cstring * Z))
  : list cstring * FC_Font * list (cstring * Z) :=
  match iter with
  | [] => (current, font, log)
  | line :: next =>
      let '(too_long, font1, log1) :=
        if width >? 0 then
          let '(measured, font1) := width_of font line in
          (measured >? width, font1, log ++ [(line, measured)])
        else (false, font, log) in
      if too_long then
        match FC_ExplodeBreakingSpace line with
        | (word :: words, space :: spaces) =>
            let '(current', font2, log2) :=
              fit_words_log font1 width (new_concat word space) current words spaces log1 in
            fit_paragraphs_log font2 width current' next log2
        | _ => fit_paragraphs_log font1 width current next log1
        end
      else fit_paragraphs_log font1 width (current ++ [line]) next log1
  end.

(** [FC_GetBufferFitToColumn] with the record of its calls of [FC_GetWidth]. *)
Definition FC_GetBufferFitToColumn_log (font : FC_Font) (buffer : cstring) (width : Z)
    (keep_newlines : bool) : list cstring * FC_Font * list (cstring * Z) :=
  let ls := if keep_newlines then FC_ExplodeAndKeep buffer char_nl
            else FC_Explode buffer char_nl in
  fit_paragraphs_log font width [] ls [].

(** A line fits the column of width [W]: without its trailing separator, if
    it has one, it is a single word, or it is a text that was measured
    during the call, and [FC_GetWidth] returned at most [W] for it. *)
Definition line_fits (W : Z) (log : list (cstring * Z)) (line : cstring) : Prop :=
  exists p s,
    line = p ++ s /\ is_separator s
    /\ (is_word p \/ exists measured, In (p, measured) log /\ measured <= W).

(** The widths in the record are those [FC_GetWidth] returns on [font]. *)
Definition measured_on (font : FC_Font) (log : list (cstring * Z)) : Prop :=
  Forall (fun entry => snd entry = fst (width_of font (fst entry))) log.

(** The lines one paragraph is turned into, and the font afterwards. *)
Definition paragraph_lines_at (font : FC_Font) (W : Z) (paragraph : cstring)
  : list cstring * FC_Font :=
  if W >? 0 then
    let '(measured, font1) := width_of font paragraph in
    if measured >? W then
      match FC_ExplodeBreakingSpace paragraph with
      | (word :: words, space :: spaces) =>
          fit_words fc_tab_width indeterminate fc_buffer_size font1 W
            (new_concat word space) [] words spaces
      | _ => ([], font1)
      end
    else ([paragraph], font1)
  else ([paragraph], font).

(** The lines of the paragraphs of a text, first paragraph first. *)
Fixpoint text_lines (font : FC_Font) (W : Z) (paragraphs : list cstring)
  : list cstring * FC_Font :=
  match paragraphs with
  | [] => ([], font)
  | paragraph :: rest =>
      let '(lines, font1) := paragraph_lines_at font W paragraph in
      let '(more, font2) := text_lines font1 W rest in
      (lines ++ more, font2)
  end.

End WrapVocabulary.

(** The largest element of a list of widths, 0 for the empty list. *)
Definition widest (sums : list Z) : Z := foldr Z.max 0 sums.

(** ** Data used in the examples *)

(** The value standing for an uninitialised [FC_GlyphData] in the examples. *)
Definition no_glyph : FC_GlyphData := FC_MakeGlyphData 0 0 0 0 0.

(** The font as [FC_LoadFontFromTTF] has it when it starts packing: the state
    left by [FC_Init], the font height, and the cursor at the padding with
    the height of a line. *)
Definition font_at_load (h : Z) : FC_Font :=
  let f := FC_Init None None None in
  {| renderer := renderer f; ttf_source := ttf_source f; height := h;
     lineSpacing := lineSpacing f; letterSpacing := letterSpacing f;
     glyphs := glyphs f;
     last_glyph := {| rect := {| rect_x := FC_CACHE_PADDING; rect_y := FC_CACHE_PADDING;
                                 rect_w := 0; rect_h := h |};
                      cache_level := 0 |};
     glyph_cache_size := glyph_cache_size f; glyph_cache_count := glyph_cache_count f;
     glyph_cache := glyph_cache f |}.

(** Three glyphs of width 10 packed one after the other into a level 100
    pixels wide: what the packer returned for each. *)
Definition pack_three : list (option FC_GlyphData) :=
  let '(g1, f1) := FC_PackGlyphData 4 no_glyph (font_at_load 10) 97 10 100 100 in
  let '(g2, f2) := FC_PackGlyphData 4 no_glyph f1 98 10 100 100 in
  let '(g3, f3) := FC_PackGlyphData 4 no_glyph f2 99 10 100 100 in
  [g1; g2; g3].

(** A font of height 10 with a rasterizer that gives every text a surface
    [glyph_w] wide, one cache level of 120 by 120, a map that holds the
    letters a to f but not the space, and the cursor on a last glyph of
    width [cursor_w] at [(cursor_x, cursor_y)]. *)
Definition font_with_cursor (glyph_w cursor_x cursor_y cursor_w : Z) (r : option SDL_Renderer)
  : FC_Font :=
  {| renderer := r;
     ttf_source := Some (fun _ => Some {| surf_w := glyph_w; surf_h := 10 |});
     height := 10; lineSpacing := 0; letterSpacing := 0;
     glyphs := insert_all (Some (FC_MapCreate FC_DEFAULT_NUM_BUCKETS))
                 (map (fun cp => (cp, FC_MakeGlyphData 0 0 0 10 10)) [97; 98; 99; 100; 101; 102]);
     last_glyph := {| rect := {| rect_x := cursor_x; rect_y := cursor_y;
                                 rect_w := cursor_w; rect_h := 10 |};
                      cache_level := 0 |};
     glyph_cache_size := 3; glyph_cache_count := 1;
     glyph_cache := [Some {| tex_w := 120; tex_h := 120 |}; None; None] |}.

(** A renderer that creates every texture asked for. *)
Definition any_size_renderer : SDL_Renderer :=
  {| create_texture := fun w h => Some {| tex_w := w; tex_h := h |} |}.

(** A font of height 10 without a rasterizer whose map holds the space and
    the letters a to f, each 10 wide, on one cache level. *)
Definition letters_font : FC_Font :=
  {| renderer := None; ttf_source := None;
     height := 10; lineSpacing := 0; letterSpacing := 0;
     glyphs := insert_all (Some (FC_MapCreate FC_DEFAULT_NUM_BUCKETS))
                 (map (fun cp => (cp, FC_MakeGlyphData 0 0 0 10 10)) [32; 97; 98; 99; 100; 101; 102]);
     last_glyph := {| rect := {| rect_x := 1; rect_y := 1; rect_w := 0; rect_h := 10 |};
                      cache_level := 0 |};
     glyph_cache_size := 3; glyph_cache_count := 1;
     glyph_cache := [Some {| tex_w := 120; tex_h := 120 |}; None; None] |}.

(** A font of height 10 without a rasterizer whose map holds the letter a
    with a glyph 40000 wide. *)
Definition wide_font : FC_Font :=
  {| renderer := None; ttf_source := None;
     height := 10; lineSpacing := 0; letterSpacing := 0;
     glyphs := insert_all (Some (FC_MapCreate FC_DEFAULT_NUM_BUCKETS))
                 [(97, FC_MakeGlyphData 0 0 0 40000 10)];
     last_glyph := {| rect := {| rect_x := 1; rect_y := 1; rect_w := 0; rect_h := 10 |};
                      cache_level := 0 |};
     glyph_cache_size := 3; glyph_cache_count := 1;
     glyph_cache := [Some {| tex_w := 120; tex_h := 120 |}; None; None] |}.

(** A renderer that cannot create any texture. *)
Definition failing_renderer : SDL_Renderer :=
  {| create_texture := fun _ _ => None |}.

(** Exact arithmetic on whole numbers, standing for [float] where every value
    is a whole number of small magnitude, as in a draw at scale 1. *)
#[export] Instance exact_float : FloatOps Z :=
  {| float_of_int := fun z => z; int_of_float := fun z => z;
     float_add := Z.add; float_mul := Z.mul |}.

(** The text "abcdef". *)
Definition text_abcdef : cstring :=
  [Byte.x61; Byte.x62; Byte.x63; Byte.x64; Byte.x65; Byte.x66].

(** The texts "ab cd ef", "ab cd " and "aaaa ". *)
Definition text_ab_cd_ef : cstring :=
  [Byte.x61; Byte.x62; Byte.x20; Byte.x63; Byte.x64; Byte.x20; Byte.x65; Byte.x66].

Definition text_ab_cd_ : cstring :=
  [Byte.x61; Byte.x62; Byte.x20; Byte.x63; Byte.x64; Byte.x20].

Definition text_aaaa_ : cstring :=
  [Byte.x61; Byte.x61; Byte.x61; Byte.x61; Byte.x20].

(** ** UTF-8 string functions *)

(** [U8_next] on a non-null string: the pointer moved by [U8_charsize].
    When fewer bytes are left before the terminator, the source returns a
    pointer behind the terminator; here the result is the empty suffix, so
    the two agree only when the character at the pointer is whole. *)
Definition U8_next (string : cstring) : cstring :=
  drop (Z.to_nat (U8_charsize (Some string))) string.

(** The loop of [U8_strlen]: every turn moves the pointer forward, so
    [length string] turns are enough. *)
Fixpoint U8_strlen_loop (turns : nat) (string : cstring) (length : Z) : Z :=
  match turns, string with
  | S turns', _ :: _ => U8_strlen_loop turns' (U8_next string) (Sint32 (length + 1))
  | _, _ => length
  end.

(** [U8_strlen]. *)
Definition U8_strlen (string : option cstring) : Z :=
  match string with
  | None => 0
  | Some s => U8_strlen_loop (length s) s 0
  end.

(** [U8_charcpy]: the value returned and the buffer.  The bytes come from
    [source], the terminator included when the character is cut short. *)
Definition U8_charcpy (buffer : option (list byte)) (source : option cstring) (buffer_size : Z)
  : Z * option (list byte) :=
  match buffer, source with
  | Some buf, Some src =>
      if buffer_size <? 1 then (0, buffer)
      else
        let charsize := U8_charsize source in
        if charsize >? buffer_size then (0, buffer)
        else
          let copied := map (fun i => byte.of_Z (peek src i)) (seq 0 (Z.to_nat charsize)) in
          (charsize, Some (copied ++ drop (Z.to_nat charsize) buf))
  | _, _ => (0, buffer)
  end.

(** The pointer loop of [U8_strinsert]: the bytes passed over and the
    pointer, after at most [position] characters. *)
Fixpoint U8_seek (turns : nat) (string : cstring) (pos_u8char position : Z) : cstring :=
  match turns, string with
  | S turns', _ :: _ =>
      if pos_u8char <? position then
        U8_seek turns' (U8_next string) (Sint32 (pos_u8char + 1)) position
      else string
  | _, _ => string
  end.

(** [U8_strinsert]: the value returned and the string.  [strlen] is the
    length of the list. *)
Definition U8_strinsert (string : option cstring) (position : Z) (source : option cstring)
    (max_bytes : Z) : Z * option cstring :=
  match string, source with
  | Some s, Some src =>
      let len := Sint32 (Z.of_nat (length s)) in
      let add_len := Sint32 (Z.of_nat (length src)) in
      let ulen := U8_strlen string in
      let position := if position =? -1 then ulen else position in
      if (position <? 0) || (position >? ulen) || (Sint32 (len + add_len + 1) >? max_bytes)
      then (0, string)
      else
        let rest := U8_seek (length s) s 0 position in
        (* the bytes before the pointer stay, the rest moves behind [source] *)
        let before := take (length s - length rest) s in
        (1, Some (before ++ src ++ rest))
  | _, _ => (0, string)
  end.

(** The loop of [U8_strdel]: [done] holds the bytes before the pointer. *)
Fixpoint U8_strdel_loop (turns : nat) (done string : cstring) (position : Z) : cstring :=
  match turns, string with
  | S turns', _ :: _ =>
      if position =? 0 then
        let chars_to_erase := U8_charsize (Some string) in
        done ++ drop (Z.to_nat chars_to_erase) string
      else
        U8_strdel_loop turns' (done ++ take (length string - length (U8_next string)) string)
          (U8_next string) (Sint32 (position - 1))
  | _, _ => done ++ string
  end.

(** [U8_strdel]: the string afterwards. *)
Definition U8_strdel (string : option cstring) (position : Z) : option cstring :=
  match string with
  | None => None
  | Some s =>
      if position <? 0 then string
      else Some (U8_strdel_loop (length s) [] s position)
  end.

(** A whole character of a C string: as many bytes as [U8_charsize] says for
    its first, none of them the terminator. *)
Definition is_whole_char (ch : cstring) : bool :=
  match ch with
  | [] => false
  | _ :: _ =>
      (Z.of_nat (length ch) =? U8_charsize (Some ch))
      && forallb (fun b => negb (Byte.eqb b Byte.x00)) ch
  end.

(** ** Enumerating the glyph map *)

(** [FC_GetNumCodepoints]: the buckets [0 .. num_buckets) are walked in
    order; [result] is an [unsigned int]. *)
Definition FC_GetNumCodepoints (font : option FC_Font) : Z :=
  match font with
  | None => 0
  | Some f =>
      match glyphs f with
      | None => 0
      | Some m =>
          fold_left
            (fun result chain => fold_left (fun result _ => Uint32 (result + 1)) chain result)
            (take (Z.to_nat (num_buckets m)) (buckets m)) 0
      end
  end.

(** [FC_GetCodepoints]: the caller's array [result] afterwards.  The array
    is to hold [FC_GetNumCodepoints] entries; a store past its end is not
    modelled and leaves it as it is. *)
Definition FC_GetCodepoints (font : option FC_Font) (result : list Z) : list Z :=
  match font with
  | None => result
  | Some f =>
      match glyphs f with
      | None => result
      | Some m =>
          fst (fold_left
                 (fun st chain =>
                    fold_left
                      (fun '(result, count) node =>
                         (<[Z.to_nat count := key node]> result, Uint32 (count + 1)))
                      chain st)
                 (take (Z.to_nat (num_buckets m)) (buckets m)) (result, 0))
      end
  end.

(** The value of the first entry with the key, in the order of the list. *)
Definition first_value (entries : list (Z * FC_GlyphData)) (codepoint : Z)
  : option FC_GlyphData :=
  option_map snd (List.find (fun e => fst e =? codepoint) entries).

(** ** Loading a font *)

(** [FC_LOAD_MAX_SURFACES]. *)
Definition FC_LOAD_MAX_SURFACES : Z := 10.

(** [FC_UploadGlyphCache]: the value returned and the font.  Both of its
    branches ask the renderer for a texture of the size of the surface; the
    pixels copied are not modelled. *)
Definition FC_UploadGlyphCache (font : FC_Font) (cache_level : Z)
    (data_surface : option SDL_Surface) : bool * FC_Font :=
  match data_surface with
  | None => (false, font)
  | Some surface =>
      match SDL_CreateTexture (renderer font) (surf_w surface) (surf_h surface) with
      | None => (false, font)
      | Some new_level => FC_SetGlyphCacheLevel font cache_level (Some new_level)
      end
  end.

Section Loading.

Variable fc_tab_width : Z.
Variable indeterminate : FC_GlyphData.

(** The body of the loop of [FC_LoadFontFromTTF] from the first
    [FC_PackGlyphData] on, for the glyph surface of [codepoint], which is
    [width] wide: the font, [num_surfaces] and whether the loop is left by
    [break].  Every surface is [w] by [h]; [FC_CreateSurface32] is taken to
    succeed, as the source uses its result without a test. *)
Definition load_glyph (w h : Z) (font : FC_Font) (num_surfaces codepoint width : Z)
  : FC_Font * Z * bool :=
  (* Try packing.  If it fails, create a new surface for the next cache level. *)
  match FC_PackGlyphData fc_tab_width indeterminate font codepoint width w h with
  | (Some _, font1) => (font1, num_surfaces, false)
  | (None, font1) =>
      if num_surfaces >=? FC_LOAD_MAX_SURFACES then
        (* Can't do any more! *)
        (font1, num_surfaces, true)
      else
        let i := Sint32 (num_surfaces - 1) in
        let '(_, font2) :=
          FC_UploadGlyphCache font1 i (Some {| surf_w := w; surf_h := h |}) in
        (* Update the glyph cursor to the new cache level. *)
        let font3 :=
          set_last_glyph font2
            {| rect := rect (last_glyph font2); cache_level := num_surfaces |} in
        let num_surfaces := Sint32 (num_surfaces + 1) in
        (* Try packing for the new surface. *)
        let '(_, font4) :=
          FC_PackGlyphData fc_tab_width indeterminate font3 codepoint width w h in
        (font4, num_surfaces, false)
  end.

(** The loop of [FC_LoadFontFromTTF] over the loading string: the font and
    [num_surfaces].  Every turn moves [source_string] forward, so its length
    in turns is enough. *)
Fixpoint load_loop (turns : nat) (ttf : TTF_Font) (w h : Z) (font : FC_Font)
    (num_surfaces : Z) (source_string : cstring) : FC_Font * Z :=
  match turns, source_string with
  | S turns', _ :: _ =>
      let next := U8_next source_string in
      match U8_charcpy (Some (replicate 5 Byte.x00)) (Some source_string) 5 with
      | (copied, Some buff) =>
          if copied =? 0 then load_loop turns' ttf w h font num_surfaces next
          else
            match TTF_RenderUTF8_Blended ttf (c_str buff) with
            | None => load_loop turns' ttf w h font num_surfaces next
            | Some glyph_surf =>
                match load_glyph w h font num_surfaces (fst (codepoint_at buff false))
                        (surf_w glyph_surf) with
                | (font', num_surfaces', true) => (font', num_surfaces')
                | (font', num_surfaces', false) =>
                    load_loop turns' ttf w h font' num_surfaces' next
                end
            end
      | (_, None) => (font, num_surfaces)
      end
  | _, _ => (font, num_surfaces)
  end.

(** The height [FC_LoadFontFromTTF] stores in the font, from what
    [TTF_FontHeight], [TTF_FontAscent] and [TTF_FontDescent] return:
    [font->height] is a [Uint16], [font->ascent] and [font->descent] are
    [int]s. *)
Definition loaded_height (ttf_height ttf_ascent ttf_descent : Z) : Z :=
  let ascent := ttf_ascent in
  let descent := Sint32 (- ttf_descent) in
  let height0 := Uint16 ttf_height in
  (* Some bug for certain fonts can result in an incorrect height. *)
  if height0 <? Sint32 (ascent - descent) then Uint16 (Sint32 (ascent - descent))
  else height0.

(** [FC_LoadFontFromTTF]: the value returned and the font.  [FC_ClearFont]
    leaves the state of [FC_Init], whose three slots are [slot0], [slot1]
    and [slot2]; [loading_string] is the loading string of the font, which
    [FC_Init] keeps; [ttf_height], [ttf_ascent] and [ttf_descent] are what
    [TTF_FontHeight], [TTF_FontAscent] and [TTF_FontDescent] return for
    [ttf]. *)
Definition FC_LoadFontFromTTF (loading_string : cstring)
    (slot0 slot1 slot2 : option SDL_Texture)
    (font : option FC_Font) (renderer : option SDL_Renderer) (ttf : option TTF_Font)
    (ttf_height ttf_ascent ttf_descent : Z) : bool * option FC_Font :=
  match font, ttf, renderer with
  | Some _, Some ttf_source_, Some _ =>
      let cleared := FC_Init slot0 slot1 slot2 in
      let height1 := loaded_height ttf_height ttf_ascent ttf_descent in
      let w := Sint32 (Uint32 (Sint32 (height1 * 12))) in
      let h := Sint32 (Uint32 (Sint32 (height1 * 12))) in
      let font1 :=
        {| renderer := renderer; ttf_source := ttf; height := height1;
           lineSpacing := lineSpacing cleared; letterSpacing := letterSpacing cleared;
           glyphs := glyphs cleared;
           last_glyph := {| rect := {| rect_x := FC_CACHE_PADDING; rect_y := FC_CACHE_PADDING;
                                       rect_w := 0; rect_h := height1 |};
                            cache_level := cache_level (last_glyph cleared) |};
           glyph_cache_size := glyph_cache_size cleared;
           glyph_cache_count := glyph_cache_count cleared;
           glyph_cache := glyph_cache cleared |} in
      let '(font2, num_surfaces) :=
        load_loop (length loading_string) ttf_source_ w h font1 1 loading_string in
      let '(_, font3) :=
        FC_UploadGlyphCache font2 (Sint32 (num_surfaces - 1))
          (Some {| surf_w := w; surf_h := h |}) in
      (true, Some font3)
  | _, _, _ => (false, font)
  end.

End Loading.

(** ** Vocabulary of the packing invariant *)

(** Two rectangles without a common pixel. *)
Definition rect_disjoint (a b : SDL_Rect) : Prop :=
  forall px py, pixel_in a px py -> ~ pixel_in b px py.

(** The distance between two rows of a cache level, as the packer computes
    it: [Uint16 height = font->height + FC_CACHE_PADDING]. *)
Definition row_pitch (font : FC_Font) : Z := Uint16 (height font + FC_CACHE_PADDING).

(** A rectangle that the cursor [cur] has passed: it ends in the cursor's row
    at or before the end of the cursor, or it lies in an earlier row. *)
Definition before_cursor (pitch : Z) (cur r : SDL_Rect) : Prop :=
  0 <= rect_w r /\ 0 <= rect_h r <= pitch
  /\ ((rect_y r = rect_y cur /\ rect_x r + rect_w r <= rect_x cur + rect_w cur)
      \/ rect_y r + pitch <= rect_y cur).

(** The cursor [last_glyph] is a rectangle of the level: non-negative, not
    higher than a row, and far from the limits of [int]. *)
Definition cursor_ok (font : FC_Font) : Prop :=
  let cur := rect (last_glyph font) in
  0 <= rect_x cur /\ 0 <= rect_w cur /\ rect_x cur + rect_w cur < 2 ^ 17
  /\ 0 <= rect_y cur < 2 ^ 15
  /\ 0 <= rect_h cur <= row_pitch font.

(** Every glyph that a lookup finds on the cursor's level has been passed by
    the cursor. *)
Definition packed_before (font : FC_Font) : Prop :=
  forall k g,
    FC_MapFind (glyphs font) k = Some g ->
    cache_level g = cache_level (last_glyph font) ->
    before_cursor (row_pitch font) (rect (last_glyph font)) (rect g).

(** Where the cursor may stand after it has left the rectangle [cur]: further
    right in the same row, or at the start of the next row. *)
Definition cursor_moved (pitch : Z) (cur next : SDL_Rect) : Prop :=
  0 <= rect_w next /\ rect_h next = rect_h cur
  /\ ((rect_y next = rect_y cur /\ rect_x cur + rect_w cur + 2 <= rect_x next)
      \/ rect_y next = rect_y cur + pitch).

(** ** Vocabulary of the glyph provider's effect *)

(** The font has a glyph map as [FC_MapCreate] allocates it. *)
Definition font_map_wf (font : FC_Font) : Prop :=
  exists m, glyphs font = Some m /\ FC_Map_wf m.

(** The metrics, the rasterizer and the renderer of two fonts are the same. *)
Definition same_settings (font font' : FC_Font) : Prop :=
  height font' = height font /\ lineSpacing font' = lineSpacing font
  /\ letterSpacing font' = letterSpacing font
  /\ ttf_source font' = ttf_source font /\ renderer font' = renderer font.

(** The font after an operation that only adds glyphs: the map is still
    well formed, the settings are the same, and every glyph a lookup found
    is found with the same data. *)
Definition font_grows (font font' : FC_Font) : Prop :=
  font_map_wf font'
  /\ same_settings font font'
  /\ (forall k v, FC_MapFind (glyphs font) k = Some v ->
                  FC_MapFind (glyphs font') k = Some v).

(** The lookups that a request for [codepoint] may change: its own, and the
    one of the space when the codepoint is TAB. *)
Definition may_change (codepoint k : Z) : Prop :=
  k = codepoint \/ (codepoint = 9 /\ k = 32).

(** What a call for [codepoint] that returned [r] did to the map: a cached
    glyph stays as it is, only the lookups of [may_change] differ, a glyph
    returned for an absent codepoint is found afterwards, and after a
    failure the codepoint is found as before. *)
Definition map_effect (codepoint : Z) (r : option FC_GlyphData) (font font' : FC_Font) : Prop :=
  font_map_wf font'
  /\ same_settings font font'
  /\ (forall k v, FC_MapFind (glyphs font) k = Some v -> FC_MapFind (glyphs font') k = Some v)
  /\ (forall k, ~ may_change codepoint k ->
                FC_MapFind (glyphs font') k = FC_MapFind (glyphs font) k)
  /\ (forall g, r = Some g -> FC_MapFind (glyphs font) codepoint = None ->
                FC_MapFind (glyphs font') codepoint = Some g)
  /\ (r = None -> FC_MapFind (glyphs font') codepoint = FC_MapFind (glyphs font) codepoint).

(** ** Text height and wrapped text *)

Section TextHeight.

Variable fc_tab_width : Z.
Variable indeterminate : FC_GlyphData.
Variable fc_buffer_size : Z.

(** The loop of [FC_GetHeight]: [numLines] is a [Uint16]. *)
Fixpoint FC_GetHeight_loop (c : cstring) (numLines : Z) : Z :=
  match c with
  | [] => numLines
  | b :: rest =>
      FC_GetHeight_loop rest (if Byte.eqb b char_nl then Uint16 (numLines + 1) else numLines)
  end.

(** [FC_GetHeight]. *)
Definition FC_GetHeight (font : option FC_Font) (formatted_text : option cstring) : Z :=
  match formatted_text, font with
  | Some text, Some f =>
      let numLines := FC_GetHeight_loop (FC_EXTRACT_VARARGS fc_buffer_size text) 1 in
      Uint16 (Sint32 (height f * numLines + lineSpacing f * (numLines - 1)))
  | _, _ => 0
  end.

(** The loop of [FC_GetWrappedText]: [out] holds the bytes stored in
    [result] so far, which are [size_so_far] many. *)
Fixpoint wrapped_text_loop (iter : list cstring) (out : list byte)
    (size_so_far size_remaining : Z) : Z * list byte :=
  match iter with
  | [] => (size_so_far, out)
  | line :: next =>
      if size_remaining >? 0 then
        (* Copy as much of this line as we can *)
        let len := Sint32 (Z.of_nat (length line)) in
        let num_bytes := FC_MIN len size_remaining in
        let out := out ++ take (Z.to_nat num_bytes) line in
        let size_so_far := Sint32 (size_so_far + num_bytes) in
        (* If there's another line, add newline character *)
        match next with
        | [] => wrapped_text_loop next out size_so_far size_remaining
        | _ :: _ =>
            wrapped_text_loop next (out ++ [char_nl]) (Sint32 (size_so_far + 1))
              (Sint32 (size_remaining - 1))
        end
      else (size_so_far, out)
  end.

(** [FC_GetWrappedText]: the value returned, the bytes stored from
    [result[0]] on before the terminator, and the font.  Nothing is stored
    when 0 is returned for a null argument or a zero width.  The array
    [result] is the caller's. *)
Definition FC_GetWrappedText (font : option FC_Font) (max_result_size : Z) (width : Z)
    (formatted_text : option cstring) : Z * option (list byte) * option FC_Font :=
  let width := Uint16 width in
  match font with
  | None => (0, None, None)
  | Some f =>
      match formatted_text with
      | None => (0, None, font)
      | Some text =>
          if width =? 0 then (0, None, font)
          else
            let '(ls, f') :=
              FC_GetBufferFitToColumn fc_tab_width indeterminate fc_buffer_size f
                (FC_EXTRACT_VARARGS fc_buffer_size text) width false in
            let '(size_so_far, out) :=
              wrapped_text_loop ls [] 0 (Sint32 (max_result_size - 1)) in
            (size_so_far, Some out, Some f')
      end
  end.

End TextHeight.

(** Pieces joined with a delimiter between them. *)
Fixpoint join_with (delimiter : byte) (pieces : list cstring) : cstring :=
  match pieces with
  | [] => []
  | [piece] => piece
  | piece :: rest => piece ++ delimiter :: join_with delimiter rest
  end.

(** A text without its newline bytes. *)
Definition without_newlines (text : cstring) : cstring :=
  List.filter (fun b => negb (Byte.eqb b char_nl)) text.


(** Every glyph a lookup finds, and the cursor, are on a cache level that is
    in use. *)
Definition levels_in_use (font : FC_Font) : Prop :=
  (forall k g, FC_MapFind (glyphs font) k = Some g ->
               cache_level g < glyph_cache_count font)
  /\ 0 <= cache_level (last_glyph font) < glyph_cache_count font.

(** The glyphs that lookups find for different codepoints on one cache level
    do not overlap. *)
Definition glyphs_disjoint (font : FC_Font) : Prop :=
  forall k1 k2 g1 g2,
    k1 <> k2 ->
    FC_MapFind (glyphs font) k1 = Some g1 ->
    FC_MapFind (glyphs font) k2 = Some g2 ->
    cache_level g1 = cache_level g2 ->
    rect_disjoint (rect g1) (rect g2).

(** ** Vocabulary of the cache levels *)

(** The array of cache levels has [glyph_cache_size] slots, of which the
    first [glyph_cache_count] are in use. *)
Definition cache_wf (font : FC_Font) : Prop :=
  0 <= glyph_cache_count font <= glyph_cache_size font
  /\ length (glyph_cache font) = Z.to_nat (glyph_cache_size font).

(** ** Vocabulary of the loader *)

(** Every cache level in use holds a texture. *)
Definition levels_filled (font : FC_Font) : Prop :=
  forall level, 0 <= level < glyph_cache_count font ->
                is_Some (FC_GetGlyphCacheLevel font level).

(** The font while [FC_LoadFontFromTTF] works with [num_surfaces] surfaces:
    the surfaces before the last have been uploaded, and no glyph is on a
    level past the last surface. *)
Definition loaded (font : FC_Font) (num_surfaces : Z) : Prop :=
  font_map_wf font /\ glyphs_disjoint font
  /\ cache_wf font /\ levels_filled font
  /\ glyph_cache_count font = num_surfaces - 1
  /\ (forall k g, FC_MapFind (glyphs font) k = Some g -> cache_level g < num_surfaces)
  /\ 1 <= num_surfaces <= FC_LOAD_MAX_SURFACES.

(** What the loop of [FC_LoadFontFromTTF] keeps from turn to turn: the
    cursor is on the last surface and has passed the glyphs there. *)
Definition load_inv (font : FC_Font) (num_surfaces : Z) : Prop :=
  loaded font num_surfaces
  /\ cursor_ok font /\ packed_before font
  /\ cache_level (last_glyph font) = num_surfaces - 1.

(** ** More data for the examples *)

(** A font of height 10 as it is after loading with an empty loading
    string: a rasterizer that gives every text a surface [glyph_w] wide, one
    cache level of 120 by 120, no glyph yet and the cursor at the padding. *)
Definition fresh_font (glyph_w : Z) : FC_Font :=
  {| renderer := Some any_size_renderer;
     ttf_source := Some (fun _ => Some {| surf_w := glyph_w; surf_h := 10 |});
     height := 10; lineSpacing := 0; letterSpacing := 0;
     glyphs := Some (FC_MapCreate FC_DEFAULT_NUM_BUCKETS);
     last_glyph := {| rect := {| rect_x := FC_CACHE_PADDING; rect_y := FC_CACHE_PADDING;
                                 rect_w := 0; rect_h := 10 |};
                      cache_level := 0 |};
     glyph_cache_size := 3; glyph_cache_count := 1;
     glyph_cache := [Some {| tex_w := 120; tex_h := 120 |}; None; None] |}.

(** The 41 characters from '0' to 'X', of one byte each. *)
Definition chars_0_to_X : list cstring :=
  map (fun n => [byte.of_Z (48 + Z.of_nat n)]) (seq 0 41).

(** A rasterizer whose glyph surfaces are all 6 wide and 1 high. *)
Definition small_ttf : TTF_Font := fun _ => Some {| surf_w := 6; surf_h := 1 |}.

(** The font loaded at height 1 with [chars_0_to_X] as its loading string:
    a surface is 12 by 12 and takes four of the glyphs. *)
Definition overflowed_font : FC_Font :=
  match snd (FC_LoadFontFromTTF 4 no_glyph (concat chars_0_to_X) None None None
               (Some letters_font) (Some any_size_renderer) (Some small_ttf) 1 1 0) with
  | Some font => font
  | None => letters_font
  end.

(** ** Vocabulary of what a draw shows *)

(** A text as [FC_RenderLeft] reads it: newline bytes and characters. *)
Definition is_text_item (item : cstring) : Prop :=
  item = [char_nl] \/ is_uchar item = true.

Section Visible.

Variable fc_tab_width : Z.
Variable indeterminate : FC_GlyphData.

(** Whether an item of the text is drawn: it is a character other than the
    space whose own glyph lookup succeeds.  The lookups may cache glyphs, so
    the font is passed along. *)
Definition is_drawn (font : FC_Font) (item : cstring) : bool * FC_Font :=
  match item with
  | [] => (false, font)
  | b :: _ =>
      if Byte.eqb b char_nl then (false, font)
      else
        let codepoint := fst (codepoint_at item false) in
        match FC_GetGlyphData fc_tab_width indeterminate font codepoint with
        | (Some _, font1) => (negb (codepoint =? 32), font1)
        | (None, font1) =>
            (false, snd (FC_GetGlyphData fc_tab_width indeterminate font1 32))
        end
  end.

(** The number of items of a text that are drawn. *)
Fixpoint drawn_count (font : FC_Font) (items : list cstring) : nat * FC_Font :=
  match items with
  | [] => (0%nat, font)
  | item :: rest =>
      let '(shown, font1) := is_drawn font item in
      let '(n, font2) := drawn_count font1 rest in
      ((if shown then S n else n), font2)
  end.

End Visible.

(** * Properties *)

(** ** Arithmetic *)

Lemma lor_shiftl_add hi lo n :
  0 <= n -> 0 <= lo < 2 ^ n -> Z.lor (Z.shiftl hi n) lo = hi * 2 ^ n + lo.
Proof.
  intros Hn Hlo.
  rewrite Z.shiftl_mul_pow2 by lia.
  symmetry. apply Z.add_nocarry_lor.
  rewrite <- Z.shiftl_mul_pow2 by lia.
  apply Z.bits_inj'. intros i Hi.
  rewrite Z.land_spec, Z.bits_0.
  destruct (Z.ltb_spec i n).
  - rewrite Z.shiftl_spec_low by lia. reflexivity.
  - assert (Z.testbit lo i = false) as ->.
    { destruct (Z.eq_dec lo 0) as [->|]; [apply Z.bits_0|].
      apply Z.bits_above_log2; [lia|].
      apply Z.log2_lt_pow2; [lia|].
      eapply Z.lt_le_trans; [apply Hlo|]. apply Z.pow_le_mono_r; lia. }
    apply andb_false_r.
Qed.

Lemma land_255 z : Z.land z 255 = z mod 256.
Proof. change 255 with (Z.ones 8). rewrite Z.land_ones by lia. reflexivity. Qed.

Lemma unsigned_of_Z_small z : 0 <= z < 256 -> byte.unsigned (byte.of_Z z) = z.
Proof.
  intros Hz. rewrite byte.unsigned_of_Z. unfold byte.wrap.
  apply Z.mod_small. lia.
Qed.

Lemma Uint32_small z : 0 <= z < 2 ^ 32 -> Uint32 z = z.
Proof. intros Hz. unfold Uint32. apply Z.mod_small. lia. Qed.

Lemma Uint16_small z : 0 <= z < 2 ^ 16 -> Uint16 z = z.
Proof. intros Hz. unfold Uint16. apply Z.mod_small. lia. Qed.

Lemma Sint32_small z : - 2 ^ 31 <= z < 2 ^ 31 -> Sint32 z = z.
Proof. intros Hz. unfold Sint32. rewrite Z.mod_small; lia. Qed.

Lemma Sint16_small z : - 2 ^ 15 <= z < 2 ^ 15 -> Sint16 z = z.
Proof. intros Hz. unfold Sint16. rewrite Z.mod_small; lia. Qed.

(** ** Codec *)

(** The four bytes of a codepoint, as the encoder extracts them. *)
Lemma codepoint_bytes c :
  0 <= c < 2 ^ 32 ->
  let a := Z.land (Z.shiftr c 24) 255 in
  let b := Z.land (Z.shiftr c 16) 255 in
  let c1 := Z.land (Z.shiftr c 8) 255 in
  let d := Z.land c 255 in
  (0 <= a < 256 /\ 0 <= b < 256 /\ 0 <= c1 < 256 /\ 0 <= d < 256)
  /\ c = a * 2 ^ 24 + b * 2 ^ 16 + c1 * 2 ^ 8 + d.
Proof.
  intros Hc. cbv zeta. rewrite !land_255, !Z.shiftr_div_pow2 by lia.
  change (2 ^ 24) with 16777216. change (2 ^ 16) with 65536.
  change (2 ^ 8) with 256. change (2 ^ 32) with 4294967296 in Hc.
  Z.div_mod_to_equations. lia.
Qed.

Lemma lor_bytes2 b0 b1 :
  0 <= b1 < 256 -> Z.lor (Z.shiftl b0 8) b1 = b0 * 256 + b1.
Proof. intros. apply (lor_shiftl_add b0 b1 8); lia. Qed.

Lemma lor_bytes3 b0 b1 b2 :
  0 <= b1 < 256 -> 0 <= b2 < 256 ->
  Z.lor (Z.lor (Z.shiftl b0 16) (Z.shiftl b1 8)) b2 = b0 * 65536 + b1 * 256 + b2.
Proof.
  intros H1 H2.
  replace (Z.shiftl b0 16) with (Z.shiftl (Z.shiftl b0 8) 8)
    by (rewrite Z.shiftl_shiftl by lia; reflexivity).
  rewrite <- Z.shiftl_lor, lor_bytes2, lor_bytes2 by lia. lia.
Qed.

Lemma lor_bytes4 b0 b1 b2 b3 :
  0 <= b1 < 256 -> 0 <= b2 < 256 -> 0 <= b3 < 256 ->
  Z.lor (Z.lor (Z.lor (Z.shiftl b0 24) (Z.shiftl b1 16)) (Z.shiftl b2 8)) b3
  = b0 * 16777216 + b1 * 65536 + b2 * 256 + b3.
Proof.
  intros H1 H2 H3.
  replace (Z.shiftl b0 24) with (Z.shiftl (Z.shiftl b0 16) 8)
    by (rewrite Z.shiftl_shiftl by lia; reflexivity).
  replace (Z.shiftl b1 16) with (Z.shiftl (Z.shiftl b1 8) 8)
    by (rewrite Z.shiftl_shiftl by lia; reflexivity).
  rewrite <- !Z.shiftl_lor, lor_bytes2, lor_bytes3 by lia. lia.
Qed.

Lemma decode_encode c advance_pointer rest :
  utf8_packed c = true ->
  fst (codepoint_at (utf8_of_codepoint c ++ rest) advance_pointer) = c.
Proof.
  unfold utf8_packed. intros Hc.
  assert (0 <= c < 2 ^ 32) as Hr by lia.
  destruct (codepoint_bytes c Hr) as [(Ha & Hb & Hc1 & Hd) Heq].
  unfold utf8_of_codepoint.
  set (a := Z.land (Z.shiftr c 24) 255) in *.
  set (b := Z.land (Z.shiftr c 16) 255) in *.
  set (c1 := Z.land (Z.shiftr c 8) 255) in *.
  set (d := Z.land c 255) in *.
  change (2 ^ 24) with 16777216 in Heq. change (2 ^ 16) with 65536 in Heq.
  change (2 ^ 8) with 256 in Heq.
  destruct (Z.eqb_spec a 0) as [Ha0|Ha0];
    [destruct (Z.eqb_spec b 0) as [Hb0|Hb0];
       [destruct (Z.eqb_spec c1 0) as [Hc0|Hc0]|]|];
    unfold codepoint_at, peek; cbn [app lookup list_lookup];
    rewrite ?unsigned_of_Z_small by lia.
  - (* one byte *)
    destruct (Z.leb_spec d 127); [cbn [fst]; lia | lia].
  - (* two bytes *)
    destruct (Z.leb_spec c1 127); [lia|].
    destruct (Z.ltb_spec c1 224); [|lia].
    cbn [fst]. rewrite Z.lor_0_l.
    rewrite !Uint32_small by (rewrite ?Z.shiftl_mul_pow2; lia).
    rewrite lor_bytes2 by lia. lia.
  - (* three bytes *)
    destruct (Z.leb_spec b 127); [lia|].
    destruct (Z.ltb_spec b 224); [lia|].
    destruct (Z.ltb_spec b 240); [|lia].
    cbn [fst]. rewrite Z.lor_0_l.
    rewrite !Uint32_small by (rewrite ?Z.shiftl_mul_pow2; lia).
    rewrite lor_bytes3 by lia. lia.
  - (* four bytes *)
    destruct (Z.leb_spec a 127); [lia|].
    destruct (Z.ltb_spec a 224); [lia|].
    destruct (Z.ltb_spec a 240); [lia|].
    cbn [fst]. rewrite Z.lor_0_l.
    rewrite !Uint32_small by (rewrite ?Z.shiftl_mul_pow2; lia).
    rewrite lor_bytes4 by lia. lia.
Qed.

(** C2. Decoding what the encoder stored gives the codepoint back, for every
    codepoint that is the packed form of a 1-, 2-, 3- or 4-byte sequence
    (ASCII, the Latin-1 supplement as C2/C3 xx, and the generic ranges); the
    bytes E2 82 AC decode to 0x00E282AC, and 0x00E282AC is encoded as those
    three bytes and a terminator. *)
Theorem codec_round_trip :
  (forall c advance_pointer buf,
      utf8_packed c = true ->
      exists encoded,
        FC_GetUTF8FromCodepoint (Some buf) c = Some encoded
        /\ fst (FC_GetCodepointFromUTF8 (Some (Some encoded)) advance_pointer) = c)
  /\ fst (FC_GetCodepointFromUTF8 (Some (Some [Byte.xe2; Byte.x82; Byte.xac])) false)
     = 0x00E282AC
  /\ utf8_of_codepoint 0x00E282AC = [Byte.xe2; Byte.x82; Byte.xac; Byte.x00].
Proof.
  split; [|split; reflexivity].
  intros c advance_pointer buf Hc.
  eexists. split; [reflexivity|].
  unfold FC_GetCodepointFromUTF8.
  pose proof (decode_encode c advance_pointer
                (drop (length (utf8_of_codepoint c)) buf) Hc) as Hd.
  destruct (codepoint_at _ _) as [r str']. exact Hd.
Qed.

Lemma codec_round_trip_witness :
  utf8_packed 0xC3A9 = true
  /\ exists encoded,
      FC_GetUTF8FromCodepoint (Some []) 0xC3A9 = Some encoded
      /\ fst (FC_GetCodepointFromUTF8 (Some (Some encoded)) true) = 0xC3A9.
Proof.
  split; [reflexivity|].
  apply (proj1 codec_round_trip 0xC3A9 true []). reflexivity.
Defined.

(** C10. With a null [c] or a null [*c] the decoder returns 0 and leaves the
    pointer as it was, whatever [advance_pointer] is. *)
Theorem decode_null_pointer advance_pointer :
  FC_GetCodepointFromUTF8 None advance_pointer = (0, None)
  /\ FC_GetCodepointFromUTF8 (Some None) advance_pointer = (0, Some None).
Proof. split; reflexivity. Qed.

(** ** Glyph map *)

Lemma FC_MapCreate_wf n : 0 < n < 2 ^ 31 -> FC_Map_wf (FC_MapCreate n).
Proof. intros Hn. split; [exact Hn|]. cbn. apply length_replicate. Qed.

Lemma bucket_index_lt m codepoint :
  FC_Map_wf m -> (bucket_index m codepoint < length (buckets m))%nat.
Proof.
  intros [Hn Hl]. rewrite Hl. unfold bucket_index.
  rewrite Uint32_small by lia.
  pose proof (Z.mod_pos_bound codepoint (num_buckets m)). lia.
Qed.

Lemma chain_push_app chain node : chain_push chain node = chain ++ [node].
Proof. induction chain as [|n next IH]; cbn; [reflexivity | by rewrite IH]. Qed.

Lemma chain_find_app l1 l2 k :
  chain_find (l1 ++ l2) k =
  match chain_find l1 k with Some v => Some v | None => chain_find l2 k end.
Proof.
  induction l1 as [|n l1 IH]; cbn; [reflexivity|].
  destruct (key n =? k); [reflexivity | exact IH].
Qed.

(** What [FC_MapInsert] does to a well-formed map: the node goes to the tail
    of its chain. *)
Lemma FC_MapInsert_spec m codepoint glyph :
  FC_Map_wf m ->
  exists chain,
    buckets m !! bucket_index m codepoint = Some chain
    /\ FC_MapInsert (Some m) codepoint glyph
       = (Some glyph,
          Some {| num_buckets := num_buckets m;
                  buckets := <[bucket_index m codepoint := chain ++ [mkNode codepoint glyph]]>
                               (buckets m) |}).
Proof.
  intros Hwf.
  destruct (lookup_lt_is_Some_2 _ _ (bucket_index_lt m codepoint Hwf)) as [chain Hc].
  exists chain. split; [exact Hc|].
  unfold FC_MapInsert. rewrite Hc.
  destruct chain as [|n next]; [reflexivity|].
  rewrite chain_push_app. reflexivity.
Qed.

Lemma FC_MapInsert_wf m codepoint glyph :
  FC_Map_wf m ->
  exists m', snd (FC_MapInsert (Some m) codepoint glyph) = Some m'
             /\ FC_Map_wf m' /\ num_buckets m' = num_buckets m.
Proof.
  intros Hwf. destruct (FC_MapInsert_spec m codepoint glyph Hwf) as (chain & _ & ->).
  eexists. split; [reflexivity|]. split; [|reflexivity].
  destruct Hwf as [Hn Hl]. split; [exact Hn|]. cbn. by rewrite length_insert.
Qed.

(** A key that is found stays found, with the same value, after any insert. *)
Lemma FC_MapFind_stable m k v codepoint glyph :
  FC_Map_wf m ->
  FC_MapFind (Some m) k = Some v ->
  FC_MapFind (snd (FC_MapInsert (Some m) codepoint glyph)) k = Some v.
Proof.
  intros Hwf Hfind.
  destruct (FC_MapInsert_spec m codepoint glyph Hwf) as (chain & Hc & ->).
  cbn [snd]. unfold FC_MapFind in *. unfold bucket_index in *. cbn [num_buckets buckets].
  fold (bucket_index m k) in *. fold (bucket_index m codepoint) in *.
  destruct (decide (bucket_index m codepoint = bucket_index m k)) as [Heq|Hne].
  - rewrite Heq in *. rewrite list_lookup_insert_eq by (by apply bucket_index_lt).
    rewrite Hc in Hfind. rewrite chain_find_app, Hfind. reflexivity.
  - rewrite list_lookup_insert_ne by exact Hne. exact Hfind.
Qed.

(** A key that is absent is found with the inserted value. *)
Lemma FC_MapFind_insert_new m codepoint glyph :
  FC_Map_wf m ->
  FC_MapFind (Some m) codepoint = None ->
  FC_MapFind (snd (FC_MapInsert (Some m) codepoint glyph)) codepoint = Some glyph.
Proof.
  intros Hwf Hfind.
  destruct (FC_MapInsert_spec m codepoint glyph Hwf) as (chain & Hc & ->).
  cbn [snd]. unfold FC_MapFind in *. unfold bucket_index in *. cbn [num_buckets buckets].
  fold (bucket_index m codepoint) in *.
  rewrite list_lookup_insert_eq by (by apply bucket_index_lt).
  rewrite Hc in Hfind. rewrite chain_find_app, Hfind. cbn.
  by rewrite Z.eqb_refl.
Qed.

Lemma insert_all_cons map cp g entries :
  insert_all map ((cp, g) :: entries) = insert_all (snd (FC_MapInsert map cp g)) entries.
Proof. reflexivity. Qed.

Lemma FC_MapFind_insert_all m k v entries :
  FC_Map_wf m ->
  FC_MapFind (Some m) k = Some v ->
  FC_MapFind (insert_all (Some m) entries) k = Some v.
Proof.
  revert m. induction entries as [|[cp g] entries IH]; intros m Hwf Hfind; [exact Hfind|].
  rewrite insert_all_cons.
  destruct (FC_MapInsert_wf m cp g Hwf) as (m' & Hm' & Hwf' & _).
  pose proof (FC_MapFind_stable m k v cp g Hwf Hfind) as Hs.
  rewrite Hm' in *. by apply IH.
Qed.

(** C8. After a codepoint absent from the map is inserted twice, the second
    node sits right after the first at the tail of the bucket chain, and
    [FC_MapFind] and [FC_GetGlyphData] return the first value, also after any
    further inserts; the same holds when the two inserts are made with
    [FC_SetGlyphData]. *)
Theorem duplicate_insert_first_wins m codepoint first second :
  FC_Map_wf m ->
  FC_MapFind (Some m) codepoint = None ->
  let m2 := snd (FC_MapInsert (snd (FC_MapInsert (Some m) codepoint first)) codepoint second) in
  (exists chain m2',
      m2 = Some m2'
      /\ buckets m !! bucket_index m codepoint = Some chain
      /\ buckets m2' !! bucket_index m codepoint
         = Some (chain ++ [mkNode codepoint first; mkNode codepoint second]))
  /\ FC_MapFind m2 codepoint = Some first
  /\ (forall later, FC_MapFind (insert_all m2 later) codepoint = Some first)
  /\ (forall tab_width junk font later,
        glyphs font = insert_all m2 later ->
        FC_GetGlyphData tab_width junk font codepoint = (Some first, font))
  /\ (forall tab_width junk font,
        glyphs font = Some m ->
        let font2 := snd (FC_SetGlyphData (snd (FC_SetGlyphData font codepoint first))
                            codepoint second) in
        FC_GetGlyphData tab_width junk font2 codepoint = (Some first, font2)).
Proof.
  intros Hwf Habsent m2.
  destruct (FC_MapInsert_spec m codepoint first Hwf) as (chain & Hc & E1).
  destruct (FC_MapInsert_wf m codepoint first Hwf) as (m1 & Hm1 & Hwf1 & Hn1).
  pose proof (FC_MapFind_insert_new m codepoint first Hwf Habsent) as Hf1.
  rewrite Hm1 in Hf1.
  destruct (FC_MapInsert_spec m1 codepoint second Hwf1) as (chain1 & Hc1 & E2).
  destruct (FC_MapInsert_wf m1 codepoint second Hwf1) as (m2' & Hm2 & Hwf2 & Hn2).
  pose proof (FC_MapFind_stable m1 codepoint first codepoint second Hwf1 Hf1) as Hf2.
  assert (Hm2eq : m2 = Some m2') by (subst m2; rewrite Hm1; exact Hm2).
  assert (Hidx : bucket_index m1 codepoint = bucket_index m codepoint)
    by (unfold bucket_index; rewrite Hn1; reflexivity).
  assert (Hlater : forall later, FC_MapFind (insert_all m2 later) codepoint = Some first).
  { intros later. rewrite Hm2eq. apply FC_MapFind_insert_all; [exact Hwf2|].
    rewrite <- Hm2. exact Hf2. }
  assert (Hget : forall tab_width junk font later,
             glyphs font = insert_all m2 later ->
             FC_GetGlyphData tab_width junk font codepoint = (Some first, font)).
  { intros tab_width junk font later Hg.
    unfold FC_GetGlyphData, FC_GetGlyphData_body. rewrite Hg, Hlater. reflexivity. }
  split; [|split; [|split; [|split]]].
  - exists chain, m2'. split; [exact Hm2eq|]. split; [exact Hc|].
    rewrite E1 in Hm1. cbn [snd] in Hm1. injection Hm1 as <-.
    rewrite E2 in Hm2. cbn [snd] in Hm2. injection Hm2 as <-.
    cbn [buckets] in *. rewrite Hidx in *.
    rewrite list_lookup_insert_eq in Hc1 by (by apply bucket_index_lt).
    injection Hc1 as <-.
    rewrite list_lookup_insert_eq
      by (rewrite length_insert; by apply bucket_index_lt).
    by rewrite <- app_assoc.
  - apply (Hlater []).
  - exact Hlater.
  - exact Hget.
  - intros tab_width junk font Hg font2. apply (Hget tab_width junk font2 []).
    subst font2 m2. unfold FC_SetGlyphData. rewrite Hg.
    destruct (FC_MapInsert (Some m) codepoint first) as [e1 m1'] eqn:E1'.
    cbn [snd glyphs set_glyphs].
    destruct (FC_MapInsert m1' codepoint second) as [e2 m2''] eqn:E2'.
    reflexivity.
Qed.

Lemma duplicate_insert_first_wins_witness :
  FC_MapFind
    (snd (FC_MapInsert
            (snd (FC_MapInsert (Some (FC_MapCreate FC_DEFAULT_NUM_BUCKETS)) 65
                    (FC_MakeGlyphData 0 3 1 10 10)))
            65 (FC_MakeGlyphData 0 15 1 7 10)))
    65
  = Some (FC_MakeGlyphData 0 3 1 10 10).
Proof.
  apply (duplicate_insert_first_wins (FC_MapCreate FC_DEFAULT_NUM_BUCKETS) 65
           (FC_MakeGlyphData 0 3 1 10 10) (FC_MakeGlyphData 0 15 1 7 10)).
  - apply FC_MapCreate_wf. unfold FC_DEFAULT_NUM_BUCKETS. lia.
  - reflexivity.
Defined.

(** ** Packer *)

Lemma pack_not_tab tab_width junk get font codepoint width maxWidth maxHeight :
  codepoint <> 9 ->
  FC_PackGlyphData_body tab_width junk get font codepoint width maxWidth maxHeight
  = pack_at_cursor font codepoint (Uint16 width) (Uint16 maxWidth) (Uint16 maxHeight).
Proof.
  intros Hne. unfold FC_PackGlyphData_body.
  destruct (Z.eqb_spec codepoint 9); [contradiction | reflexivity].
Qed.

(** The call for the space glyph does not depend on the function handed to
    the packer for the TAB branch: the recursion is two calls deep. *)
Lemma space_lookup_closed tab_width junk get1 get2 font :
  FC_GetGlyphData_body (FC_PackGlyphData_body tab_width junk get1) font 32
  = FC_GetGlyphData_body (FC_PackGlyphData_body tab_width junk get2) font 32.
Proof.
  unfold FC_GetGlyphData_body.
  repeat (rewrite !pack_not_tab by discriminate; try reflexivity;
          match goal with |- context [match ?x with _ => _ end] => destruct x end);
  rewrite ?pack_not_tab by discriminate; reflexivity.
Qed.

(** A glyph that is in the map is returned and the font is not touched. *)
Lemma FC_GetGlyphData_cached tab_width junk font codepoint e :
  FC_MapFind (glyphs font) codepoint = Some e ->
  FC_GetGlyphData tab_width junk font codepoint = (Some e, font).
Proof.
  intros Hf. unfold FC_GetGlyphData, FC_GetGlyphData_body. by rewrite Hf.
Qed.

Lemma FC_GetGlyphData_space_cached tab_width junk font e :
  FC_MapFind (glyphs font) 32 = Some e ->
  FC_GetGlyphData_space tab_width junk font 32 = (Some e, font).
Proof.
  intros Hf. unfold FC_GetGlyphData_space, FC_GetGlyphData_body. by rewrite Hf.
Qed.

(** Outside of a TAB that still has to fetch the space glyph, the packer is
    the cursor step for [packed_width]. *)
Lemma pack_step tab_width junk font codepoint width maxWidth maxHeight :
  codepoint <> 9 \/ is_Some (FC_MapFind (glyphs font) 32) ->
  FC_PackGlyphData tab_width junk font codepoint width maxWidth maxHeight
  = pack_at_cursor font codepoint (packed_width tab_width font codepoint width)
      (Uint16 maxWidth) (Uint16 maxHeight).
Proof.
  intros Hc. unfold FC_PackGlyphData, packed_width, FC_PackGlyphData_body.
  destruct (Z.eqb_spec codepoint 9) as [->|Hne]; [|reflexivity].
  destruct Hc as [Hc|[e He]]; [contradiction|].
  rewrite (FC_GetGlyphData_space_cached _ _ _ _ He), He. reflexivity.
Qed.

(** C1 as stated fails: the three glyphs of width 10 are not recorded at
    x = 1, 12, 23. *)
Lemma pack_three_not_1_12_23 :
  map (option_map (fun g => rect_x (rect g))) pack_three <> [Some 1; Some 12; Some 23].
Proof. vm_compute. discriminate. Qed.

(** The packer in the current row, as the source computes it: the cursor
    moves to [last.x + last.w + 2] as an [int], and what is recorded is the
    cursor converted by [FC_MakeGlyphData] to its 16-bit fields. *)
Lemma pack_current_row tab_width junk font m codepoint width maxWidth maxHeight :
  glyphs font = Some m ->
  FC_Map_wf m ->
  FC_MapFind (Some m) codepoint = None ->
  codepoint <> 9 ->
  row_is_full (last_glyph font) (Uint16 width) (Uint16 maxWidth) = false ->
  let last := rect (last_glyph font) in
  let x' := Sint32 (rect_x last + (rect_w last + 1 + FC_CACHE_PADDING)) in
  let placed := FC_MakeGlyphData (cache_level (last_glyph font)) x' (rect_y last)
                  (Uint16 width) (rect_h last) in
  exists font',
    FC_PackGlyphData tab_width junk font codepoint width maxWidth maxHeight
    = (Some placed, font')
    /\ FC_MapFind (glyphs font') codepoint = Some placed
    /\ last_glyph font'
       = {| rect := {| rect_x := x'; rect_y := rect_y last;
                       rect_w := Uint16 width; rect_h := rect_h last |};
            cache_level := cache_level (last_glyph font) |}.
Proof.
  intros Hg Hwf Habs Hne Hrow last x' placed.
  rewrite pack_step by (left; exact Hne).
  unfold packed_width. destruct (Z.eqb_spec codepoint 9); [contradiction|].
  unfold pack_at_cursor. rewrite Hrow.
  fold last. fold x'. cbn [rect cache_level rect_x rect_y rect_w rect_h]. fold placed.
  rewrite Hg.
  destruct (FC_MapInsert_spec m codepoint placed Hwf) as (chain & Hc & E).
  pose proof (FC_MapFind_insert_new m codepoint placed Hwf Habs) as Hnew.
  rewrite E in *. cbn [snd] in Hnew.
  eexists. split; [reflexivity|]. split; [exact Hnew | reflexivity].
Qed.

(** Outside the range of the 16-bit fields the record and the cursor part:
    with the cursor at x = 32760 in a level 65535 wide the row test passes,
    the cursor moves to x = 32772 and the glyph is recorded at x = -32764. *)
Lemma pack_record_wraps_to_16_bits :
  let '(placed, font') :=
    FC_PackGlyphData 4 no_glyph (font_with_cursor 6 32760 1 10 None) 103 6 65535 65535 in
  option_map (fun g => rect_x (rect g)) placed = Some (- 32764)
  /\ rect_x (rect (last_glyph font')) = 32772.
Proof. vm_compute. split; reflexivity. Qed.

(** C1, amended. The cursor is the rectangle of the last packed glyph.  When
    a glyph other than TAB that is not yet in the map passes the row test
    [last.x + last.w + w < maxWidth - 1], and the cursor is in the range of
    the 16-bit fields of a record (x, width and y not negative,
    [last.x + last.w + 2] and y below 32768, height below 65536), the glyph
    is recorded at [(last.x + last.w + 2, last.y)] with width [w] on the
    cursor's level, a lookup finds that rectangle, and it is the new cursor.
    Three glyphs of width 10 packed into a fresh level 100 wide are recorded
    at x = 3, 15, 27. *)
Theorem pack_fits_current_row :
  (forall tab_width junk font m codepoint width maxWidth maxHeight,
      glyphs font = Some m ->
      FC_Map_wf m ->
      FC_MapFind (Some m) codepoint = None ->
      codepoint <> 9 ->
      row_is_full (last_glyph font) (Uint16 width) (Uint16 maxWidth) = false ->
      let last := rect (last_glyph font) in
      0 <= rect_x last -> 0 <= rect_w last ->
      rect_x last + rect_w last + 2 < 2 ^ 15 ->
      0 <= rect_y last < 2 ^ 15 ->
      0 <= rect_h last < 2 ^ 16 ->
      let placed :=
        {| rect := {| rect_x := rect_x last + rect_w last + 2; rect_y := rect_y last;
                      rect_w := Uint16 width; rect_h := rect_h last |};
           cache_level := cache_level (last_glyph font) |} in
      exists font',
        FC_PackGlyphData tab_width junk font codepoint width maxWidth maxHeight
        = (Some placed, font')
        /\ FC_MapFind (glyphs font') codepoint = Some placed
        /\ last_glyph font' = placed)
  /\ map (option_map (fun g => rect_x (rect g))) pack_three = [Some 3; Some 15; Some 27].
Proof.
  split; [|reflexivity].
  intros tab_width junk font m codepoint width maxWidth maxHeight Hg Hwf Habs Hne Hrow
         last Hx Hw Hxw Hy Hh placed.
  destruct (pack_current_row tab_width junk font m codepoint width maxWidth maxHeight
              Hg Hwf Habs Hne Hrow) as (font' & Hpack & Hfind & Hlast).
  fold last in Hpack, Hfind, Hlast.
  assert (Hx' : Sint32 (rect_x last + (rect_w last + 1 + FC_CACHE_PADDING))
                = rect_x last + rect_w last + 2).
  { unfold FC_CACHE_PADDING. rewrite Sint32_small by lia. lia. }
  assert (Hplaced : FC_MakeGlyphData (cache_level (last_glyph font))
                      (Sint32 (rect_x last + (rect_w last + 1 + FC_CACHE_PADDING)))
                      (rect_y last) (Uint16 width) (rect_h last) = placed).
  { unfold FC_MakeGlyphData, placed. rewrite Hx'.
    rewrite (Sint16_small (rect_x last + rect_w last + 2)) by lia.
    rewrite (Sint16_small (rect_y last)) by lia.
    rewrite (Uint16_small (rect_h last)) by lia.
    rewrite (Uint16_small (Uint16 width)) by apply Z.mod_pos_bound, eq_refl.
    reflexivity. }
  rewrite Hplaced in Hpack, Hfind. rewrite Hx' in Hlast.
  exists font'. split; [exact Hpack|]. split; [exact Hfind | exact Hlast].
Qed.

Lemma pack_fits_current_row_witness :
  exists font',
    FC_PackGlyphData 4 no_glyph (font_at_load 10) 97 10 100 100
    = (Some (FC_MakeGlyphData 0 3 1 10 10), font')
    /\ FC_MapFind (glyphs font') 97 = Some (FC_MakeGlyphData 0 3 1 10 10)
    /\ last_glyph font' = FC_MakeGlyphData 0 3 1 10 10.
Proof.
  apply (proj1 pack_fits_current_row 4 no_glyph (font_at_load 10)
           (FC_MapCreate FC_DEFAULT_NUM_BUCKETS) 97 10 100 100).
  - reflexivity.
  - apply FC_MapCreate_wf. unfold FC_DEFAULT_NUM_BUCKETS. lia.
  - reflexivity.
  - discriminate.
  - reflexivity.
  - vm_compute. discriminate.
  - vm_compute. discriminate.
  - vm_compute. reflexivity.
  - vm_compute. split; [discriminate | reflexivity].
  - vm_compute. split; [discriminate | reflexivity].
Defined.

(** C5 as stated fails for TAB: the packer first fetches the space glyph,
    which is rasterized and inserted into the map, and then reports that the
    level is exhausted. *)
Lemma pack_tab_inserts_space :
  let font := font_with_cursor 6 100 100 8 (Some any_size_renderer) in
  let '(result, font') := FC_PackGlyphData 4 no_glyph font 9 6 120 120 in
  result = None
  /\ cache_level (last_glyph font') = glyph_cache_count font
  /\ FC_MapFind (glyphs font) 32 = None
  /\ FC_MapFind (glyphs font') 32 = Some (FC_MakeGlyphData 0 110 100 6 10).
Proof. vm_compute. repeat split. Qed.

(** C5, amended. For a codepoint other than TAB, or for TAB when the space
    glyph is already in the map: when the row test and the level test both
    fail, the packer returns null, sets the cursor's level to the current
    level count and its position to the padding with width 0, and leaves the
    glyph map and the cache levels as they were. *)
Theorem pack_level_exhausted tab_width junk font codepoint width maxWidth maxHeight :
  codepoint <> 9 \/ is_Some (FC_MapFind (glyphs font) 32) ->
  row_is_full (last_glyph font) (packed_width tab_width font codepoint width) (Uint16 maxWidth)
  = true ->
  level_is_full (last_glyph font) (Uint16 (height font + FC_CACHE_PADDING)) (Uint16 maxHeight)
  = true ->
  exists font',
    FC_PackGlyphData tab_width junk font codepoint width maxWidth maxHeight = (None, font')
    /\ cache_level (last_glyph font') = glyph_cache_count font
    /\ rect_x (rect (last_glyph font')) = FC_CACHE_PADDING
    /\ rect_y (rect (last_glyph font')) = FC_CACHE_PADDING
    /\ rect_w (rect (last_glyph font')) = 0
    /\ glyphs font' = glyphs font
    /\ glyph_cache font' = glyph_cache font
    /\ glyph_cache_count font' = glyph_cache_count font
    /\ glyph_cache_size font' = glyph_cache_size font.
Proof.
  intros Hc Hrow Hlevel.
  rewrite pack_step by exact Hc.
  unfold pack_at_cursor. rewrite Hrow, Hlevel.
  eexists. split; [reflexivity|]. cbn. repeat split.
Qed.

Lemma pack_level_exhausted_witness :
  let font := font_with_cursor 6 110 100 8 (Some any_size_renderer) in
  exists font',
    FC_PackGlyphData 4 no_glyph font 103 6 120 120 = (None, font')
    /\ cache_level (last_glyph font') = 1
    /\ rect_x (rect (last_glyph font')) = 1
    /\ rect_y (rect (last_glyph font')) = 1
    /\ rect_w (rect (last_glyph font')) = 0
    /\ glyphs font' = glyphs font
    /\ glyph_cache font' = glyph_cache font
    /\ glyph_cache_count font' = 1
    /\ glyph_cache_size font' = 3.
Proof.
  apply (pack_level_exhausted 4 no_glyph
           (font_with_cursor 6 110 100 8 (Some any_size_renderer)) 103 6 120 120).
  - left. discriminate.
  - reflexivity.
  - reflexivity.
Defined.

(** ** Glyph provider *)

Lemma FC_GetGlyphCacheLevel_Some font level img :
  FC_GetGlyphCacheLevel font level = Some img -> 0 <= level <= glyph_cache_count font.
Proof.
  unfold FC_GetGlyphCacheLevel.
  destruct (Z.ltb_spec level 0); [discriminate|].
  destruct (Z.gtb_spec level (glyph_cache_count font)); [discriminate|]. lia.
Qed.

(** [FC_SetGlyphCacheLevel] at the index [glyph_cache_count] succeeds and
    counts one level more. *)
Lemma FC_SetGlyphCacheLevel_next font tex :
  0 <= glyph_cache_count font ->
  exists font',
    FC_SetGlyphCacheLevel font (glyph_cache_count font) tex = (true, font')
    /\ glyph_cache_count font' = glyph_cache_count font + 1
    /\ glyphs font' = glyphs font /\ last_glyph font' = last_glyph font.
Proof.
  intros Hc. unfold FC_SetGlyphCacheLevel.
  destruct (Z.ltb_spec (glyph_cache_count font) 0); [lia|].
  destruct (Z.gtb_spec (glyph_cache_count font) (glyph_cache_count font + 1)); [lia|].
  rewrite Z.eqb_refl.
  eexists. split; [reflexivity|].
  destruct (glyph_cache_count font + 1 >? glyph_cache_size font); cbn; repeat split.
Qed.

(** [FC_GrowGlyphCache] adds one level when the texture is created and
    nothing when it is not. *)
Lemma FC_GrowGlyphCache_count font :
  0 <= glyph_cache_count font ->
  match SDL_CreateTexture (renderer font) (height font * 12) (height font * 12) with
  | Some _ =>
      fst (FC_GrowGlyphCache font) = true
      /\ glyph_cache_count (snd (FC_GrowGlyphCache font)) = glyph_cache_count font + 1
  | None => FC_GrowGlyphCache font = (false, font)
  end.
Proof.
  intros Hc. unfold FC_GrowGlyphCache.
  destruct (SDL_CreateTexture _ _ _) as [tex|]; [|reflexivity].
  destruct (FC_SetGlyphCacheLevel_next font (Some tex) Hc) as (font' & -> & Hn & _).
  cbn. split; [reflexivity | exact Hn].
Qed.

Lemma pack_at_cursor_count font codepoint width maxWidth maxHeight :
  glyph_cache_count (snd (pack_at_cursor font codepoint width maxWidth maxHeight))
  = glyph_cache_count font.
Proof.
  unfold pack_at_cursor.
  destruct (row_is_full _ _ _); [destruct (level_is_full _ _ _)|];
    try reflexivity;
    destruct (FC_MapInsert _ _ _); reflexivity.
Qed.

(** The level count never goes down in the glyph provider. *)
Lemma FC_GetGlyphData_body_count pack font codepoint :
  (forall f cp w mw mh, 0 <= glyph_cache_count f ->
                        glyph_cache_count f <= glyph_cache_count (snd (pack f cp w mw mh))) ->
  0 <= glyph_cache_count font ->
  glyph_cache_count font <= glyph_cache_count (snd (FC_GetGlyphData_body pack font codepoint)).
Proof.
  intros Hpack Hc. unfold FC_GetGlyphData_body.
  destruct (FC_MapFind _ _); [cbn; lia|].
  destruct (ttf_source font); [|cbn; lia].
  destruct (FC_GetGlyphCacheLevel _ _); [|cbn; lia].
  destruct (TTF_RenderUTF8_Blended _ _) as [surf|]; [|cbn; lia].
  pose proof (Hpack font codepoint (surf_w surf) (tex_w s) (tex_h s) Hc) as H1.
  destruct (pack font codepoint _ _ _) as [[e|] font1]; cbn [snd] in *; [lia|].
  assert (0 <= glyph_cache_count font1) as Hc1 by lia.
  pose proof (FC_GrowGlyphCache_count font1 Hc1) as Hg.
  destruct (FC_GrowGlyphCache font1) as [ok font2].
  assert (glyph_cache_count font1 <= glyph_cache_count font2) as H2.
  { destruct (SDL_CreateTexture _ _ _); cbn [fst snd] in Hg.
    - lia.
    - injection Hg as _ <-. lia. }
  pose proof (Hpack font2 codepoint (surf_w surf) (tex_w s) (tex_h s) ltac:(lia)). lia.
Qed.

Lemma FC_PackGlyphData_count tab_width junk font codepoint width maxWidth maxHeight :
  0 <= glyph_cache_count font ->
  glyph_cache_count font
  <= glyph_cache_count
       (snd (FC_PackGlyphData tab_width junk font codepoint width maxWidth maxHeight)).
Proof.
  intros Hc. unfold FC_PackGlyphData, FC_PackGlyphData_body.
  destruct (Z.eqb_spec codepoint 9); [|rewrite pack_at_cursor_count; lia].
  pose proof (FC_GetGlyphData_body_count
                (FC_PackGlyphData_body tab_width junk (fun font0 _ => (None, font0)))
                font 32) as Hs.
  fold (FC_GetGlyphData_space tab_width junk) in Hs.
  destruct (FC_GetGlyphData_space tab_width junk font 32) as [found font1].
  rewrite pack_at_cursor_count. cbn [snd] in Hs. apply Hs; [|exact Hc].
  intros f cp w mw mh Hf. unfold FC_PackGlyphData_body.
  destruct (cp =? 9); cbn [snd]; rewrite pack_at_cursor_count; lia.
Qed.

(** C4 as stated fails when the texture of the new level cannot be created:
    the first packing attempt fails on a full level, no level is added, and
    the second attempt places the glyph at the top of level index 1 while the
    font still has one level. *)
Lemma provider_growth_can_fail :
  let font := font_with_cursor 6 110 100 8 (Some failing_renderer) in
  fst (FC_PackGlyphData 4 no_glyph font 103 6 120 120) = None
  /\ fst (FC_GetGlyphData 4 no_glyph font 103) = Some (FC_MakeGlyphData 1 3 1 6 10)
  /\ glyph_cache_count (snd (FC_GetGlyphData 4 no_glyph font 103)) = glyph_cache_count font.
Proof. vm_compute. repeat split. Qed.

(** C4, amended. A codepoint found in the map is returned with its stored
    data.  Otherwise, when the glyph is rasterized and the first packing
    attempt fails, [FC_GrowGlyphCache] is called once - it adds exactly one
    level when the texture is created and changes nothing when it is not -
    and the result is that of one more packing attempt: 0 is returned when
    that attempt fails.  0 is returned as well when rasterization fails. *)
Theorem provider_grows_and_retries_once tab_width junk :
  (forall font codepoint e,
      FC_MapFind (glyphs font) codepoint = Some e ->
      FC_GetGlyphData tab_width junk font codepoint = (Some e, font))
  /\ (forall font codepoint ttf cache_image surf font1,
        FC_MapFind (glyphs font) codepoint = None ->
        ttf_source font = Some ttf ->
        FC_GetGlyphCacheLevel font (cache_level (last_glyph font)) = Some cache_image ->
        TTF_RenderUTF8_Blended ttf (c_str (utf8_of_codepoint codepoint)) = Some surf ->
        FC_PackGlyphData tab_width junk font codepoint
          (surf_w surf) (tex_w cache_image) (tex_h cache_image) = (None, font1) ->
        let font2 := snd (FC_GrowGlyphCache font1) in
        let retry := FC_PackGlyphData tab_width junk font2 codepoint
                       (surf_w surf) (tex_w cache_image) (tex_h cache_image) in
        FC_GetGlyphData tab_width junk font codepoint = retry
        /\ (fst retry = None -> fst (FC_GetGlyphData tab_width junk font codepoint) = None)
        /\ match SDL_CreateTexture (renderer font1) (height font1 * 12) (height font1 * 12) with
           | Some _ => glyph_cache_count font2 = glyph_cache_count font1 + 1
           | None => font2 = font1
           end)
  /\ (forall font codepoint ttf,
        FC_MapFind (glyphs font) codepoint = None ->
        ttf_source font = Some ttf ->
        TTF_RenderUTF8_Blended ttf (c_str (utf8_of_codepoint codepoint)) = None ->
        FC_GetGlyphData tab_width junk font codepoint = (None, font)).
Proof.
  split; [|split].
  - intros font codepoint e Hf. by apply FC_GetGlyphData_cached.
  - intros font codepoint ttf cache_image surf font1 Hf Httf Himg Hsurf Hpack font2 retry.
    assert (FC_GetGlyphData tab_width junk font codepoint = retry) as Hget.
    { unfold FC_GetGlyphData, FC_GetGlyphData_body.
      rewrite Hf, Httf, Himg, Hsurf.
      fold (FC_PackGlyphData tab_width junk). rewrite Hpack.
      subst retry font2. destruct (FC_GrowGlyphCache font1). reflexivity. }
    split; [exact Hget|]. split; [intros Hr; rewrite Hget; exact Hr|].
    pose proof (FC_GetGlyphCacheLevel_Some _ _ _ Himg) as Hlevel.
    pose proof (FC_PackGlyphData_count tab_width junk font codepoint
                  (surf_w surf) (tex_w cache_image) (tex_h cache_image) ltac:(lia)) as Hc.
    rewrite Hpack in Hc. cbn [snd] in Hc.
    pose proof (FC_GrowGlyphCache_count font1 ltac:(lia)) as Hg.
    subst font2. destruct (SDL_CreateTexture _ _ _).
    + apply Hg.
    + by rewrite Hg.
  - intros font codepoint ttf Hf Httf Hsurf.
    unfold FC_GetGlyphData, FC_GetGlyphData_body. rewrite Hf, Httf.
    destruct (FC_GetGlyphCacheLevel _ _); [|reflexivity]. by rewrite Hsurf.
Qed.

Lemma provider_grows_and_retries_once_witness :
  let font := font_with_cursor 6 110 100 8 (Some any_size_renderer) in
  let font1 := snd (FC_PackGlyphData 4 no_glyph font 103 6 120 120) in
  let font2 := snd (FC_GrowGlyphCache font1) in
  FC_GetGlyphData 4 no_glyph font 103 = FC_PackGlyphData 4 no_glyph font2 103 6 120 120
  /\ glyph_cache_count font2 = glyph_cache_count font1 + 1.
Proof.
  intros font font1 font2.
  destruct (proj1 (proj2 (provider_grows_and_retries_once 4 no_glyph))
              font 103 (fun _ => Some {| surf_w := 6; surf_h := 10 |})
              {| tex_w := 120; tex_h := 120 |} {| surf_w := 6; surf_h := 10 |} font1
              eq_refl eq_refl eq_refl eq_refl eq_refl) as (Hget & _ & Hgrow).
  split; [exact Hget | exact Hgrow].
Defined.

(** ** Loop turns *)

(** After the decoder and the [c++] of a loop the pointer has moved forward. *)
Lemma codepoint_at_advances b rest :
  (length (drop 1 (snd (codepoint_at (b :: rest) true))) <= length rest)%nat.
Proof.
  unfold codepoint_at.
  repeat match goal with |- context [if ?c then _ else _] => destruct c end;
    cbn [snd]; rewrite ?length_drop; cbn [length]; lia.
Qed.

Section LoopTurns.

Variable fc_tab_width : Z.
Variable indeterminate : FC_GlyphData.

(** [length c] turns are enough for the loop of [FC_GetWidth]: with more
    turns the result is the same. *)
Lemma GetWidth_loop_enough n m font (c : cstring) width bigWidth :
  (length c <= n)%nat -> (length c <= m)%nat ->
  FC_GetWidth_loop fc_tab_width indeterminate n font c width bigWidth
  = FC_GetWidth_loop fc_tab_width indeterminate m font c width bigWidth.
Proof.
  revert m font c width bigWidth.
  induction n as [|n IH]; intros m font c width bigWidth Hn Hm.
  { destruct c; [|cbn in Hn; lia]. destruct m; reflexivity. }
  destruct c as [|b rest]; [destruct m; reflexivity|].
  destruct m as [|m]; [cbn in Hm; lia|].
  cbn [length] in Hn, Hm. cbn [FC_GetWidth_loop].
  destruct (Byte.eqb b char_nl); [apply IH; rewrite length_drop; cbn [length]; lia|].
  pose proof (codepoint_at_advances b rest) as Hadv.
  destruct (codepoint_at (b :: rest) true) as [codepoint c1]. cbn [snd] in Hadv.
  destruct (FC_GetGlyphData _ _ font codepoint) as [[glyph|] font1]; [apply IH; lia|].
  destruct (FC_GetGlyphData _ _ font1 32) as [[glyph|] font2]; apply IH; lia.
Qed.

Context {float : Type} `{FloatOps float}.
Variable fc_render_callback :
  option SDL_Texture -> SDL_Rect -> Z -> Z -> float -> float -> SDL_Rect.

(** The same for the loop of [FC_RenderLeft]. *)
Lemma RenderLeft_loop_enough newlineX scale destH destLineSpacing destLetterSpacing
    n m (c : cstring) st :
  (length c <= n)%nat -> (length c <= m)%nat ->
  FC_RenderLeft_loop fc_tab_width indeterminate fc_render_callback
    newlineX scale destH destLineSpacing destLetterSpacing n c st
  = FC_RenderLeft_loop fc_tab_width indeterminate fc_render_callback
      newlineX scale destH destLineSpacing destLetterSpacing m c st.
Proof.
  revert m c st.
  induction n as [|n IH]; intros m c st Hn Hm.
  { destruct c; [|cbn in Hn; lia]. destruct m; reflexivity. }
  destruct c as [|b rest]; [destruct m; reflexivity|].
  destruct m as [|m]; [cbn in Hm; lia|].
  cbn [length] in Hn, Hm. cbn [FC_RenderLeft_loop].
  destruct (Byte.eqb b char_nl); [apply IH; rewrite length_drop; cbn [length]; lia|].
  pose proof (codepoint_at_advances b rest) as Hadv.
  destruct (codepoint_at (b :: rest) true) as [codepoint c1]. cbn [snd] in Hadv.
  destruct (FC_GetGlyphData _ _ (rs_font st) codepoint) as [[glyph|] font1];
    [apply IH; lia|].
  destruct (FC_GetGlyphData _ _ font1 32) as [[glyph|] font2]; apply IH; lia.
Qed.

End LoopTurns.

(** ** Measuring *)

Lemma peek_app_lt (a rest : list byte) i :
  (i < length a)%nat -> peek (a ++ rest) i = peek a i.
Proof. intros Hi. unfold peek. rewrite lookup_app_l by exact Hi. reflexivity. Qed.

(** Decoding a whole character in front of [rest]: the codepoint is that of
    the character alone and, with the [c++] of the loop, the pointer ends up
    at [rest]. *)
Lemma codepoint_at_uchar ch rest :
  is_uchar ch = true ->
  fst (codepoint_at (ch ++ rest) true) = fst (codepoint_at ch false)
  /\ drop 1 (snd (codepoint_at (ch ++ rest) true)) = rest.
Proof.
  unfold is_uchar. destruct ch as [|b0 ch]; [discriminate|].
  intros [_ Hlen]%andb_prop. apply Z.eqb_eq in Hlen.
  unfold U8_charsize in Hlen. unfold codepoint_at.
  rewrite (peek_app_lt (b0 :: ch) rest 0) by (cbn; lia).
  destruct (peek (b0 :: ch) 0 <=? 127).
  { destruct ch; [|cbn in Hlen; lia]. split; reflexivity. }
  destruct (peek (b0 :: ch) 0 <? 224).
  { destruct ch as [|b1 [|]]; try (cbn in Hlen; lia). split; reflexivity. }
  destruct (peek (b0 :: ch) 0 <? 240).
  { destruct ch as [|b1 [|b2 [|]]]; try (cbn in Hlen; lia). split; reflexivity. }
  destruct ch as [|b1 [|b2 [|b3 [|]]]]; try (cbn in Hlen; lia). split; reflexivity.
Qed.

Lemma ge_max a b : (if a >=? b then a else b) = Z.max a b.
Proof. destruct (Z.geb_spec a b); lia. Qed.

Lemma Uint16_range z : 0 <= Uint16 z < 2 ^ 16.
Proof. unfold Uint16. apply Z.mod_pos_bound. lia. Qed.

Lemma Uint16_add_l a b : Uint16 (Uint16 a + b) = Uint16 (a + b).
Proof. unfold Uint16. apply Zplus_mod_idemp_l. Qed.

Section MeasureProofs.

Variable fc_tab_width : Z.
Variable indeterminate : FC_GlyphData.

Local Abbreviation GetWidth_loop := (FC_GetWidth_loop fc_tab_width indeterminate).
Local Abbreviation advance := (glyph_advance fc_tab_width indeterminate).

Lemma GetWidth_loop_end n font width bigWidth :
  GetWidth_loop n font [] width bigWidth = (width, bigWidth, font).
Proof. destruct n; reflexivity. Qed.

Lemma GetWidth_loop_newline n font rest width bigWidth :
  GetWidth_loop (S n) font (char_nl :: rest) width bigWidth
  = GetWidth_loop n font rest 0 (Z.max bigWidth width).
Proof. cbn. rewrite ge_max. reflexivity. Qed.

Lemma GetWidth_loop_uchar n font ch rest width bigWidth :
  is_uchar ch = true ->
  0 <= width < 2 ^ 16 ->
  GetWidth_loop (S n) font (ch ++ rest) width bigWidth
  = GetWidth_loop n (snd (advance font ch)) rest
      (Uint16 (width + fst (advance font ch))) bigWidth.
Proof.
  intros Hch Hw.
  destruct (codepoint_at_uchar ch rest Hch) as [Hcp Hrest].
  assert (exists b tl, ch ++ rest = b :: tl /\ Byte.eqb b char_nl = false)
    as (b & tl & Heq & Hnl).
  { unfold is_uchar in Hch. destruct ch as [|b ch]; [discriminate|].
    apply andb_prop in Hch as [Hb _]. exists b, (ch ++ rest).
    split; [reflexivity|]. by apply negb_true_iff. }
  cbn [FC_GetWidth_loop]. rewrite Heq, Hnl, <- Heq.
  destruct (codepoint_at (ch ++ rest) true) as [codepoint c1].
  cbn [fst snd] in Hcp, Hrest. subst codepoint. rewrite Hrest.
  unfold glyph_advance.
  destruct (FC_GetGlyphData _ _ font _) as [[glyph|] font1]; [reflexivity|].
  destruct (FC_GetGlyphData _ _ font1 32) as [[glyph|] font2]; [reflexivity|].
  cbn [fst snd]. rewrite Z.add_0_r, Uint16_small by exact Hw. reflexivity.
Qed.

Lemma GetWidth_loop_line line n font rest width bigWidth :
  Forall (fun ch => is_uchar ch = true) line ->
  0 <= width < 2 ^ 16 ->
  GetWidth_loop (length line + n) font (concat line ++ rest) width bigWidth
  = GetWidth_loop n (snd (line_sum fc_tab_width indeterminate font line)) rest
      (Uint16 (width + fst (line_sum fc_tab_width indeterminate font line))) bigWidth.
Proof.
  revert font width. induction line as [|ch line IH]; intros font width Hl Hw.
  - cbn. rewrite Z.add_0_r, Uint16_small by exact Hw. reflexivity.
  - inversion Hl as [|? ? Hch Hl']; subst.
    cbn [concat length Nat.add line_sum]. rewrite <- app_assoc.
    rewrite GetWidth_loop_uchar by assumption.
    rewrite IH by (try assumption; apply Uint16_range).
    destruct (glyph_advance _ _ font ch) as [a font1]. cbn [fst snd].
    destruct (line_sum _ _ font1 line) as [s font2]. cbn [fst snd].
    rewrite Uint16_add_l. f_equal. f_equal. lia.
Qed.

Lemma GetWidth_loop_lines lines n font bigWidth :
  lines <> [] ->
  Forall (Forall (fun ch => is_uchar ch = true)) lines ->
  Forall (fun s => 0 <= s < 2 ^ 16) (fst (line_sums fc_tab_width indeterminate font lines)) ->
  let '(width', bigWidth', font') :=
    GetWidth_loop (turns lines + n) font (join_lines lines) 0 bigWidth in
  font' = snd (line_sums fc_tab_width indeterminate font lines)
  /\ Z.max bigWidth' width'
     = Z.max bigWidth (widest (fst (line_sums fc_tab_width indeterminate font lines))).
Proof.
  revert font bigWidth. induction lines as [|line lines IH]; intros font bigWidth Hne Hch Hs;
    [contradiction|].
  inversion Hch as [|? ? Hline Hrest]; subst.
  cbn [line_sums] in *.
  pose proof (fun n rest => GetWidth_loop_line line n font rest 0 bigWidth Hline ltac:(lia)) as Hl.
  destruct (line_sum _ _ font line) as [s font1] eqn:Es.
  cbn [fst snd] in Hl. rewrite Z.add_0_l in Hl.
  destruct lines as [|line2 lines].
  - cbn [line_sums fst snd join_lines turns] in *.
    inversion Hs as [|? ? Hs0 _]; subst.
    rewrite <- (app_nil_r (concat line)), Hl, GetWidth_loop_end.
    split; [reflexivity|]. rewrite Uint16_small by exact Hs0.
    unfold widest. cbn. lia.
  - specialize (IH font1 (Z.max bigWidth s) ltac:(discriminate) Hrest).
    change (join_lines (line :: line2 :: lines))
      with (concat line ++ char_nl :: join_lines (line2 :: lines)).
    change (turns (line :: line2 :: lines))
      with (length line + S (turns (line2 :: lines)))%nat.
    destruct (line_sums _ _ font1 (line2 :: lines)) as [ss font2] eqn:Ess.
    cbn [fst snd] in *. inversion Hs as [|? ? Hs0 Hss]; subst.
    rewrite <- Nat.add_assoc, Hl. cbn [Nat.add].
    rewrite GetWidth_loop_newline, Uint16_small by exact Hs0.
    specialize (IH Hss).
    destruct (GetWidth_loop _ _ _ _ _) as [[width' bigWidth'] font'].
    destruct IH as [-> IH]. split; [reflexivity|].
    rewrite IH. unfold widest. cbn. lia.
Qed.

Lemma turns_le lines :
  Forall (Forall (fun ch => is_uchar ch = true)) lines ->
  (turns lines <= length (join_lines lines))%nat.
Proof.
  assert (Hline : forall line : list cstring,
             Forall (fun ch => is_uchar ch = true) line ->
             (length line <= length (concat line))%nat).
  { induction 1 as [|ch line Hch _ IH]; [reflexivity|].
    cbn. rewrite length_app. destruct ch; [discriminate|]. cbn. lia. }
  induction 1 as [|line lines Hl _ IH]; [reflexivity|].
  destruct lines as [|line2 lines].
  - cbn. by apply Hline.
  - change (join_lines (line :: line2 :: lines))
      with (concat line ++ char_nl :: join_lines (line2 :: lines)).
    change (turns (line :: line2 :: lines))
      with (length line + S (turns (line2 :: lines)))%nat.
    rewrite length_app. cbn [length]. specialize (Hline line Hl). lia.
Qed.

Lemma widest_nonneg sums : 0 <= widest sums.
Proof. unfold widest. induction sums as [|s sums IH]; cbn; lia. Qed.

(** C9, amended. For a text given by its lines (joined by newlines) and each
    line by its characters, which fits the buffer, [FC_GetWidth] returns the
    largest of the per-line sums of glyph widths - the width of the space
    glyph standing in for a glyph whose lookup fails - provided each sum is
    a value of the [Uint16] type in which the source adds the widths. *)
Theorem width_is_widest_line fc_buffer_size font lines :
  lines <> [] ->
  Forall (Forall (fun ch => is_uchar ch = true)) lines ->
  Z.of_nat (length (join_lines lines)) < fc_buffer_size ->
  Forall (fun s => 0 <= s < 2 ^ 16) (fst (line_sums fc_tab_width indeterminate font lines)) ->
  FC_GetWidth fc_tab_width indeterminate fc_buffer_size (Some font) (Some (join_lines lines))
  = (widest (fst (line_sums fc_tab_width indeterminate font lines)),
     Some (snd (line_sums fc_tab_width indeterminate font lines))).
Proof.
  intros Hne Hch Hlen Hs.
  unfold FC_GetWidth, FC_GetWidth_of, FC_EXTRACT_VARARGS, FC_GetWidth_buffer.
  rewrite take_ge by lia.
  pose proof (turns_le lines Hch) as Ht.
  replace (length (join_lines lines))
    with (turns lines + (length (join_lines lines) - turns lines))%nat by lia.
  pose proof (GetWidth_loop_lines lines (length (join_lines lines) - turns lines)
                font 0 Hne Hch Hs) as Hloop.
  destruct (GetWidth_loop _ _ _ _ _) as [[width' bigWidth'] font'].
  destruct Hloop as [-> Hmax]. rewrite ge_max, Hmax.
  pose proof (widest_nonneg (fst (line_sums fc_tab_width indeterminate font lines))).
  f_equal. lia.
Qed.

End MeasureProofs.

(** C9 as stated fails: the width of a line is added up in a [Uint16].  Two
    glyphs 40000 wide on one line sum to 80000, and [FC_GetWidth] returns
    14464. *)
Lemma width_wraps_at_65536 :
  FC_GetWidth 4 no_glyph 1024 (Some wide_font) (Some [Byte.x61; Byte.x61])
  = (14464, Some wide_font)
  /\ widest (fst (line_sums 4 no_glyph wide_font [[[Byte.x61]; [Byte.x61]]])) = 80000
  /\ fst (FC_GetWidth 4 no_glyph 1024 (Some wide_font) (Some [Byte.x61; Byte.x61]))
     <> widest (fst (line_sums 4 no_glyph wide_font [[[Byte.x61]; [Byte.x61]]])).
Proof. split; [|split]; vm_compute; (reflexivity || discriminate). Qed.

Lemma width_is_widest_line_witness :
  FC_GetWidth 4 no_glyph 1024 (Some letters_font)
    (Some [Byte.x61; Byte.x62; Byte.x0a; Byte.x61; Byte.x62; Byte.x63])
  = (30, Some letters_font).
Proof.
  apply (width_is_widest_line 4 no_glyph 1024 letters_font
           [[[Byte.x61]; [Byte.x62]]; [[Byte.x61]; [Byte.x62]; [Byte.x63]]]).
  - discriminate.
  - repeat constructor.
  - cbn. lia.
  - vm_compute. repeat constructor; discriminate.
Defined.

(** ** Invalid input *)


(** With a column width of 0 [FC_DrawColumn] is no empty draw either: the
    text is drawn unwrapped, and the rectangle returned has the height of
    its lines. *)
Lemma draw_column_of_zero_width :
  FC_DrawColumn 4 no_glyph 1024 (FC_DefaultRenderCallback (float := Z))
    (Some letters_font) (Some any_size_renderer) 0 0 0 (Some [Byte.x61; Byte.x62])
  = ({| rect_x := 0; rect_y := 0; rect_w := 0; rect_h := 10 |},
     Some letters_font,
     [ {| rect_x := 0; rect_y := 0; rect_w := 10; rect_h := 10 |};
       {| rect_x := 10; rect_y := 0; rect_w := 10; rect_h := 10 |} ]).
Proof. vm_compute. reflexivity. Qed.

(** Without a column width nothing is measured and every paragraph is a
    line. *)
Lemma fit_paragraphs_no_width fc_tab_width indeterminate fc_buffer_size font W current iter :
  W <= 0 ->
  fit_paragraphs fc_tab_width indeterminate fc_buffer_size font W current iter
  = (current ++ iter, font).
Proof.
  intros HW. revert current. induction iter as [|line next IH]; intros current.
  { cbn. by rewrite app_nil_r. }
  cbn [fit_paragraphs]. destruct (Z.gtb_spec W 0); [lia|].
  rewrite IH. by rewrite <- app_assoc.
Qed.



(** ** Dirty rectangle *)

Lemma FC_MIN_spec a b : FC_MIN a b = Z.min a b.
Proof. unfold FC_MIN. destruct (Z.ltb_spec a b); lia. Qed.

Lemma FC_MAX_spec a b : FC_MAX a b = Z.max a b.
Proof. unfold FC_MAX. destruct (Z.gtb_spec a b); lia. Qed.

Lemma SDL_RectUnion_covers A B :
  rect_in_range A -> rect_in_range B ->
  rect_covers (SDL_RectUnion A B) A
  /\ rect_covers (SDL_RectUnion A B) B
  /\ rect_in_range (SDL_RectUnion A B).
Proof.
  intros [[HAx HAw] [HAy HAh]] [[HBx HBw] [HBy HBh]].
  unfold SDL_RectUnion, rect_covers, pixel_in, rect_in_range.
  cbn [rect_x rect_y rect_w rect_h].
  rewrite !FC_MIN_spec, !FC_MAX_spec.
  rewrite (Sint32_small (rect_x A + rect_w A)), (Sint32_small (rect_x B + rect_w B)),
    (Sint32_small (rect_y A + rect_h A)), (Sint32_small (rect_y B + rect_h B)) by lia.
  rewrite !Sint32_small by lia.
  repeat split; intros; lia.
Qed.

Lemma dirty_after_inv dirty drawn r :
  dirty_inv dirty drawn -> rect_in_range r -> dirty_inv (dirty_after dirty r) (drawn ++ [r]).
Proof.
  intros [Hcov Hok] Hr. unfold dirty_after.
  destruct (Z.eqb_spec (rect_w dirty) 0) as [Hw|Hw];
    [|destruct (Z.eqb_spec (rect_h dirty) 0) as [Hh|Hh]]; cbn [orb].
  - split; [|auto]. apply Forall_app. split.
    + eapply Forall_impl; [exact Hcov|]. intros r0 H0 px py Hp.
      apply H0 in Hp. unfold pixel_in in Hp. lia.
    + constructor; [|constructor]. intros px py Hp. exact Hp.
  - split; [|auto]. apply Forall_app. split.
    + eapply Forall_impl; [exact Hcov|]. intros r0 H0 px py Hp.
      apply H0 in Hp. unfold pixel_in in Hp. lia.
    + constructor; [|constructor]. intros px py Hp. exact Hp.
  - destruct Hok as [?|[?|Hin]]; [contradiction..|].
    destruct (SDL_RectUnion_covers dirty r Hin Hr) as (HA & HB & HU).
    split; [|auto]. apply Forall_app. split.
    + eapply Forall_impl; [exact Hcov|]. intros r0 H0 px py Hp. apply HA, H0, Hp.
    + constructor; [exact HB | constructor].
Qed.

Section DrawingProofs.

Context {float : Type} `{FloatOps float}.
Variable fc_tab_width : Z.
Variable indeterminate : FC_GlyphData.
Variable fc_buffer_size : Z.
Variable fc_render_callback :
  option SDL_Texture -> SDL_Rect -> Z -> Z -> float -> float -> SDL_Rect.

Local Abbreviation RenderLeft_loop :=
  (FC_RenderLeft_loop fc_tab_width indeterminate fc_render_callback).

(** Induction over the turns of the loop of [FC_RenderLeft]: a property of
    [dirtyRect] and of the rectangles drawn that every draw preserves holds
    when the loop ends. *)
Lemma RenderLeft_loop_ind (P : SDL_Rect -> list SDL_Rect -> Prop)
    newlineX scale destH destLineSpacing destLetterSpacing :
  (forall dirty drawn r, P dirty drawn -> P (dirty_after dirty r) (drawn ++ [r])) ->
  forall turns c st,
    P (dirtyRect st) (drawn st) ->
    let st' := RenderLeft_loop newlineX scale destH destLineSpacing destLetterSpacing
                 turns c st in
    P (dirtyRect st') (drawn st').
Proof.
  intros Hstep turns. induction turns as [|turns IH]; intros c st HP; [exact HP|].
  destruct c as [|b rest]; [exact HP|].
  cbn [FC_RenderLeft_loop].
  destruct (Byte.eqb b char_nl); [apply IH; exact HP|].
  destruct (codepoint_at (b :: rest) true) as [codepoint c1].
  destruct (FC_GetGlyphData _ _ (rs_font st) codepoint) as [[glyph|] font1].
  - apply IH. destruct (codepoint =? 32); [exact HP|].
    cbn [draw_glyph advance_destX dirtyRect drawn]. apply Hstep, HP.
  - destruct (FC_GetGlyphData _ _ font1 32) as [[glyph|] font2]; apply IH; exact HP.
Qed.


Lemma RenderLeft_font_dirty font dest x y scale text :
  let '(dirty, _, drawn) :=
    FC_RenderLeft_font fc_tab_width indeterminate fc_render_callback font dest x y scale text in
  dirty = fold_left dirty_after drawn {| rect_x := x; rect_y := y; rect_w := 0; rect_h := 0 |}
  /\ (Forall rect_in_range drawn -> Forall (rect_covers dirty) drawn).
Proof.
  unfold FC_RenderLeft_font.
  destruct text as [c|]; [|split; [reflexivity | constructor]].
  destruct dest as [d|]; [|split; [reflexivity | constructor]].
  destruct (glyph_cache_count font =? 0); [split; [reflexivity | constructor]|].
  set (D0 := {| rect_x := x; rect_y := y; rect_w := 0; rect_h := 0 |}).
  set (P := fun dirty drawn =>
              dirty = fold_left dirty_after drawn D0
              /\ (Forall rect_in_range drawn -> dirty_inv dirty drawn)).
  assert (Hstep : forall dirty drawn r, P dirty drawn -> P (dirty_after dirty r) (drawn ++ [r])).
  { intros dirty drawn r [Hfold Hinv]. split.
    - rewrite fold_left_app. cbn. by rewrite <- Hfold.
    - intros [Hds Hr]%Forall_app. inversion Hr; subst.
      apply dirty_after_inv; auto. }
  match goal with
  | |- context [FC_RenderLeft_loop _ _ _ ?nx ?sc ?dh ?dls ?dlt ?n ?cc ?st] =>
      pose proof (RenderLeft_loop_ind P nx sc dh dls dlt Hstep n cc st) as Hloop
  end.
  cbv zeta in Hloop.
  destruct Hloop as [Hfold Hinv].
  { split; [reflexivity|]. intros _. split; [constructor | left; reflexivity]. }
  split; [exact Hfold|]. intros Hr. apply (Hinv Hr).
Qed.

End DrawingProofs.

(** C6 as stated fails for the column draws: [FC_DrawColumn] returns the
    column box with the total height, and a word wider than the column is
    drawn beyond it. *)
Lemma draw_column_rect_misses_glyph :
  FC_DrawColumn 4 no_glyph 1024 FC_DefaultRenderCallback
    (Some letters_font) (Some any_size_renderer) 0 0 20 (Some text_abcdef)
  = ({| rect_x := 0; rect_y := 0; rect_w := 20; rect_h := 10 |},
     Some letters_font,
     [ {| rect_x := 0; rect_y := 0; rect_w := 10; rect_h := 10 |};
       {| rect_x := 10; rect_y := 0; rect_w := 10; rect_h := 10 |};
       {| rect_x := 20; rect_y := 0; rect_w := 10; rect_h := 10 |};
       {| rect_x := 30; rect_y := 0; rect_w := 10; rect_h := 10 |};
       {| rect_x := 40; rect_y := 0; rect_w := 10; rect_h := 10 |};
       {| rect_x := 50; rect_y := 0; rect_w := 10; rect_h := 10 |} ])
  /\ ~ rect_covers {| rect_x := 0; rect_y := 0; rect_w := 20; rect_h := 10 |}
                   {| rect_x := 50; rect_y := 0; rect_w := 10; rect_h := 10 |}.
Proof.
  split; [vm_compute; reflexivity|].
  intros Hc. specialize (Hc 50 0). unfold pixel_in in Hc. cbn in Hc. lia.
Qed.

(** ** Word wrap *)

Section WrapProofs.

Variable fc_tab_width : Z.
Variable indeterminate : FC_GlyphData.
Variable fc_buffer_size : Z.

Local Abbreviation pure := (lookups_pure fc_tab_width indeterminate).
Local Abbreviation width_of := (FC_GetWidth_of fc_tab_width indeterminate fc_buffer_size).
Local Abbreviation words_loop := (fit_words fc_tab_width indeterminate fc_buffer_size).
Local Abbreviation words_log := (fit_words_log fc_tab_width indeterminate fc_buffer_size).
Local Abbreviation paragraphs_log :=
  (fit_paragraphs_log fc_tab_width indeterminate fc_buffer_size).
Local Abbreviation lines_of := (paragraph_lines_at fc_tab_width indeterminate fc_buffer_size).
Local Abbreviation all_lines := (text_lines fc_tab_width indeterminate fc_buffer_size).
Local Abbreviation on_font := (measured_on fc_tab_width indeterminate fc_buffer_size).

Lemma no_rasterizer_pure font : ttf_source font = None -> pure font.
Proof.
  intros Httf codepoint. unfold FC_GetGlyphData, FC_GetGlyphData_body.
  destruct (FC_MapFind _ _); [reflexivity|]. by rewrite Httf.
Qed.

Lemma GetWidth_loop_pure font turns c width bigWidth :
  pure font ->
  snd (FC_GetWidth_loop fc_tab_width indeterminate turns font c width bigWidth) = font.
Proof.
  intros Hp. revert c width bigWidth.
  induction turns as [|turns IH]; intros c width bigWidth; [reflexivity|].
  destruct c as [|b rest]; [reflexivity|].
  cbn [FC_GetWidth_loop].
  destruct (Byte.eqb b char_nl); [apply IH|].
  destruct (codepoint_at (b :: rest) true) as [codepoint c1].
  pose proof (Hp codepoint) as H1.
  destruct (FC_GetGlyphData _ _ font codepoint) as [[glyph|] font1];
    cbn [snd] in H1; subst font1; [apply IH|].
  pose proof (Hp 32) as H2.
  destruct (FC_GetGlyphData _ _ font 32) as [[glyph|] font2];
    cbn [snd] in H2; subst font2; apply IH.
Qed.

Lemma width_of_pure font text :
  pure font -> snd (width_of font text) = font.
Proof.
  intros Hp. unfold FC_GetWidth_of, FC_GetWidth_buffer.
  pose proof (GetWidth_loop_pure font
                (length (FC_EXTRACT_VARARGS fc_buffer_size text))
                (FC_EXTRACT_VARARGS fc_buffer_size text) 0 0 Hp) as Hl.
  destruct (FC_GetWidth_loop _ _ _ _ _ _ _) as [[w bw] font'].
  exact Hl.
Qed.

Lemma explode_space_from_spec text cur :
  is_word cur ->
  exists word words space spaces tail,
    explode_space_from text cur = (word :: words, space :: spaces)
    /\ cur ++ text = word ++ space ++ tail
    /\ Forall is_word (word :: words)
    /\ Forall is_separator (space :: spaces)
    /\ (cur ++ text <> [] -> word ++ space <> []).
Proof.
  revert cur. induction text as [|b rest IH]; intros cur Hcur.
  - exists cur, [], [], [], []. cbn [explode_space_from]. rewrite !app_nil_r.
    split; [reflexivity|]. split; [reflexivity|].
    split; [constructor; [exact Hcur | constructor]|].
    split; [constructor; [by left | constructor]|].
    intros Hne. exact Hne.
  - cbn [explode_space_from].
    destruct (is_breaking_space b) eqn:Hb.
    + destruct (IH [] ltac:(constructor)) as (w & ws & s & ss & tl & E & _ & Hw & Hs & _).
      rewrite E. exists cur, (w :: ws), [b], (s :: ss), rest.
      split; [reflexivity|]. split; [reflexivity|].
      split; [constructor; assumption|].
      split.
      * constructor; [|assumption].
        unfold is_breaking_space in Hb. apply orb_prop in Hb as [Hb|Hb];
          apply Byte.byte_dec_bl in Hb; subst b; [right; left | right; right]; reflexivity.
      * intros _. destruct cur; discriminate.
    + destruct (IH (cur ++ [b])) as (w & ws & s & ss & tl & E & Hcat & Hw & Hs & Hne).
      { apply Forall_app. split; [exact Hcur | constructor; [exact Hb | constructor]]. }
      rewrite E. exists w, ws, s, ss, tl. rewrite <- app_assoc in Hcat, Hne.
      split; [reflexivity|]. split; [exact Hcat|].
      split; [exact Hw|]. split; [exact Hs|].
      intros _. apply Hne. destruct cur; discriminate.
Qed.

(** The lines already in the result do not influence the word loop. *)
Lemma fit_words_current font W line current words spaces :
  words_loop font W line current words spaces
  = (current ++ fst (words_loop font W line [] words spaces),
     snd (words_loop font W line [] words spaces)).
Proof.
  revert font line current spaces.
  induction words as [|word words IH]; intros font line current spaces; [reflexivity|].
  destruct spaces as [|space spaces]; [reflexivity|].
  cbn [fit_words]. destruct (width_of font _) as [m font1].
  destruct (m >? W).
  - rewrite IH. rewrite (IH font1 _ ([] ++ [line])). cbn [fst snd].
    by rewrite <- app_assoc.
  - apply IH.
Qed.

Lemma width_of_nil font : width_of font [] = (0, font).
Proof. unfold FC_GetWidth_of, FC_EXTRACT_VARARGS. rewrite take_nil. reflexivity. Qed.

(** A line that fits still fits when more has been measured. *)
Lemma line_fits_more W log ext line :
  line_fits W log line -> line_fits W (log ++ ext) line.
Proof.
  intros (p & s & E & Hs & Hfit). exists p, s. split; [exact E|]. split; [exact Hs|].
  destruct Hfit as [Hw|(m & Hin & Hle)]; [by left|].
  right. exists m. split; [apply in_or_app; by left | exact Hle].
Qed.

(** The word loop with its record: the record does not change the result,
    every line fits by what was measured, and on a font that lookups leave
    unchanged every measurement was taken on that font. *)
Lemma fit_words_log_spec font0 W words spaces line current font log :
  Forall is_word words ->
  Forall is_separator spaces ->
  (pure font0 -> font = font0) ->
  (pure font0 -> on_font font0 log) ->
  line_fits W log line ->
  Forall (line_fits W log) current ->
  match words_log font W line current words spaces log with
  | (lines, font', log') =>
      (lines, font') = words_loop font W line current words spaces
      /\ (pure font0 -> font' = font0)
      /\ (pure font0 -> on_font font0 log')
      /\ Forall (line_fits W log') lines
      /\ exists ext, log' = log ++ ext
  end.
Proof.
  revert line current spaces font log.
  induction words as [|word words IH];
    intros line current spaces font log Hw Hs Hfont Hlog Hline Hcur.
  { cbn. split; [reflexivity|]. split; [exact Hfont|]. split; [exact Hlog|].
    split; [apply Forall_app; split; [exact Hcur | by constructor]|].
    exists []. by rewrite app_nil_r. }
  destruct spaces as [|space spaces].
  { cbn. split; [reflexivity|]. split; [exact Hfont|]. split; [exact Hlog|].
    split; [apply Forall_app; split; [exact Hcur | by constructor]|].
    exists []. by rewrite app_nil_r. }
  inversion Hw as [|? ? Hword Hwords]; subst.
  inversion Hs as [|? ? Hspace Hspaces]; subst.
  cbn [fit_words_log fit_words]. unfold new_concat.
  pose proof (width_of_pure font (line ++ word)) as Hp1.
  destruct (width_of font (line ++ word)) as [m font1] eqn:Em. cbn [snd] in Hp1.
  assert (Hfont1 : pure font0 -> font1 = font0).
  { intros Hp. pose proof (Hfont Hp) as ->. by apply Hp1. }
  assert (Hlog1 : pure font0 -> on_font font0 (log ++ [(line ++ word, m)])).
  { intros Hp. apply Forall_app. split; [by apply Hlog|].
    constructor; [|constructor]. cbn [fst snd].
    pose proof (Hfont Hp) as <-. by rewrite Em. }
  assert (Hcur1 : Forall (line_fits W (log ++ [(line ++ word, m)])) current).
  { eapply Forall_impl; [exact Hcur|]. intros l Hl. by apply line_fits_more. }
  destruct (Z.gtb_spec m W) as [Hgt|Hle].
  - specialize (IH (word ++ space) (current ++ [line]) spaces font1
                  (log ++ [(line ++ word, m)]) Hwords Hspaces Hfont1 Hlog1).
    destruct (words_log font1 W (word ++ space) (current ++ [line]) words spaces _)
      as [[lines font'] log'].
    destruct IH as (E & Hf' & Hl' & Hall & ext & Eext).
    { exists word, space. split; [reflexivity|]. split; [exact Hspace | by left]. }
    { apply Forall_app. split; [exact Hcur1|].
      constructor; [by apply line_fits_more | constructor]. }
    split; [exact E|]. split; [exact Hf'|]. split; [exact Hl'|]. split; [exact Hall|].
    exists ([(line ++ word, m)] ++ ext). rewrite Eext. by rewrite <- app_assoc.
  - specialize (IH (line ++ word ++ space) current spaces font1
                  (log ++ [(line ++ word, m)]) Hwords Hspaces Hfont1 Hlog1).
    destruct (words_log font1 W (line ++ word ++ space) current words spaces _)
      as [[lines font'] log'].
    destruct IH as (E & Hf' & Hl' & Hall & ext & Eext).
    { exists (line ++ word), space. split; [by rewrite <- app_assoc|].
      split; [exact Hspace|]. right. exists m.
      split; [apply in_or_app; right; by left | exact Hle]. }
    { exact Hcur1. }
    split; [exact E|]. split; [exact Hf'|]. split; [exact Hl'|]. split; [exact Hall|].
    exists ([(line ++ word, m)] ++ ext). rewrite Eext. by rewrite <- app_assoc.
Qed.

(** The same for the paragraph loop. *)
Lemma fit_paragraphs_log_spec font0 W paragraphs current font log :
  0 < W ->
  (pure font0 -> font = font0) ->
  (pure font0 -> on_font font0 log) ->
  Forall (line_fits W log) current ->
  match paragraphs_log font W current paragraphs log with
  | (lines, font', log') =>
      (lines, font')
      = fit_paragraphs fc_tab_width indeterminate fc_buffer_size font W current paragraphs
      /\ (pure font0 -> on_font font0 log')
      /\ Forall (line_fits W log') lines
  end.
Proof.
  intros HW. revert current font log.
  induction paragraphs as [|par pars IH]; intros current font log Hfont Hlog Hcur.
  { cbn. split; [reflexivity|]. split; [exact Hlog | exact Hcur]. }
  cbn [fit_paragraphs_log fit_paragraphs].
  destruct (Z.gtb_spec W 0); [|lia].
  pose proof (width_of_pure font par) as Hp1.
  destruct (width_of font par) as [m font1] eqn:Em. cbn [snd] in Hp1.
  assert (Hfont1 : pure font0 -> font1 = font0).
  { intros Hp. pose proof (Hfont Hp) as ->. by apply Hp1. }
  assert (Hlog1 : pure font0 -> on_font font0 (log ++ [(par, m)])).
  { intros Hp. apply Forall_app. split; [by apply Hlog|].
    constructor; [|constructor]. cbn [fst snd].
    pose proof (Hfont Hp) as <-. by rewrite Em. }
  assert (Hcur1 : Forall (line_fits W (log ++ [(par, m)])) current).
  { eapply Forall_impl; [exact Hcur|]. intros l Hl. by apply line_fits_more. }
  destruct (Z.gtb_spec m W) as [Hgt|Hle].
  - destruct (explode_space_from_spec par [] ltac:(constructor))
      as (w & ws & s & ss & tl & E & Hcat & Hw & Hs & Hne).
    unfold FC_ExplodeBreakingSpace. rewrite E.
    inversion Hw as [|? ? Hw0 Hws]; subst. inversion Hs as [|? ? Hs0 Hss]; subst.
    pose proof (fit_words_log_spec font0 W ws ss (new_concat w s) current font1
                  (log ++ [(par, m)]) Hws Hss Hfont1 Hlog1) as Hwords.
    destruct (words_log font1 W (new_concat w s) current ws ss _)
      as [[current' font2] log2].
    destruct Hwords as (Ew & Hf2 & Hl2 & Hall2 & _).
    { exists w, s. split; [reflexivity|]. split; [exact Hs0 | by left]. }
    { exact Hcur1. }
    rewrite <- Ew. by apply IH.
  - apply IH; [exact Hfont1 | exact Hlog1|].
    apply Forall_app. split; [exact Hcur1|]. constructor; [|constructor].
    exists par, []. rewrite app_nil_r. split; [reflexivity|]. split; [by left|].
    right. exists m. split; [apply in_or_app; right; by left | exact Hle].
Qed.

(** The first line the word loop produces starts with the line being
    filled. *)
Lemma fit_words_first_line font W words spaces line :
  exists rest more, fst (words_loop font W line [] words spaces) = (line ++ rest) :: more.
Proof.
  revert line spaces font.
  induction words as [|word words IH]; intros line spaces font.
  { exists [], []. cbn. by rewrite app_nil_r. }
  destruct spaces as [|space spaces].
  { exists [], []. cbn. by rewrite app_nil_r. }
  cbn [fit_words]. unfold new_concat.
  destruct (width_of font (line ++ word)) as [m font1].
  destruct (m >? W).
  - rewrite fit_words_current. cbn [fst].
    exists [], (fst (words_loop font1 W (word ++ space) [] words spaces)).
    by rewrite app_nil_r.
  - destruct (IH (line ++ word ++ space) spaces font1) as (rest & more & E).
    exists ((word ++ space) ++ rest), more. rewrite E. by rewrite <- !app_assoc.
Qed.

(** The lines of one paragraph: there is at least one, and the first line
    of a paragraph that is too long starts with its first word and
    separator. *)
Lemma paragraph_lines_at_spec W par font :
  0 < W ->
  fst (lines_of font W par) <> []
  /\ (W < fst (width_of font par) ->
      exists word space tail rest more,
        par = word ++ space ++ tail
        /\ is_word word /\ is_separator space /\ word ++ space <> []
        /\ fst (lines_of font W par) = (word ++ space ++ rest) :: more).
Proof.
  intros HW. unfold paragraph_lines_at.
  destruct (Z.gtb_spec W 0); [|lia].
  destruct (width_of font par) as [m font1] eqn:Em. cbn [fst snd] in *.
  destruct (Z.gtb_spec m W) as [Hgt|Hle].
  - destruct (explode_space_from_spec par [] ltac:(constructor))
      as (w & ws & s & ss & tl & E & Hcat & Hw & Hs & Hne).
    unfold FC_ExplodeBreakingSpace. rewrite E.
    inversion Hw; subst. inversion Hs; subst.
    destruct (fit_words_first_line font1 W ws ss (new_concat w s))
      as (rest & more & Elines).
    split; [rewrite Elines; discriminate|].
    intros _. exists w, s, tl, rest, more.
    split; [exact Hcat|]. split; [assumption|]. split; [assumption|].
    split.
    + apply Hne. cbn. intros ->. rewrite width_of_nil in Em. injection Em as <- _. lia.
    + rewrite Elines. unfold new_concat. by rewrite <- app_assoc.
  - split; [discriminate | lia].
Qed.

(** The paragraph loop appends the lines of each paragraph. *)
Lemma fit_paragraphs_text_lines font W current paragraphs :
  fit_paragraphs fc_tab_width indeterminate fc_buffer_size font W current paragraphs
  = (current ++ fst (all_lines font W paragraphs), snd (all_lines font W paragraphs)).
Proof.
  revert font current.
  induction paragraphs as [|par pars IH]; intros font current.
  { cbn. by rewrite app_nil_r. }
  cbn [fit_paragraphs text_lines]. unfold paragraph_lines_at.
  destruct (W >? 0).
  - destruct (width_of font par) as [m font1].
    destruct (m >? W).
    + unfold FC_ExplodeBreakingSpace.
      destruct (explode_space_from par []) as [[|w ws] [|s ss]];
        try (rewrite IH; destruct (all_lines font1 W pars); cbn [fst snd app];
             reflexivity).
      rewrite fit_words_current.
      destruct (words_loop font1 W (new_concat w s) [] ws ss) as [lines font2].
      cbn [fst snd]. rewrite IH.
      destruct (all_lines font2 W pars). cbn [fst snd]. by rewrite <- app_assoc.
    + rewrite IH. destruct (all_lines font1 W pars). cbn [fst snd].
      by rewrite <- app_assoc.
  - rewrite IH. destruct (all_lines font W pars). cbn [fst snd].
    by rewrite <- app_assoc.
Qed.


End WrapProofs.



(** * Further properties *)

(** ** UTF-8 string functions *)

Lemma peek_range (str : cstring) i : 0 <= peek str i < 256.
Proof.
  unfold peek. destruct (str !! i) as [b|]; [apply byte.unsigned_range | lia].
Qed.

Lemma peek_cons_S b (str : cstring) i : peek (b :: str) (S i) = peek str i.
Proof. reflexivity. Qed.

Lemma peek_cons_0 b (str : cstring) : peek (b :: str) 0 = byte.unsigned b.
Proof. reflexivity. Qed.

Lemma U8_charsize_app ch rest :
  ch <> [] -> U8_charsize (Some (ch ++ rest)) = U8_charsize (Some ch).
Proof.
  intros Hne. destruct ch as [|b ch]; [contradiction|]. reflexivity.
Qed.

Lemma U8_charsize_pos (s : cstring) : 1 <= U8_charsize (Some s) <= 4.
Proof.
  unfold U8_charsize.
  repeat match goal with |- context [if ?c then _ else _] => destruct c end; lia.
Qed.

Lemma whole_char_size ch :
  is_whole_char ch = true ->
  ch <> [] /\ Z.to_nat (U8_charsize (Some ch)) = length ch.
Proof.
  unfold is_whole_char. destruct ch as [|b ch]; [discriminate|].
  intros H. apply andb_prop in H as [H _]. apply Z.eqb_eq in H.
  split; [discriminate|]. rewrite <- H. apply Nat2Z.id.
Qed.

(** Past a whole character [U8_next] is at the text behind it. *)
Lemma U8_next_whole ch rest : is_whole_char ch = true -> U8_next (ch ++ rest) = rest.
Proof.
  intros Hch. apply whole_char_size in Hch as [Hne Hsize]. unfold U8_next.
  rewrite U8_charsize_app, Hsize by exact Hne. apply drop_app_length.
Qed.

Lemma whole_char_cons ch rest :
  is_whole_char ch = true -> exists b tl, ch ++ rest = b :: tl.
Proof. destruct ch as [|b ch]; [discriminate|]. intros _. by exists b, (ch ++ rest). Qed.

Lemma whole_chars_length (chars : list cstring) :
  Forall (fun ch => is_whole_char ch = true) chars ->
  (length chars <= length (concat chars))%nat.
Proof.
  induction 1 as [|ch chars Hch _ IH]; [reflexivity|].
  cbn. rewrite length_app. apply whole_char_size in Hch as [Hne _].
  destruct ch; [contradiction | cbn; lia].
Qed.

Lemma U8_strlen_loop_chars (chars : list cstring) n acc :
  Forall (fun ch => is_whole_char ch = true) chars ->
  - 2 ^ 31 <= acc ->
  acc + Z.of_nat (length chars) < 2 ^ 31 ->
  U8_strlen_loop (length chars + n) (concat chars) acc = acc + Z.of_nat (length chars).
Proof.
  intros Hall. revert acc. induction Hall as [|ch chars Hch _ IH]; intros acc Hlo Hhi.
  { cbn. destruct n; cbn; lia. }
  cbn [length concat Nat.add U8_strlen_loop].
  destruct (whole_char_cons ch (concat chars) Hch) as (b & tl & E).
  rewrite E, <- E, U8_next_whole by exact Hch.
  cbn [length] in Hhi.
  rewrite Sint32_small by lia. rewrite IH by lia. lia.
Qed.

Lemma U8_strlen_chars (chars : list cstring) :
  Forall (fun ch => is_whole_char ch = true) chars ->
  Z.of_nat (length chars) < 2 ^ 31 ->
  U8_strlen (Some (concat chars)) = Z.of_nat (length chars).
Proof.
  intros Hall Hlen. unfold U8_strlen.
  pose proof (whole_chars_length chars Hall) as Hle.
  replace (length (concat chars))
    with (length chars + (length (concat chars) - length chars))%nat by lia.
  rewrite U8_strlen_loop_chars by (try assumption; lia). lia.
Qed.

(** X1. [U8_strlen] counts characters, not bytes: on a string made of whole
    characters it returns their number, which is at most the number of
    bytes; it returns 0 for a null string. *)
Theorem U8_strlen_counts_characters (chars : list cstring) :
  Forall (fun ch => is_whole_char ch = true) chars ->
  Z.of_nat (length chars) < 2 ^ 31 ->
  U8_strlen (Some (concat chars)) = Z.of_nat (length chars)
  /\ U8_strlen (Some (concat chars)) <= Z.of_nat (length (concat chars))
  /\ U8_strlen None = 0.
Proof.
  intros Hall Hlen. rewrite U8_strlen_chars by assumption.
  pose proof (whole_chars_length chars Hall). repeat split; lia.
Qed.

Lemma U8_strlen_counts_characters_witness :
  U8_strlen (Some [Byte.x61; Byte.xc3; Byte.xa9; Byte.xe2; Byte.x82; Byte.xac]) = 3.
Proof.
  apply (U8_strlen_counts_characters
           [[Byte.x61]; [Byte.xc3; Byte.xa9]; [Byte.xe2; Byte.x82; Byte.xac]]).
  - repeat constructor.
  - cbn. lia.
Defined.

Lemma U8_strdel_loop_chars (chars : list cstring) n done position :
  Forall (fun ch => is_whole_char ch = true) chars ->
  0 <= position < 2 ^ 31 ->
  U8_strdel_loop (length chars + n) done (concat chars) position
  = done ++ concat (delete (Z.to_nat position) chars).
Proof.
  intros Hall. revert done position.
  induction Hall as [|ch chars Hch _ IH]; intros done position Hp.
  { cbn. destruct n; cbn; reflexivity. }
  cbn [length concat Nat.add U8_strdel_loop].
  destruct (whole_char_cons ch (concat chars) Hch) as (b & tl & E).
  rewrite E, <- E.
  pose proof (whole_char_size ch Hch) as [Hne Hsize].
  destruct (Z.eqb_spec position 0) as [->|Hnz].
  - rewrite U8_charsize_app, Hsize, drop_app_length by exact Hne. reflexivity.
  - rewrite U8_next_whole by exact Hch.
    rewrite length_app, Nat.add_sub, take_app_length.
    rewrite Sint32_small by lia. rewrite IH by lia.
    replace (Z.to_nat position) with (S (Z.to_nat (position - 1))) by lia.
    cbn [delete list_delete concat]. by rewrite <- app_assoc.
Qed.

Lemma U8_strdel_chars (chars : list cstring) position :
  Forall (fun ch => is_whole_char ch = true) chars ->
  0 <= position < 2 ^ 31 ->
  U8_strdel (Some (concat chars)) position
  = Some (concat (delete (Z.to_nat position) chars)).
Proof.
  intros Hall Hp. unfold U8_strdel. destruct (Z.ltb_spec position 0); [lia|].
  pose proof (whole_chars_length chars Hall) as Hle.
  replace (length (concat chars))
    with (length chars + (length (concat chars) - length chars))%nat by lia.
  rewrite U8_strdel_loop_chars by (try assumption; lia). reflexivity.
Qed.

(** X2. [U8_strdel] removes the character at the given character position,
    all of its bytes and nothing else; a position past the last character or
    a negative one leaves the string as it is, and a null string stays
    null. *)
Theorem U8_strdel_removes_one_character (chars : list cstring) position :
  Forall (fun ch => is_whole_char ch = true) chars ->
  position < 2 ^ 31 ->
  (0 <= position ->
   U8_strdel (Some (concat chars)) position
   = Some (concat (take (Z.to_nat position) chars
                   ++ drop (S (Z.to_nat position)) chars)))
  /\ (position < 0 \/ Z.of_nat (length chars) <= position ->
      U8_strdel (Some (concat chars)) position = Some (concat chars))
  /\ U8_strdel None position = None.
Proof.
  intros Hall Hp. split; [|split; [|reflexivity]].
  - intros H0. rewrite U8_strdel_chars, delete_take_drop by (try assumption; lia).
    reflexivity.
  - intros [Hneg|Hge].
    + unfold U8_strdel. destruct (Z.ltb_spec position 0); [reflexivity | lia].
    + pose proof (Zle_0_nat (length chars)).
      rewrite U8_strdel_chars by (try assumption; lia).
      rewrite delete_take_drop, take_ge, drop_ge, app_nil_r by lia. reflexivity.
Qed.

Lemma U8_strdel_removes_one_character_witness :
  U8_strdel (Some [Byte.x61; Byte.xc3; Byte.xa9; Byte.x62]) 1 = Some [Byte.x61; Byte.x62].
Proof.
  apply (U8_strdel_removes_one_character [[Byte.x61]; [Byte.xc3; Byte.xa9]; [Byte.x62]] 1).
  - repeat constructor.
  - lia.
  - lia.
Defined.

Lemma U8_seek_chars (chars : list cstring) turns k position :
  Forall (fun ch => is_whole_char ch = true) chars ->
  (length chars <= turns)%nat ->
  0 <= k <= position ->
  position - k <= Z.of_nat (length chars) ->
  position < 2 ^ 31 ->
  U8_seek turns (concat chars) k position
  = concat (drop (Z.to_nat (position - k)) chars).
Proof.
  intros Hall Hturns.
  replace turns with (length chars + (turns - length chars))%nat by lia.
  generalize (turns - length chars)%nat as n. clear Hturns. intros n.
  revert k. induction Hall as [|ch chars Hch _ IH]; intros k Hk Hle Hp.
  { cbn. destruct n; cbn; by rewrite drop_nil. }
  cbn [length concat Nat.add U8_seek].
  destruct (whole_char_cons ch (concat chars) Hch) as (b & tl & E).
  rewrite E, <- E.
  destruct (Z.ltb_spec k position).
  - rewrite U8_next_whole by exact Hch. rewrite Sint32_small by lia.
    cbn [length] in Hle. rewrite IH by lia.
    replace (Z.to_nat (position - k)) with (S (Z.to_nat (position - (k + 1)))) by lia.
    reflexivity.
  - replace (position - k) with 0 by lia. reflexivity.
Qed.

Lemma U8_strinsert_chars (chars : list cstring) (src : cstring) position max_bytes :
  Forall (fun ch => is_whole_char ch = true) chars ->
  Z.of_nat (length (concat chars)) + Z.of_nat (length src) + 1 < 2 ^ 31 ->
  U8_strinsert (Some (concat chars)) position (Some src) max_bytes
  = let p := if position =? -1 then Z.of_nat (length chars) else position in
    if (p <? 0) || (p >? Z.of_nat (length chars))
       || (Z.of_nat (length (concat chars)) + Z.of_nat (length src) + 1 >? max_bytes)
    then (0, Some (concat chars))
    else (1, Some (concat (take (Z.to_nat p) chars) ++ src
                   ++ concat (drop (Z.to_nat p) chars))).
Proof.
  intros Hall Hlen. pose proof (whole_chars_length chars Hall) as Hle.
  unfold U8_strinsert. rewrite U8_strlen_chars by (try assumption; lia).
  rewrite (Sint32_small (Z.of_nat (length (concat chars)))) by lia.
  rewrite (Sint32_small (Z.of_nat (length src))) by lia.
  rewrite Sint32_small by lia. cbv zeta.
  set (p := if position =? -1 then Z.of_nat (length chars) else position).
  destruct (Z.ltb_spec p 0); [reflexivity|].
  destruct (Z.gtb_spec p (Z.of_nat (length chars))); [reflexivity|].
  destruct (_ >? max_bytes); [reflexivity|]. cbn [orb].
  rewrite U8_seek_chars by (try assumption; lia). rewrite Z.sub_0_r.
  do 3 f_equal.
  transitivity (take (length (concat (take (Z.to_nat p) chars)
                              ++ concat (drop (Z.to_nat p) chars))
                      - length (concat (drop (Z.to_nat p) chars)))
                  (concat (take (Z.to_nat p) chars) ++ concat (drop (Z.to_nat p) chars))).
  - by rewrite <- concat_app, take_drop.
  - rewrite length_app, Nat.add_sub. apply take_app_length.
Qed.

(** X3. [U8_strinsert] puts [source] in front of the character at the given
    character position (at the end for position -1) and keeps every byte of
    the string; it returns 1 and the result with its terminator fits in
    [max_bytes].  When the position is out of range or the result would not
    fit it returns 0 and the string is unchanged, as with a null argument. *)
Theorem U8_strinsert_inserts_at_character (chars : list cstring) (src : cstring)
    position max_bytes :
  Forall (fun ch => is_whole_char ch = true) chars ->
  Z.of_nat (length (concat chars)) + Z.of_nat (length src) + 1 < 2 ^ 31 ->
  let string := concat chars in
  let fits := Z.of_nat (length string) + Z.of_nat (length src) + 1 <= max_bytes in
  (0 <= position <= Z.of_nat (length chars) -> fits ->
   exists result,
     U8_strinsert (Some string) position (Some src) max_bytes = (1, Some result)
     /\ result = concat (take (Z.to_nat position) chars) ++ src
                 ++ concat (drop (Z.to_nat position) chars)
     /\ Z.of_nat (length result) + 1 <= max_bytes)
  /\ (fits ->
      U8_strinsert (Some string) (-1) (Some src) max_bytes = (1, Some (string ++ src)))
  /\ (position < -1 \/ Z.of_nat (length chars) < position \/ ~ fits ->
      U8_strinsert (Some string) position (Some src) max_bytes = (0, Some string))
  /\ U8_strinsert None position (Some src) max_bytes = (0, None)
  /\ U8_strinsert (Some string) position None max_bytes = (0, Some string).
Proof.
  intros Hall Hlen string fits. subst string fits.
  split; [|split; [|split; [|split; reflexivity]]].
  - intros Hp Hfits. eexists. split; [|split; [reflexivity|]].
    + rewrite U8_strinsert_chars by assumption. cbv zeta.
      destruct (Z.eqb_spec position (-1)); [lia|].
      destruct (Z.ltb_spec position 0); [lia|].
      destruct (Z.gtb_spec position (Z.of_nat (length chars))); [lia|].
      destruct (Z.gtb_spec (Z.of_nat (length (concat chars)) + Z.of_nat (length src) + 1)
                  max_bytes); [lia|].
      reflexivity.
    + rewrite !length_app.
      assert (length (concat (take (Z.to_nat position) chars))
              + length (concat (drop (Z.to_nat position) chars))
              = length (concat chars))%nat as Hsplit.
      { rewrite <- length_app, <- concat_app, take_drop. reflexivity. }
      lia.
  - intros Hfits. rewrite U8_strinsert_chars by assumption. cbv zeta.
    rewrite Z.eqb_refl.
    destruct (Z.ltb_spec (Z.of_nat (length chars)) 0); [lia|].
    destruct (Z.gtb_spec (Z.of_nat (length chars)) (Z.of_nat (length chars))); [lia|].
    destruct (Z.gtb_spec (Z.of_nat (length (concat chars)) + Z.of_nat (length src) + 1)
                max_bytes); [lia|].
    cbn [orb]. rewrite Nat2Z.id, take_ge, drop_ge by lia.
    cbn [concat]. by rewrite app_nil_r.
  - intros Hbad. rewrite U8_strinsert_chars by assumption. cbv zeta.
    destruct (Z.eqb_spec position (-1)) as [->|Hne].
    + destruct (Z.ltb_spec (Z.of_nat (length chars)) 0); [reflexivity|].
      destruct (Z.gtb_spec (Z.of_nat (length chars)) (Z.of_nat (length chars))); [lia|].
      destruct (Z.gtb_spec (Z.of_nat (length (concat chars)) + Z.of_nat (length src) + 1)
                  max_bytes); [reflexivity|].
      lia.
    + destruct (Z.ltb_spec position 0); [reflexivity|].
      destruct (Z.gtb_spec position (Z.of_nat (length chars))); [reflexivity|].
      destruct (Z.gtb_spec (Z.of_nat (length (concat chars)) + Z.of_nat (length src) + 1)
                  max_bytes); [reflexivity|].
      lia.
Qed.

Lemma U8_strinsert_inserts_at_character_witness :
  U8_strinsert (Some [Byte.x61; Byte.xc3; Byte.xa9; Byte.x62]) 2 (Some [Byte.x7a]) 6
  = (1, Some [Byte.x61; Byte.xc3; Byte.xa9; Byte.x7a; Byte.x62]).
Proof.
  destruct (U8_strinsert_inserts_at_character
              [[Byte.x61]; [Byte.xc3; Byte.xa9]; [Byte.x62]] [Byte.x7a] 2 6)
    as [Hin _].
  - repeat constructor.
  - cbn. lia.
  - destruct Hin as (result & Heq & Hres & _); [cbn; lia | cbn; lia |].
    subst result. exact Heq.
Defined.

(** X4. Deleting at the position where a character was just inserted gives
    the original string back. *)
Theorem U8_strinsert_then_strdel (chars : list cstring) (ch : cstring) position max_bytes :
  Forall (fun ch => is_whole_char ch = true) chars ->
  is_whole_char ch = true ->
  0 <= position <= Z.of_nat (length chars) ->
  Z.of_nat (length (concat chars)) + Z.of_nat (length ch) + 1 <= max_bytes ->
  max_bytes < 2 ^ 31 ->
  exists inserted,
    U8_strinsert (Some (concat chars)) position (Some ch) max_bytes = (1, Some inserted)
    /\ U8_strdel (Some inserted) position = Some (concat chars).
Proof.
  intros Hall Hch Hp Hfits Hmax.
  pose proof (whole_chars_length chars Hall) as Hle.
  eexists. split.
  - rewrite U8_strinsert_chars by (try assumption; lia). cbv zeta.
    destruct (Z.eqb_spec position (-1)); [lia|].
    destruct (Z.ltb_spec position 0); [lia|].
    destruct (Z.gtb_spec position (Z.of_nat (length chars))); [lia|].
    destruct (Z.gtb_spec (Z.of_nat (length (concat chars)) + Z.of_nat (length ch) + 1)
                max_bytes); [lia|].
    reflexivity.
  - set (p := Z.to_nat position).
    replace (concat (take p chars) ++ ch ++ concat (drop p chars))
      with (concat (take p chars ++ ch :: drop p chars))
      by (rewrite concat_app; reflexivity).
    rewrite U8_strdel_chars.
    + replace (Z.to_nat position) with (length (take p chars))
        by (rewrite length_take; lia).
      rewrite delete_middle, take_drop. reflexivity.
    + apply Forall_app. split; [by apply Forall_take|].
      constructor; [exact Hch | by apply Forall_drop].
    + lia.
Qed.

Lemma U8_strinsert_then_strdel_witness :
  exists inserted,
    U8_strinsert (Some [Byte.x61; Byte.x62]) 1 (Some [Byte.xc3; Byte.xa9]) 5
    = (1, Some inserted)
    /\ U8_strdel (Some inserted) 1 = Some [Byte.x61; Byte.x62].
Proof.
  apply (U8_strinsert_then_strdel [[Byte.x61]; [Byte.x62]] [Byte.xc3; Byte.xa9] 1 5).
  - repeat constructor.
  - reflexivity.
  - cbn. lia.
  - cbn. lia.
  - lia.
Defined.

Lemma peek_bytes (ch rest : cstring) :
  map (fun i => byte.of_Z (peek (ch ++ rest) i)) (seq 0 (length ch)) = ch.
Proof.
  induction ch as [|b ch IH]; [reflexivity|].
  cbn [length seq map app]. rewrite peek_cons_0, byte.of_Z_unsigned. f_equal.
  rewrite <- seq_shift, map_map. exact IH.
Qed.

(** X5. [U8_charcpy] copies the first character of [source], all of its
    bytes and no more, to the beginning of the buffer and returns its size;
    when the character does not fit in [buffer_size] bytes, or an argument is
    null, it returns 0 and the buffer is untouched. *)
Theorem U8_charcpy_copies_first_character (ch rest : cstring) (buf : list byte) buffer_size :
  is_whole_char ch = true ->
  (Z.of_nat (length ch) <= buffer_size ->
   U8_charcpy (Some buf) (Some (ch ++ rest)) buffer_size
   = (Z.of_nat (length ch), Some (ch ++ drop (length ch) buf)))
  /\ (buffer_size < Z.of_nat (length ch) ->
      U8_charcpy (Some buf) (Some (ch ++ rest)) buffer_size = (0, Some buf))
  /\ U8_charcpy None (Some (ch ++ rest)) buffer_size = (0, None)
  /\ U8_charcpy (Some buf) None buffer_size = (0, Some buf).
Proof.
  intros Hch. pose proof (whole_char_size ch Hch) as [Hne Hsize].
  assert (Hz : U8_charsize (Some (ch ++ rest)) = Z.of_nat (length ch)).
  { rewrite U8_charsize_app by exact Hne.
    pose proof (U8_charsize_pos ch). lia. }
  assert (1 <= length ch)%nat by (destruct ch; [contradiction | cbn; lia]).
  unfold U8_charcpy. rewrite Hz, Nat2Z.id, peek_bytes.
  split; [|split; [|split; reflexivity]]; intros Hsz.
  - destruct (Z.ltb_spec buffer_size 1); [lia|].
    destruct (Z.gtb_spec (Z.of_nat (length ch)) buffer_size); [lia|]. reflexivity.
  - destruct (Z.ltb_spec buffer_size 1); [reflexivity|].
    destruct (Z.gtb_spec (Z.of_nat (length ch)) buffer_size); [reflexivity | lia].
Qed.

Lemma U8_charcpy_copies_first_character_witness :
  U8_charcpy (Some [Byte.x78; Byte.x78; Byte.x78]) (Some ([Byte.xc3; Byte.xa9] ++ [Byte.x62])) 3
  = (Z.of_nat (length [Byte.xc3; Byte.xa9]),
     Some ([Byte.xc3; Byte.xa9] ++ drop (length [Byte.xc3; Byte.xa9])
                                      [Byte.x78; Byte.x78; Byte.x78])).
Proof.
  apply (U8_charcpy_copies_first_character [Byte.xc3; Byte.xa9] [Byte.x62]
           [Byte.x78; Byte.x78; Byte.x78] 3).
  - reflexivity.
  - cbn. lia.
Defined.

(** ** Codec, continued *)

Lemma packed_bytes a b c1 d :
  0 <= a < 256 -> 0 <= b < 256 -> 0 <= c1 < 256 -> 0 <= d < 256 ->
  let c := a * 16777216 + b * 65536 + c1 * 256 + d in
  Z.land (Z.shiftr c 24) 255 = a /\ Z.land (Z.shiftr c 16) 255 = b
  /\ Z.land (Z.shiftr c 8) 255 = c1 /\ Z.land c 255 = d.
Proof.
  intros Ha Hb Hc Hd. cbv zeta. rewrite !land_255, !Z.shiftr_div_pow2 by lia.
  change (2 ^ 24) with 16777216. change (2 ^ 16) with 65536. change (2 ^ 8) with 256.
  repeat split; Z.div_mod_to_equations; lia.
Qed.

Lemma utf8_of_packed a b c1 d :
  0 <= a < 256 -> 0 <= b < 256 -> 0 <= c1 < 256 -> 0 <= d < 256 ->
  forall c, c = a * 16777216 + b * 65536 + c1 * 256 + d ->
  utf8_of_codepoint c
  = if a =? 0 then
      if b =? 0 then
        if c1 =? 0 then [byte.of_Z d; Byte.x00]
        else [byte.of_Z c1; byte.of_Z d; Byte.x00]
      else [byte.of_Z b; byte.of_Z c1; byte.of_Z d; Byte.x00]
    else [byte.of_Z a; byte.of_Z b; byte.of_Z c1; byte.of_Z d; Byte.x00].
Proof.
  intros Ha Hb Hc Hd c ->. unfold utf8_of_codepoint.
  destruct (packed_bytes a b c1 d Ha Hb Hc Hd) as (-> & -> & -> & ->). reflexivity.
Qed.

(** X6. The decoder and the encoder are inverse on whole characters: the
    decoder packs the bytes of the character into a codepoint that satisfies
    [utf8_packed] and, when asked to advance, leaves the pointer on the last
    byte of the character; the encoder stores exactly those bytes again,
    followed by a terminator. *)
Theorem encode_decode_whole_character (ch rest buf : cstring) :
  is_whole_char ch = true ->
  exists cp,
    FC_GetCodepointFromUTF8 (Some (Some (ch ++ rest))) true
    = (cp, Some (Some (drop (length ch - 1) (ch ++ rest))))
    /\ FC_GetCodepointFromUTF8 (Some (Some (ch ++ rest))) false
       = (cp, Some (Some (ch ++ rest)))
    /\ utf8_packed cp = true
    /\ FC_GetUTF8FromCodepoint (Some buf) cp
       = Some (ch ++ Byte.x00 :: drop (S (length ch)) buf).
Proof.
  unfold is_whole_char, U8_charsize, FC_GetCodepointFromUTF8, FC_GetUTF8FromCodepoint,
    codepoint_at, utf8_packed.
  destruct ch as [|b0 ch]; [discriminate|].
  intros H. apply andb_prop in H as [H _]. apply Z.eqb_eq in H. revert H.
  unfold peek. cbn [app lookup list_lookup].
  pose proof (byte.unsigned_range b0) as Hb0.
  destruct (Z.leb_spec (byte.unsigned b0) 127);
    [|destruct (Z.ltb_spec (byte.unsigned b0) 224);
      [|destruct (Z.ltb_spec (byte.unsigned b0) 240)]].
  - destruct ch as [|? ?]; [|cbn [length]; lia]. intros _.
    eexists. split; [reflexivity|]. split; [reflexivity|]. split; [lia|].
    rewrite (utf8_of_packed 0 0 0 (byte.unsigned b0)) by lia.
    cbn. rewrite byte.of_Z_unsigned. reflexivity.
  - destruct ch as [|b1 [|? ?]]; [cbn [length]; lia | | cbn [length]; lia]. intros _.
    pose proof (byte.unsigned_range b1) as Hb1.
    cbn [app lookup list_lookup length]. rewrite Z.lor_0_l.
    rewrite !Uint32_small by (rewrite ?Z.shiftl_mul_pow2; lia).
    rewrite lor_bytes2 by lia.
    eexists. split; [reflexivity|]. split; [reflexivity|]. split; [lia|].
    rewrite (utf8_of_packed 0 0 (byte.unsigned b0) (byte.unsigned b1)) by lia.
    cbn [Z.eqb].
    destruct (Z.eqb_spec (byte.unsigned b0) 0); [lia|].
    rewrite !byte.of_Z_unsigned. reflexivity.
  - destruct ch as [|b1 [|b2 [|? ?]]];
      [cbn [length]; lia | cbn [length]; lia | | cbn [length]; lia]. intros _.
    pose proof (byte.unsigned_range b1) as Hb1.
    pose proof (byte.unsigned_range b2) as Hb2.
    cbn [app lookup list_lookup length]. rewrite Z.lor_0_l.
    rewrite !Uint32_small by (rewrite ?Z.shiftl_mul_pow2; lia).
    rewrite lor_bytes3 by lia.
    eexists. split; [reflexivity|]. split; [reflexivity|]. split; [lia|].
    rewrite (utf8_of_packed 0 (byte.unsigned b0) (byte.unsigned b1) (byte.unsigned b2))
      by lia.
    cbn [Z.eqb].
    destruct (Z.eqb_spec (byte.unsigned b0) 0); [lia|].
    rewrite !byte.of_Z_unsigned. reflexivity.
  - destruct ch as [|b1 [|b2 [|b3 [|? ?]]]];
      [cbn [length]; lia | cbn [length]; lia | cbn [length]; lia | | cbn [length]; lia].
    intros _.
    pose proof (byte.unsigned_range b1) as Hb1.
    pose proof (byte.unsigned_range b2) as Hb2.
    pose proof (byte.unsigned_range b3) as Hb3.
    cbn [app lookup list_lookup length]. rewrite Z.lor_0_l.
    rewrite !Uint32_small by (rewrite ?Z.shiftl_mul_pow2; lia).
    rewrite lor_bytes4 by lia.
    eexists. split; [reflexivity|]. split; [reflexivity|]. split; [lia|].
    rewrite (utf8_of_packed (byte.unsigned b0) (byte.unsigned b1) (byte.unsigned b2)
               (byte.unsigned b3)) by lia.
    destruct (Z.eqb_spec (byte.unsigned b0) 0); [lia|].
    rewrite !byte.of_Z_unsigned. reflexivity.
Qed.

Lemma encode_decode_whole_character_witness :
  exists cp,
    FC_GetCodepointFromUTF8 (Some (Some ([Byte.xe2; Byte.x82; Byte.xac] ++ [Byte.x61]))) true
    = (cp, Some (Some (drop (length [Byte.xe2; Byte.x82; Byte.xac] - 1)
                         ([Byte.xe2; Byte.x82; Byte.xac] ++ [Byte.x61]))))
    /\ FC_GetCodepointFromUTF8 (Some (Some ([Byte.xe2; Byte.x82; Byte.xac] ++ [Byte.x61])))
         false
       = (cp, Some (Some ([Byte.xe2; Byte.x82; Byte.xac] ++ [Byte.x61])))
    /\ utf8_packed cp = true
    /\ FC_GetUTF8FromCodepoint (Some []) cp
       = Some ([Byte.xe2; Byte.x82; Byte.xac]
               ++ Byte.x00 :: drop (S (length [Byte.xe2; Byte.x82; Byte.xac])) []).
Proof.
  apply (encode_decode_whole_character [Byte.xe2; Byte.x82; Byte.xac] [Byte.x61] []).
  reflexivity.
Defined.

(** X7. The round trip through the encoder and the decoder gives a codepoint
    back exactly when it satisfies [utf8_packed]: every other 32-bit value
    comes back changed. *)
Theorem codec_round_trip_only_packed c advance_pointer (rest : cstring) :
  0 <= c < 2 ^ 32 ->
  fst (FC_GetCodepointFromUTF8 (Some (Some (utf8_of_codepoint c ++ rest))) advance_pointer)
  = c
  <-> utf8_packed c = true.
Proof.
  intros Hr.
  assert (Hfst : fst (FC_GetCodepointFromUTF8
                        (Some (Some (utf8_of_codepoint c ++ rest))) advance_pointer)
                 = fst (codepoint_at (utf8_of_codepoint c ++ rest) advance_pointer)).
  { unfold FC_GetCodepointFromUTF8. destruct (codepoint_at _ _). reflexivity. }
  rewrite Hfst. clear Hfst.
  split; [|apply decode_encode].
  destruct (utf8_packed c) eqn:Hp; [reflexivity|]. intros Heq. exfalso.
  unfold utf8_packed in Hp.
  destruct (codepoint_bytes c Hr) as [(Ha & Hb & Hc1 & Hd) Hsum].
  revert Heq. unfold utf8_of_codepoint.
  set (a := Z.land (Z.shiftr c 24) 255) in *.
  set (b := Z.land (Z.shiftr c 16) 255) in *.
  set (c1 := Z.land (Z.shiftr c 8) 255) in *.
  set (d := Z.land c 255) in *.
  change (2 ^ 24) with 16777216 in Hsum. change (2 ^ 16) with 65536 in Hsum.
  change (2 ^ 8) with 256 in Hsum.
  pose proof (peek_range rest 0) as Hr0.
  pose proof (peek_range rest 1) as Hr1.
  destruct (Z.eqb_spec a 0) as [Ha0|Ha0];
    [destruct (Z.eqb_spec b 0) as [Hb0|Hb0];
       [destruct (Z.eqb_spec c1 0) as [Hc0|Hc0]|]|];
    unfold codepoint_at; cbn [app];
    rewrite ?peek_cons_S, ?peek_cons_0, ?unsigned_of_Z_small by lia;
    change (byte.unsigned Byte.x00) with 0;
    repeat match goal with
      | |- context [if ?x <=? ?y then _ else _] => destruct (Z.leb_spec x y)
      | |- context [if ?x <? ?y then _ else _] => destruct (Z.ltb_spec x y)
      end;
    cbn [fst]; rewrite ?Z.lor_0_l;
    rewrite ?Uint32_small by (rewrite ?Z.shiftl_mul_pow2; lia);
    rewrite ?lor_bytes2, ?lor_bytes3, ?lor_bytes4 by lia;
    lia.
Qed.

Lemma codec_round_trip_only_packed_witness :
  fst (FC_GetCodepointFromUTF8 (Some (Some (utf8_of_codepoint 0x80 ++ []))) true) = 0x80
  <-> utf8_packed 0x80 = true.
Proof. apply (codec_round_trip_only_packed 0x80 true []). lia. Defined.

(** ** Glyph map, continued *)

(** An insert leaves the lookups of every other key as they were. *)
Lemma FC_MapFind_insert_other m k codepoint glyph :
  FC_Map_wf m ->
  codepoint <> k ->
  FC_MapFind (snd (FC_MapInsert (Some m) codepoint glyph)) k = FC_MapFind (Some m) k.
Proof.
  intros Hwf Hne.
  destruct (FC_MapInsert_spec m codepoint glyph Hwf) as (chain & Hc & ->).
  cbn [snd]. unfold FC_MapFind, bucket_index. cbn [num_buckets buckets].
  fold (bucket_index m k). fold (bucket_index m codepoint).
  destruct (decide (bucket_index m codepoint = bucket_index m k)) as [Heq|Hidx].
  - rewrite <- Heq. rewrite list_lookup_insert_eq by (by apply bucket_index_lt).
    rewrite Hc, chain_find_app. cbn.
    destruct (Z.eqb_spec codepoint k); [contradiction|].
    destruct (chain_find chain k); reflexivity.
  - rewrite list_lookup_insert_ne by exact Hidx. reflexivity.
Qed.

Lemma insert_all_snoc map entries cp g :
  insert_all map (entries ++ [(cp, g)]) = snd (FC_MapInsert (insert_all map entries) cp g).
Proof. unfold insert_all. rewrite fold_left_app. reflexivity. Qed.

Lemma insert_all_wf m entries :
  FC_Map_wf m ->
  exists m', insert_all (Some m) entries = Some m' /\ FC_Map_wf m'
             /\ num_buckets m' = num_buckets m.
Proof.
  intros Hwf. induction entries as [|[cp g] entries IH] using rev_ind.
  - exists m. split; [reflexivity|]. split; [exact Hwf | reflexivity].
  - destruct IH as (m1 & E1 & Hwf1 & Hn1). rewrite insert_all_snoc, E1.
    destruct (FC_MapInsert_wf m1 cp g Hwf1) as (m2 & E2 & Hwf2 & Hn2).
    exists m2. split; [exact E2|]. split; [exact Hwf2 | congruence].
Qed.

Lemma first_value_snoc entries cp g k :
  first_value (entries ++ [(cp, g)]) k
  = match first_value entries k with
    | Some v => Some v
    | None => if cp =? k then Some g else None
    end.
Proof.
  unfold first_value. induction entries as [|[cp' g'] entries IH]; cbn.
  - destruct (cp =? k); reflexivity.
  - destruct (cp' =? k); [reflexivity | exact IH].
Qed.

Lemma FC_MapFind_empty n k : FC_MapFind (Some (FC_MapCreate n)) k = None.
Proof.
  unfold FC_MapFind, FC_MapCreate. cbn [buckets].
  destruct (replicate (Z.to_nat n) [] !! _) as [chain|] eqn:E; [|reflexivity].
  apply lookup_replicate in E as [-> _]. reflexivity.
Qed.

Lemma FC_MapFind_first_value n entries k :
  0 < n < 2 ^ 31 ->
  FC_MapFind (insert_all (Some (FC_MapCreate n)) entries) k = first_value entries k.
Proof.
  intros Hn. induction entries as [|[cp g] entries IH] using rev_ind.
  - apply FC_MapFind_empty.
  - rewrite insert_all_snoc, first_value_snoc.
    destruct (insert_all_wf (FC_MapCreate n) entries (FC_MapCreate_wf n Hn))
      as (m & E & Hwf & _).
    rewrite E in *.
    destruct (first_value entries k) as [v|].
    + by apply FC_MapFind_stable.
    + destruct (Z.eqb_spec cp k) as [->|Hne].
      * by apply FC_MapFind_insert_new.
      * rewrite FC_MapFind_insert_other by assumption. exact IH.
Qed.

Lemma map_lookup_key_inserted n entries k :
  0 < n < 2 ^ 31 ->
  is_Some (FC_MapFind (insert_all (Some (FC_MapCreate n)) entries) k)
  <-> k ∈ map fst entries.
Proof.
  intros Hn. rewrite FC_MapFind_first_value by exact Hn.
  unfold first_value. induction entries as [|[cp g] entries IH]; cbn.
  - split; [intros [? [=]] | intros H; by apply elem_of_nil in H].
  - rewrite elem_of_cons. destruct (Z.eqb_spec cp k) as [->|Hne].
    + split; [intros _; by left | intros _; by eexists].
    + rewrite IH. split; [by right|].
      intros [->|H]; [contradiction | assumption].
Qed.

(** X8. A glyph map that was created with any number of buckets and then
    received a sequence of inserts answers every lookup with the value of
    the first insert made for that codepoint, and with null when there was
    none: later inserts for the same codepoint are never seen, and no
    insert disturbs another codepoint. *)
Theorem map_lookup_is_first_insert n entries k :
  0 < n < 2 ^ 31 ->
  FC_MapFind (insert_all (Some (FC_MapCreate n)) entries) k = first_value entries k
  /\ (is_Some (FC_MapFind (insert_all (Some (FC_MapCreate n)) entries) k)
      <-> k ∈ map fst entries).
Proof.
  intros Hn. split; [by apply FC_MapFind_first_value | by apply map_lookup_key_inserted].
Qed.

Lemma map_lookup_is_first_insert_witness :
  FC_MapFind
    (insert_all (Some (FC_MapCreate 2))
       [(65, FC_MakeGlyphData 0 3 1 10 10); (67, FC_MakeGlyphData 0 15 1 7 10);
        (65, FC_MakeGlyphData 0 24 1 9 10)]) 65
  = Some (FC_MakeGlyphData 0 3 1 10 10).
Proof.
  apply (map_lookup_is_first_insert 2
           [(65, FC_MakeGlyphData 0 3 1 10 10); (67, FC_MakeGlyphData 0 15 1 7 10);
            (65, FC_MakeGlyphData 0 24 1 9 10)] 65).
  lia.
Defined.

(** The keys of a map, bucket after bucket. *)
Lemma count_chain (chain : list FC_MapNode) r0 :
  0 <= r0 -> r0 + Z.of_nat (length chain) < 2 ^ 32 ->
  fold_left (fun result _ => Uint32 (result + 1)) chain r0 = r0 + Z.of_nat (length chain).
Proof.
  revert r0. induction chain as [|node chain IH]; intros r0 H0 Hlt; cbn [fold_left length].
  - lia.
  - cbn [length] in Hlt. rewrite Uint32_small by lia. rewrite IH by lia. lia.
Qed.

Lemma count_buckets (bs : list (list FC_MapNode)) r0 :
  0 <= r0 -> r0 + Z.of_nat (length (concat bs)) < 2 ^ 32 ->
  fold_left
    (fun result chain => fold_left (fun result _ => Uint32 (result + 1)) chain result) bs r0
  = r0 + Z.of_nat (length (concat bs)).
Proof.
  revert r0. induction bs as [|chain bs IH]; intros r0 H0 Hlt; cbn [fold_left concat].
  - cbn. lia.
  - cbn [concat] in Hlt. rewrite length_app in Hlt.
    rewrite count_chain by lia. rewrite IH by lia. rewrite length_app. lia.
Qed.

Lemma write_chain (chain : list FC_MapNode) (pre junk : list Z) :
  (length chain <= length junk)%nat ->
  Z.of_nat (length pre) + Z.of_nat (length chain) < 2 ^ 32 ->
  fold_left
    (fun '(result, count) node =>
       (<[Z.to_nat count := key node]> result, Uint32 (count + 1)))
    chain (pre ++ junk, Z.of_nat (length pre))
  = ((pre ++ map key chain) ++ drop (length chain) junk,
     Z.of_nat (length (pre ++ map key chain))).
Proof.
  revert pre junk. induction chain as [|node chain IH]; intros pre junk Hlen Hlt.
  - cbn. by rewrite !app_nil_r.
  - cbn [length] in Hlen, Hlt. destruct junk as [|j junk]; [cbn in Hlen; lia|].
    cbn [fold_left map length drop]. rewrite Nat2Z.id.
    rewrite insert_app_r_alt, Nat.sub_diag by lia. cbn [insert list_insert].
    rewrite Uint32_small by lia.
    replace (pre ++ key node :: junk) with ((pre ++ [key node]) ++ junk)
      by (by rewrite <- app_assoc).
    replace (Z.of_nat (length pre) + 1) with (Z.of_nat (length (pre ++ [key node])))
      by (rewrite length_app; cbn; lia).
    cbn [length] in Hlen. rewrite IH.
    + by rewrite <- !app_assoc.
    + lia.
    + rewrite length_app. cbn. lia.
Qed.

Lemma write_buckets (bs : list (list FC_MapNode)) (pre junk : list Z) :
  (length (concat bs) <= length junk)%nat ->
  Z.of_nat (length pre) + Z.of_nat (length (concat bs)) < 2 ^ 32 ->
  fold_left
    (fun st chain =>
       fold_left
         (fun '(result, count) node =>
            (<[Z.to_nat count := key node]> result, Uint32 (count + 1)))
         chain st)
    bs (pre ++ junk, Z.of_nat (length pre))
  = ((pre ++ concat (map (map key) bs)) ++ drop (length (concat bs)) junk,
     Z.of_nat (length (pre ++ concat (map (map key) bs)))).
Proof.
  revert pre junk. induction bs as [|chain bs IH]; intros pre junk Hlen Hlt.
  - cbn. by rewrite !app_nil_r.
  - cbn [concat] in Hlen, Hlt. rewrite length_app in Hlen, Hlt.
    cbn [fold_left map concat]. rewrite write_chain by lia.
    rewrite IH.
    + rewrite drop_drop, <- !app_assoc, (length_app chain). reflexivity.
    + rewrite length_drop. lia.
    + rewrite length_app, length_map. lia.
Qed.

Lemma keys_insert m codepoint glyph m' :
  FC_Map_wf m ->
  snd (FC_MapInsert (Some m) codepoint glyph) = Some m' ->
  concat (map (map key) (buckets m')) ≡ₚ codepoint :: concat (map (map key) (buckets m)).
Proof.
  intros Hwf E.
  destruct (FC_MapInsert_spec m codepoint glyph Hwf) as (chain & Hc & E').
  rewrite E' in E. cbn [snd] in E. injection E as <-. cbn [buckets].
  set (i := bucket_index m codepoint) in *.
  rewrite <- (take_drop_middle (buckets m) i chain Hc) at 2.
  rewrite insert_take_drop by (by apply bucket_index_lt).
  rewrite !map_app, !concat_app. cbn [map concat].
  rewrite map_app. cbn [map key]. rewrite <- !app_assoc. cbn [app].
  rewrite (Permutation_middle _ _ codepoint).
  apply Permutation_app_head. rewrite <- Permutation_middle.
  by rewrite Permutation_middle.
Qed.

Lemma keys_insert_all n entries m :
  0 < n < 2 ^ 31 ->
  insert_all (Some (FC_MapCreate n)) entries = Some m ->
  concat (map (map key) (buckets m)) ≡ₚ map fst entries.
Proof.
  intros Hn. revert m. induction entries as [|[cp g] entries IH] using rev_ind; intros m E.
  - injection E as <-. cbn [FC_MapCreate buckets].
    induction (Z.to_nat n) as [|k IHk]; [reflexivity | exact IHk].
  - rewrite insert_all_snoc in E.
    destruct (insert_all_wf (FC_MapCreate n) entries (FC_MapCreate_wf n Hn))
      as (m1 & E1 & Hwf1 & _).
    rewrite E1 in E. rewrite (keys_insert m1 cp g m Hwf1 E), (IH m1 E1).
    rewrite map_app. cbn [map fst]. by rewrite Permutation_app_comm.
Qed.

(** X9. For a font whose glyph map was created and filled by inserts,
    [FC_GetNumCodepoints] is the number of inserts made, duplicates
    included, and [FC_GetCodepoints] stores into an array of that size
    exactly the inserted codepoints, each as often as it was inserted; a
    codepoint is among them exactly when a lookup finds it.  Both return 0
    entries for a null font or a font without a map. *)
Theorem codepoints_enumerated_are_inserted font n entries (result : list Z) :
  0 < n < 2 ^ 31 ->
  glyphs font = insert_all (Some (FC_MapCreate n)) entries ->
  Z.of_nat (length entries) < 2 ^ 32 ->
  length result = length entries ->
  FC_GetNumCodepoints (Some font) = Z.of_nat (length entries)
  /\ FC_GetCodepoints (Some font) result ≡ₚ map fst entries
  /\ (forall k, k ∈ FC_GetCodepoints (Some font) result
                <-> is_Some (FC_MapFind (glyphs font) k))
  /\ FC_GetNumCodepoints None = 0
  /\ FC_GetCodepoints None result = result.
Proof.
  intros Hn Hg Hlen Hres.
  destruct (insert_all_wf (FC_MapCreate n) entries (FC_MapCreate_wf n Hn))
    as (m & E & [Hnb Hl] & _).
  pose proof (keys_insert_all n entries m Hn E) as Hkeys.
  assert (Hcount : length (concat (buckets m)) = length entries).
  { rewrite <- (length_map fst entries), <- Hkeys.
    clear. induction (buckets m) as [|c bs IH]; [reflexivity|].
    cbn. by rewrite !length_app, length_map, IH. }
  assert (Hwrite : FC_GetCodepoints (Some font) result = concat (map (map key) (buckets m))).
  { unfold FC_GetCodepoints. rewrite Hg, E, <- Hl, firstn_all.
    pose proof (write_buckets (buckets m) [] result) as W.
    cbn [app length] in W. change (Z.of_nat 0) with 0 in W.
    rewrite W by lia.
    cbn [fst]. rewrite Hcount, <- Hres, drop_all. apply app_nil_r. }
  split; [|split; [|split; [|split; reflexivity]]].
  - unfold FC_GetNumCodepoints. rewrite Hg, E, <- Hl, firstn_all.
    rewrite count_buckets by lia. lia.
  - by rewrite Hwrite.
  - intros k. rewrite Hwrite, Hkeys, Hg.
    symmetry. apply map_lookup_key_inserted. exact Hn.
Qed.

Lemma codepoints_enumerated_are_inserted_witness :
  FC_GetNumCodepoints (Some letters_font) = 7
  /\ FC_GetCodepoints (Some letters_font) [0; 0; 0; 0; 0; 0; 0]
     ≡ₚ [32; 97; 98; 99; 100; 101; 102].
Proof.
  destruct (codepoints_enumerated_are_inserted letters_font FC_DEFAULT_NUM_BUCKETS
              (map (fun cp => (cp, FC_MakeGlyphData 0 0 0 10 10))
                 [32; 97; 98; 99; 100; 101; 102])
              [0; 0; 0; 0; 0; 0; 0]) as (H1 & H2 & _).
  - unfold FC_DEFAULT_NUM_BUCKETS. lia.
  - reflexivity.
  - cbn. lia.
  - reflexivity.
  - split; [exact H1 | exact H2].
Defined.

(** ** Packer, continued *)

(** Lookups after an insert, in one equation. *)
Lemma FC_MapFind_insert m k codepoint glyph :
  FC_Map_wf m ->
  FC_MapFind (snd (FC_MapInsert (Some m) codepoint glyph)) k
  = match FC_MapFind (Some m) k with
    | Some v => Some v
    | None => if codepoint =? k then Some glyph else None
    end.
Proof.
  intros Hwf. destruct (FC_MapFind (Some m) k) as [v|] eqn:E.
  - by apply FC_MapFind_stable.
  - destruct (Z.eqb_spec codepoint k) as [->|Hne].
    + by apply FC_MapFind_insert_new.
    + rewrite FC_MapFind_insert_other by assumption. exact E.
Qed.

(** The three outcomes of the packer from the row test on, when the cursor
    and the level are in the range of the 16-bit fields. *)
Lemma pack_at_cursor_cases font m codepoint width maxWidth maxHeight :
  glyphs font = Some m ->
  FC_Map_wf m ->
  cursor_ok font ->
  0 <= width < 2 ^ 16 ->
  maxWidth < 2 ^ 15 -> maxHeight < 2 ^ 15 ->
  let cur := rect (last_glyph font) in
  let level := cache_level (last_glyph font) in
  let pitch := row_pitch font in
  let place (x y : Z) :=
    let g := {| rect := {| rect_x := x; rect_y := y; rect_w := width; rect_h := rect_h cur |};
                cache_level := level |} in
    pack_at_cursor font codepoint width maxWidth maxHeight
    = (Some g, set_glyphs (set_last_glyph font g) (snd (FC_MapInsert (Some m) codepoint g))) in
  if rect_x cur + rect_w cur + width >=? maxWidth - 1 then
    if rect_y cur + pitch + pitch >=? maxHeight - 1 then
      pack_at_cursor font codepoint width maxWidth maxHeight
      = (None,
         set_last_glyph font
           {| rect := {| rect_x := 1; rect_y := 1; rect_w := 0; rect_h := rect_h cur |};
              cache_level := glyph_cache_count font |})
    else place 3 (rect_y cur + pitch)
  else place (rect_x cur + rect_w cur + 2) (rect_y cur).
Proof.
  intros Hg Hwf (Hx & Hw & Hxw & Hy & Hh) Hwidth HmaxW HmaxH cur level pitch place.
  subst place. cbv zeta. fold cur in Hx, Hw, Hxw, Hy, Hh. fold pitch in Hh.
  assert (0 <= pitch < 2 ^ 16) as Hpitch
    by (subst pitch; unfold row_pitch, Uint16; apply Z.mod_pos_bound; lia).
  unfold pack_at_cursor.
  change (Uint16 (height font + FC_CACHE_PADDING)) with pitch.
  unfold row_is_full, level_is_full, FC_CACHE_PADDING.
  fold cur. fold level.
  rewrite (Sint32_small (rect_x cur + rect_w cur + width)) by lia.
  rewrite (Sint32_small (rect_y cur + pitch + pitch)) by lia.
  destruct (Z.geb_spec (rect_x cur + rect_w cur + width) (maxWidth - 1)) as [Hrow|Hrow];
    [destruct (Z.geb_spec (rect_y cur + pitch + pitch) (maxHeight - 1)) as [Hlev|Hlev]|].
  - reflexivity.
  - cbn [rect cache_level rect_x rect_y rect_w rect_h]. rewrite Hg.
    rewrite (Sint32_small (rect_y cur + pitch)) by lia.
    change (Sint32 (1 + (0 + 1 + 1))) with 3.
    unfold FC_MakeGlyphData.
    rewrite (Sint16_small 3), (Sint16_small (rect_y cur + pitch)), (Uint16_small width),
      (Uint16_small (rect_h cur)) by lia.
    destruct (FC_MapInsert_spec m codepoint
                {| rect := {| rect_x := 3; rect_y := rect_y cur + pitch;
                              rect_w := width; rect_h := rect_h cur |};
                   cache_level := level |} Hwf) as (chain & _ & ->).
    reflexivity.
  - cbn [rect cache_level rect_x rect_y rect_w rect_h]. rewrite Hg.
    fold cur. fold level.
    replace (rect_x cur + (rect_w cur + 1 + 1)) with (rect_x cur + rect_w cur + 2) by lia.
    rewrite (Sint32_small (rect_x cur + rect_w cur + 2)) by lia.
    unfold FC_MakeGlyphData.
    rewrite (Sint16_small (rect_x cur + rect_w cur + 2)), (Sint16_small (rect_y cur)),
      (Uint16_small width), (Uint16_small (rect_h cur)) by lia.
    destruct (FC_MapInsert_spec m codepoint
                {| rect := {| rect_x := rect_x cur + rect_w cur + 2; rect_y := rect_y cur;
                              rect_w := width; rect_h := rect_h cur |};
                   cache_level := level |} Hwf) as (chain & _ & ->).
    reflexivity.
Qed.

Lemma packed_width_range tab_width font codepoint width :
  0 <= packed_width tab_width font codepoint width < 2 ^ 16.
Proof.
  unfold packed_width.
  destruct (codepoint =? 9); [destruct (FC_MapFind _ _)|];
    unfold Uint16; apply Z.mod_pos_bound; lia.
Qed.

Lemma before_cursor_disjoint pitch cur next r :
  0 <= pitch ->
  before_cursor pitch cur r -> cursor_moved pitch cur next -> rect_disjoint r next.
Proof.
  unfold before_cursor, cursor_moved, rect_disjoint, pixel_in.
  intros Hp (Hw & Hh & Hr) (Hw' & Hh' & Hn) px py Hin Hin'. lia.
Qed.

Lemma before_cursor_moved pitch cur next r :
  0 <= pitch -> 0 <= rect_w cur ->
  before_cursor pitch cur r -> cursor_moved pitch cur next -> before_cursor pitch next r.
Proof.
  unfold before_cursor, cursor_moved.
  intros Hp Hc (Hw & Hh & Hr) (Hw' & Hh' & Hn). lia.
Qed.

(** A successful call of the packer moved the cursor to the glyph it
    returns and inserted that glyph. *)
Lemma pack_step_moved tab_width junk font m codepoint width maxWidth maxHeight g font' :
  glyphs font = Some m ->
  FC_Map_wf m ->
  codepoint <> 9 \/ is_Some (FC_MapFind (glyphs font) 32) ->
  Uint16 maxWidth < 2 ^ 15 ->
  Uint16 maxHeight < 2 ^ 15 ->
  cursor_ok font ->
  FC_PackGlyphData tab_width junk font codepoint width maxWidth maxHeight = (Some g, font') ->
  cursor_moved (row_pitch font) (rect (last_glyph font)) (rect g)
  /\ cache_level g = cache_level (last_glyph font)
  /\ (0 <= rect_x (rect g) /\ rect_x (rect g) + rect_w (rect g) < 2 ^ 17
      /\ 0 <= rect_y (rect g) < 2 ^ 15)
  /\ font' = set_glyphs (set_last_glyph font g) (snd (FC_MapInsert (Some m) codepoint g)).
Proof.
  intros Hg Hwf Hcp HmaxW HmaxH Hok Hpack.
  rewrite pack_step in Hpack by exact Hcp.
  pose proof (packed_width_range tab_width font codepoint width) as Hwidth.
  set (w := packed_width tab_width font codepoint width) in *.
  pose proof (pack_at_cursor_cases font m codepoint w (Uint16 maxWidth) (Uint16 maxHeight)
                Hg Hwf Hok Hwidth HmaxW HmaxH) as Hcases.
  cbv zeta in Hcases.
  pose proof Hok as (Hx & Hw & Hxw & Hy & Hh).
  set (cur := rect (last_glyph font)) in *.
  set (pitch := row_pitch font) in *.
  assert (0 <= pitch < 2 ^ 16) as Hpitch
    by (subst pitch; unfold row_pitch, Uint16; apply Z.mod_pos_bound; lia).
  destruct (Z.geb_spec (rect_x cur + rect_w cur + w) (Uint16 maxWidth - 1));
    [destruct (Z.geb_spec (rect_y cur + pitch + pitch) (Uint16 maxHeight - 1))|].
  - rewrite Hcases in Hpack. discriminate.
  - rewrite Hcases in Hpack. injection Hpack as <- <-.
    unfold cursor_moved. cbn [rect rect_x rect_y rect_w rect_h cache_level].
    repeat split; try reflexivity; lia.
  - rewrite Hcases in Hpack. injection Hpack as <- <-.
    unfold cursor_moved. cbn [rect rect_x rect_y rect_w rect_h cache_level].
    repeat split; try reflexivity; lia.
Qed.

(** The invariant after the cursor moved to an inserted glyph. *)
Lemma packed_before_moved font m codepoint g :
  glyphs font = Some m ->
  FC_Map_wf m ->
  cursor_ok font ->
  packed_before font ->
  cursor_moved (row_pitch font) (rect (last_glyph font)) (rect g) ->
  cache_level g = cache_level (last_glyph font) ->
  0 <= rect_x (rect g) /\ rect_x (rect g) + rect_w (rect g) < 2 ^ 17
  /\ 0 <= rect_y (rect g) < 2 ^ 15 ->
  let font' := set_glyphs (set_last_glyph font g)
                 (snd (FC_MapInsert (Some m) codepoint g)) in
  cursor_ok font' /\ packed_before font'.
Proof.
  intros Hg Hwf Hok Hinv Hmoved Hlevel (Hgx & Hgxw & Hgy) font'. subst font'.
  pose proof Hok as (Hx & Hw & Hxw & Hy & Hh).
  set (cur := rect (last_glyph font)) in *.
  set (pitch := row_pitch font) in *.
  assert (0 <= pitch < 2 ^ 16) as Hpitch
    by (subst pitch; unfold row_pitch, Uint16; apply Z.mod_pos_bound; lia).
  split.
  - unfold cursor_ok, row_pitch. cbn [last_glyph set_glyphs set_last_glyph height].
    fold (row_pitch font). fold pitch.
    destruct Hmoved as (? & Heq & _). rewrite Heq. fold cur. repeat split; lia.
  - intros k g0. unfold row_pitch.
    cbn [glyphs last_glyph set_glyphs set_last_glyph height].
    fold (row_pitch font). fold pitch.
    rewrite FC_MapFind_insert by exact Hwf. rewrite <- Hg.
    destruct (FC_MapFind (glyphs font) k) as [v|] eqn:E.
    + intros [= ->] Hl.
      apply (before_cursor_moved pitch cur); [lia | exact Hw | | exact Hmoved].
      apply (Hinv k g0 E). congruence.
    + destruct (codepoint =? k); [|discriminate]. intros [= ->] _.
      destruct Hmoved as (Hgw & Hgh & _).
      unfold before_cursor. rewrite Hgh. fold cur.
      split; [lia|]. split; [lia|]. left. lia.
Qed.

(** X10. The packer keeps the glyphs of a level apart as long as its
    invariant holds.  The invariant is that every glyph a lookup finds on
    the cursor's level has been passed by the cursor; it holds for an empty
    map.  When it holds before a call, the cursor is in range, the level is
    less than 32768 pixels wide and high, and the codepoint is not a TAB
    whose space glyph is still to be cached, then a glyph that
    [FC_PackGlyphData] places overlaps no glyph that a lookup finds on the
    same cache level, it is the cursor afterwards, and the invariant holds
    again.  Without the invariant nothing of this holds: after a load that
    ran out of surfaces the packer places a glyph over a cached one. *)
Theorem pack_never_overlaps tab_width junk font m codepoint width maxWidth maxHeight g font' :
  glyphs font = Some m ->
  FC_Map_wf m ->
  codepoint <> 9 \/ is_Some (FC_MapFind (glyphs font) 32) ->
  Uint16 maxWidth < 2 ^ 15 ->
  Uint16 maxHeight < 2 ^ 15 ->
  cursor_ok font ->
  packed_before font ->
  FC_PackGlyphData tab_width junk font codepoint width maxWidth maxHeight = (Some g, font') ->
  (forall k g0,
      FC_MapFind (glyphs font) k = Some g0 ->
      cache_level g0 = cache_level g ->
      rect_disjoint (rect g0) (rect g))
  /\ last_glyph font' = g
  /\ cursor_ok font'
  /\ packed_before font'.
Proof.
  intros Hg Hwf Hcp HmaxW HmaxH Hok Hinv Hpack.
  destruct (pack_step_moved tab_width junk font m codepoint width maxWidth maxHeight g font'
              Hg Hwf Hcp HmaxW HmaxH Hok Hpack) as (Hmoved & Hlevel & Hbounds & ->).
  pose proof (packed_before_moved font m codepoint g Hg Hwf Hok Hinv Hmoved Hlevel Hbounds)
    as [Hok' Hinv'].
  split; [|split; [reflexivity | split; assumption]].
  intros k g0 Hfind Hl.
  apply (before_cursor_disjoint (row_pitch font) (rect (last_glyph font)));
    [unfold row_pitch, Uint16; apply Z.mod_pos_bound; lia | | exact Hmoved].
  apply (Hinv k g0 Hfind). congruence.
Qed.

Lemma cursor_ok_at_load h : 0 <= h < 2 ^ 16 - 1 -> cursor_ok (font_at_load h).
Proof.
  intros Hh. unfold cursor_ok, row_pitch, font_at_load, FC_CACHE_PADDING.
  cbn [last_glyph rect rect_x rect_y rect_w rect_h height].
  rewrite Uint16_small by lia. lia.
Qed.

Lemma packed_before_at_load h : packed_before (font_at_load h).
Proof.
  intros k g Hfind. change (glyphs (font_at_load h))
    with (Some (FC_MapCreate FC_DEFAULT_NUM_BUCKETS)) in Hfind.
  rewrite FC_MapFind_empty in Hfind. discriminate.
Qed.

Lemma pack_never_overlaps_witness :
  let font := snd (FC_PackGlyphData 4 no_glyph (fresh_font 6) 97 6 120 120) in
  let g := FC_MakeGlyphData 0 11 1 6 10 in
  let font' := snd (FC_PackGlyphData 4 no_glyph font 98 6 120 120) in
  FC_MapFind (glyphs font) 97 = Some (FC_MakeGlyphData 0 3 1 6 10)
  /\ FC_PackGlyphData 4 no_glyph font 98 6 120 120 = (Some g, font')
  /\ rect_disjoint (rect (FC_MakeGlyphData 0 3 1 6 10)) (rect g)
  /\ last_glyph font' = g
  /\ cursor_ok font' /\ packed_before font'.
Proof.
  intros font g font'.
  (* the first glyph, into the empty map: the invariant holds afterwards *)
  destruct (pack_never_overlaps 4 no_glyph (fresh_font 6)
              (FC_MapCreate FC_DEFAULT_NUM_BUCKETS) 97 6 120 120
              (FC_MakeGlyphData 0 3 1 6 10) font) as (_ & _ & Hok & Hinv).
  { reflexivity. }
  { apply FC_MapCreate_wf. unfold FC_DEFAULT_NUM_BUCKETS. lia. }
  { left. discriminate. }
  { vm_compute. reflexivity. }
  { vm_compute. reflexivity. }
  { unfold cursor_ok, row_pitch, fresh_font, FC_CACHE_PADDING.
    cbn [last_glyph rect rect_x rect_y rect_w rect_h height].
    rewrite Uint16_small by lia. lia. }
  { intros k g0 Hfind. change (glyphs (fresh_font 6))
      with (Some (FC_MapCreate FC_DEFAULT_NUM_BUCKETS)) in Hfind.
    rewrite FC_MapFind_empty in Hfind. discriminate. }
  { vm_compute. reflexivity. }
  (* the second glyph, beside the first *)
  assert (Hfind : FC_MapFind (glyphs font) 97 = Some (FC_MakeGlyphData 0 3 1 6 10))
    by (vm_compute; reflexivity).
  destruct (pack_never_overlaps 4 no_glyph font
              (match glyphs font with
               | Some m => m
               | None => FC_MapCreate FC_DEFAULT_NUM_BUCKETS
               end)
              98 6 120 120 g font') as (Hapart & Hlast & Hok' & Hinv').
  { vm_compute. reflexivity. }
  { split; [vm_compute; split; reflexivity | vm_compute; reflexivity]. }
  { left. discriminate. }
  { vm_compute. reflexivity. }
  { vm_compute. reflexivity. }
  { exact Hok. }
  { exact Hinv. }
  { vm_compute. reflexivity. }
  split; [exact Hfind|]. split; [vm_compute; reflexivity|].
  split; [apply (Hapart 97); [exact Hfind | reflexivity]|].
  split; [exact Hlast|]. split; [exact Hok' | exact Hinv'].
Defined.

(** The packer at the start of the next row, as the source computes it:
    the cursor moves to [last.y + pitch] as an [int], and what is recorded
    is the cursor converted by [FC_MakeGlyphData] to its 16-bit fields. *)
Lemma pack_next_row tab_width junk font m codepoint width maxWidth maxHeight :
  glyphs font = Some m ->
  FC_Map_wf m ->
  FC_MapFind (Some m) codepoint = None ->
  codepoint <> 9 ->
  row_is_full (last_glyph font) (Uint16 width) (Uint16 maxWidth) = true ->
  level_is_full (last_glyph font) (row_pitch font) (Uint16 maxHeight) = false ->
  let last := rect (last_glyph font) in
  let y' := Sint32 (rect_y last + row_pitch font) in
  let placed := FC_MakeGlyphData (cache_level (last_glyph font)) 3 y'
                  (Uint16 width) (rect_h last) in
  exists font',
    FC_PackGlyphData tab_width junk font codepoint width maxWidth maxHeight
    = (Some placed, font')
    /\ FC_MapFind (glyphs font') codepoint = Some placed
    /\ last_glyph font'
       = {| rect := {| rect_x := 3; rect_y := y';
                       rect_w := Uint16 width; rect_h := rect_h last |};
            cache_level := cache_level (last_glyph font) |}.
Proof.
  intros Hg Hwf Habs Hne Hrow Hlevel last y' placed.
  rewrite pack_step by (left; exact Hne).
  unfold packed_width. destruct (Z.eqb_spec codepoint 9); [contradiction|].
  unfold pack_at_cursor. fold (row_pitch font). rewrite Hrow, Hlevel.
  cbn [rect cache_level rect_x rect_y rect_w rect_h].
  fold last. fold y'. change (Sint32 (FC_CACHE_PADDING + (0 + 1 + FC_CACHE_PADDING))) with 3.
  fold placed. rewrite Hg.
  destruct (FC_MapInsert_spec m codepoint placed Hwf) as (chain & Hc & E).
  pose proof (FC_MapFind_insert_new m codepoint placed Hwf Habs) as Hnew.
  rewrite E in *. cbn [snd] in Hnew.
  eexists. split; [reflexivity|]. split; [exact Hnew | reflexivity].
Qed.

(** X11. When a glyph other than TAB that is not yet in the map does not fit
    in the cursor's row and the level still has room for a row, it is
    recorded at the start of the next row: at x = 3 and one row pitch
    ([height + 1]) below the cursor, with its width, on the cursor's level;
    a lookup finds that rectangle and it is the new cursor.  This is for a
    cursor in the range of the 16-bit fields of a record (y not negative,
    the new y below 32768, height below 65536); beyond it the recorded y is
    wrapped to 16 bits and the cursor is not.  The width is not compared
    with the width of the level on this path. *)
Theorem pack_starts_next_row tab_width junk font m codepoint width maxWidth maxHeight :
  glyphs font = Some m ->
  FC_Map_wf m ->
  FC_MapFind (Some m) codepoint = None ->
  codepoint <> 9 ->
  row_is_full (last_glyph font) (Uint16 width) (Uint16 maxWidth) = true ->
  level_is_full (last_glyph font) (row_pitch font) (Uint16 maxHeight) = false ->
  let last := rect (last_glyph font) in
  0 <= rect_y last ->
  rect_y last + row_pitch font < 2 ^ 15 ->
  0 <= rect_h last < 2 ^ 16 ->
  let placed :=
    {| rect := {| rect_x := 3; rect_y := rect_y last + row_pitch font;
                  rect_w := Uint16 width; rect_h := rect_h last |};
       cache_level := cache_level (last_glyph font) |} in
  exists font',
    FC_PackGlyphData tab_width junk font codepoint width maxWidth maxHeight
    = (Some placed, font')
    /\ FC_MapFind (glyphs font') codepoint = Some placed
    /\ last_glyph font' = placed.
Proof.
  intros Hg Hwf Habs Hne Hrow Hlevel last Hy Hy' Hh placed.
  destruct (pack_next_row tab_width junk font m codepoint width maxWidth maxHeight
              Hg Hwf Habs Hne Hrow Hlevel) as (font' & Hpack & Hfind & Hlast).
  fold last in Hpack, Hfind, Hlast.
  assert (0 <= row_pitch font < 2 ^ 16) as Hpitch
    by (unfold row_pitch, Uint16; apply Z.mod_pos_bound; lia).
  assert (Hs : Sint32 (rect_y last + row_pitch font) = rect_y last + row_pitch font)
    by (apply Sint32_small; lia).
  assert (Hplaced : FC_MakeGlyphData (cache_level (last_glyph font)) 3
                      (Sint32 (rect_y last + row_pitch font)) (Uint16 width) (rect_h last)
                    = placed).
  { unfold FC_MakeGlyphData, placed. rewrite Hs.
    rewrite (Sint16_small 3) by lia.
    rewrite (Sint16_small (rect_y last + row_pitch font)) by lia.
    rewrite (Uint16_small (rect_h last)) by lia.
    rewrite (Uint16_small (Uint16 width)) by apply Z.mod_pos_bound, eq_refl.
    reflexivity. }
  rewrite Hplaced in Hpack, Hfind. rewrite Hs in Hlast.
  exists font'. split; [exact Hpack|]. split; [exact Hfind | exact Hlast].
Qed.

(** Beyond the range the record and the cursor part: with the cursor at
    y = 32760 in a level 65535 high, the cursor moves to y = 32771 and the
    glyph is recorded at y = -32765. *)
Lemma pack_next_row_wraps_to_16_bits :
  let '(placed, font') :=
    FC_PackGlyphData 4 no_glyph (font_with_cursor 6 110 32760 8 None) 103 6 120 65535 in
  option_map (fun g => rect_y (rect g)) placed = Some (- 32765)
  /\ rect_y (rect (last_glyph font')) = 32771.
Proof. vm_compute. split; reflexivity. Qed.

Lemma pack_starts_next_row_witness :
  exists font',
    FC_PackGlyphData 4 no_glyph (font_with_cursor 6 110 50 8 None) 103 6 120 120
    = (Some (FC_MakeGlyphData 0 3 61 6 10), font')
    /\ FC_MapFind (glyphs font') 103 = Some (FC_MakeGlyphData 0 3 61 6 10)
    /\ last_glyph font' = FC_MakeGlyphData 0 3 61 6 10.
Proof.
  destruct (insert_all_wf (FC_MapCreate FC_DEFAULT_NUM_BUCKETS)
              (map (fun cp => (cp, FC_MakeGlyphData 0 0 0 10 10)) [97; 98; 99; 100; 101; 102]))
    as (m & Hm & Hwf & _).
  { apply FC_MapCreate_wf. unfold FC_DEFAULT_NUM_BUCKETS. lia. }
  apply (pack_starts_next_row 4 no_glyph (font_with_cursor 6 110 50 8 None) m 103 6 120 120).
  - exact Hm.
  - exact Hwf.
  - rewrite <- Hm. reflexivity.
  - discriminate.
  - reflexivity.
  - reflexivity.
  - vm_compute. discriminate.
  - vm_compute. reflexivity.
  - vm_compute. split; [discriminate | reflexivity].
Defined.

(** ** Cache levels *)

Lemma FC_GetGlyphCacheLevel_slot font level :
  0 <= level <= glyph_cache_count font ->
  FC_GetGlyphCacheLevel font level = mjoin (glyph_cache font !! Z.to_nat level).
Proof.
  intros Hl. unfold FC_GetGlyphCacheLevel.
  destruct (Z.ltb_spec level 0); [lia|].
  destruct (Z.gtb_spec level (glyph_cache_count font)); [lia | reflexivity].
Qed.

(** X12. A texture stored with [FC_SetGlyphCacheLevel] at a level in use, or
    at the first free level, is what [FC_GetGlyphCacheLevel] returns for that
    level afterwards, and the other levels in use keep their textures; at
    the first free level the count grows by one and the array is enlarged
    when it is full.  A negative level or one beyond [count + 1] is refused
    and the font is unchanged.  The level [count + 1] is accepted as well:
    when that slot is inside the array ([count + 1 < size]) the texture is
    stored there without being counted, so that [FC_GetGlyphCacheLevel]
    returns null for it.  (When it is not, the source stores past the end
    of the array; nothing is stated for that.) *)
Theorem cache_level_set_then_get font level tex :
  cache_wf font ->
  (0 <= level <= glyph_cache_count font ->
   exists font',
     FC_SetGlyphCacheLevel font level tex = (true, font')
     /\ FC_GetGlyphCacheLevel font' level = tex
     /\ glyph_cache_count font'
        = (if level =? glyph_cache_count font then glyph_cache_count font + 1
           else glyph_cache_count font)
     /\ cache_wf font'
     /\ (forall other, 0 <= other < glyph_cache_count font -> other <> level ->
                       FC_GetGlyphCacheLevel font' other = FC_GetGlyphCacheLevel font other))
  /\ (level < 0 \/ glyph_cache_count font + 1 < level ->
      FC_SetGlyphCacheLevel font level tex = (false, font))
  /\ (level = glyph_cache_count font + 1 ->
      level < glyph_cache_size font ->
      exists font',
        FC_SetGlyphCacheLevel font level tex = (true, font')
        /\ glyph_cache_count font' = glyph_cache_count font
        /\ glyph_cache font' = <[Z.to_nat level := tex]> (glyph_cache font)
        /\ glyph_cache font' !! Z.to_nat level = Some tex
        /\ FC_GetGlyphCacheLevel font' level = None).
Proof.
  intros [Hc Hlen]. split; [|split].
  - intros Hl. unfold FC_SetGlyphCacheLevel.
    destruct (Z.ltb_spec level 0); [lia|].
    destruct (Z.gtb_spec level (glyph_cache_count font + 1)); [lia|].
    destruct (Z.eqb_spec level (glyph_cache_count font)) as [->|Hne].
    + destruct (Z.gtb_spec (glyph_cache_count font + 1) (glyph_cache_size font)) as [Hfull|Hroom].
      * (* the array is full: one slot more *)
        assert (glyph_cache_count font = glyph_cache_size font) as Heq by lia.
        eexists. split; [reflexivity|].
        cbn [set_glyph_cache glyph_cache glyph_cache_count glyph_cache_size].
        assert (Hnew : length (take (Z.to_nat (glyph_cache_size font)) (glyph_cache font)
                               ++ replicate (Z.to_nat (glyph_cache_count font + 1
                                                       - glyph_cache_size font)) None)
                       = Z.to_nat (glyph_cache_count font + 1)).
        { rewrite length_app, length_take, length_replicate. lia. }
        split; [|split; [reflexivity|split]].
        -- rewrite FC_GetGlyphCacheLevel_slot
             by (cbn [glyph_cache_count set_glyph_cache]; lia).
           cbn [glyph_cache set_glyph_cache].
           rewrite list_lookup_insert_eq by (rewrite Hnew; lia). reflexivity.
        -- unfold cache_wf.
           cbn [set_glyph_cache glyph_cache glyph_cache_count glyph_cache_size].
           split; [lia|]. by rewrite length_insert.
        -- intros other Ho Hne.
           rewrite !FC_GetGlyphCacheLevel_slot
             by (cbn [glyph_cache_count set_glyph_cache]; lia).
           cbn [glyph_cache set_glyph_cache].
           rewrite list_lookup_insert_ne by lia.
           rewrite lookup_app_l by (rewrite length_take; lia).
           rewrite lookup_take_lt by lia. reflexivity.
      * eexists. split; [reflexivity|].
        cbn [set_glyph_cache glyph_cache glyph_cache_count glyph_cache_size].
        split; [|split; [reflexivity|split]].
        -- rewrite FC_GetGlyphCacheLevel_slot
             by (cbn [glyph_cache_count set_glyph_cache]; lia).
           cbn [glyph_cache set_glyph_cache].
           rewrite list_lookup_insert_eq by lia. reflexivity.
        -- unfold cache_wf.
           cbn [set_glyph_cache glyph_cache glyph_cache_count glyph_cache_size].
           split; [lia|]. by rewrite length_insert.
        -- intros other Ho Hne.
           rewrite !FC_GetGlyphCacheLevel_slot
             by (cbn [glyph_cache_count set_glyph_cache]; lia).
           cbn [glyph_cache set_glyph_cache].
           rewrite list_lookup_insert_ne by lia. reflexivity.
    + eexists. split; [reflexivity|].
      cbn [set_glyph_cache glyph_cache glyph_cache_count glyph_cache_size].
      split; [|split; [reflexivity|split]].
      * rewrite FC_GetGlyphCacheLevel_slot
          by (cbn [glyph_cache_count set_glyph_cache]; lia).
        cbn [glyph_cache set_glyph_cache].
        rewrite list_lookup_insert_eq by lia. reflexivity.
      * unfold cache_wf.
        cbn [set_glyph_cache glyph_cache glyph_cache_count glyph_cache_size].
        split; [lia|]. by rewrite length_insert.
      * intros other Ho Hne'.
        rewrite !FC_GetGlyphCacheLevel_slot
          by (cbn [glyph_cache_count set_glyph_cache]; lia).
        cbn [glyph_cache set_glyph_cache].
        rewrite list_lookup_insert_ne by lia. reflexivity.
  - intros Hbad. unfold FC_SetGlyphCacheLevel.
    destruct (Z.ltb_spec level 0); [reflexivity|].
    destruct (Z.gtb_spec level (glyph_cache_count font + 1)); [reflexivity | lia].
  - intros -> Hin. unfold FC_SetGlyphCacheLevel.
    destruct (Z.ltb_spec (glyph_cache_count font + 1) 0); [lia|].
    destruct (Z.gtb_spec (glyph_cache_count font + 1) (glyph_cache_count font + 1)); [lia|].
    destruct (Z.eqb_spec (glyph_cache_count font + 1) (glyph_cache_count font)); [lia|].
    eexists. split; [reflexivity|]. split; [reflexivity|]. split; [reflexivity|].
    split; [cbn [glyph_cache set_glyph_cache]; apply list_lookup_insert_eq; lia|].
    unfold FC_GetGlyphCacheLevel. cbn [set_glyph_cache glyph_cache_count].
    destruct (Z.ltb_spec (glyph_cache_count font + 1) 0); [reflexivity|].
    destruct (Z.gtb_spec (glyph_cache_count font + 1) (glyph_cache_count font));
      [reflexivity | lia].
Qed.

Lemma cache_level_set_then_get_witness :
  exists font',
    FC_SetGlyphCacheLevel (FC_Init None None None) 0 (Some {| tex_w := 120; tex_h := 120 |})
    = (true, font')
    /\ FC_GetGlyphCacheLevel font' 0 = Some {| tex_w := 120; tex_h := 120 |}
    /\ glyph_cache_count font' = 1.
Proof.
  destruct (cache_level_set_then_get (FC_Init None None None) 0
              (Some {| tex_w := 120; tex_h := 120 |})) as [Hset _].
  - split; [cbn; lia | reflexivity].
  - destruct Hset as (font' & E & Hget & Hcount & _); [cbn; lia|].
    exists font'. split; [exact E|]. split; [exact Hget | exact Hcount].
Defined.

(** ** Glyph provider, continued *)

Lemma same_settings_refl font : same_settings font font.
Proof. by repeat split. Qed.

Lemma same_settings_trans f1 f2 f3 :
  same_settings f1 f2 -> same_settings f2 f3 -> same_settings f1 f3.
Proof. unfold same_settings. intros (?&?&?&?&?) (?&?&?&?&?). repeat split; congruence. Qed.

Lemma may_change_32_not_9 k : ~ may_change 9 k -> ~ may_change 32 k.
Proof. unfold may_change. intros H [->|[[=] _]]. apply H. right. by split. Qed.

(** A failure that left the map as it was. *)
Lemma map_effect_unchanged codepoint font font' :
  font_map_wf font ->
  glyphs font' = glyphs font ->
  same_settings font font' ->
  map_effect codepoint None font font'.
Proof.
  intros Hwf Hg Hs. unfold map_effect, font_map_wf. rewrite Hg.
  split; [exact Hwf|]. split; [exact Hs|].
  split; [auto|]. split; [auto|]. split; [discriminate | auto].
Qed.

(** An insert for the codepoint. *)
Lemma map_effect_insert font m codepoint g lg :
  glyphs font = Some m ->
  FC_Map_wf m ->
  map_effect codepoint (Some g) font
    (set_glyphs (set_last_glyph font lg) (snd (FC_MapInsert (Some m) codepoint g))).
Proof.
  intros Hg Hwf. unfold map_effect, font_map_wf.
  cbn [glyphs set_glyphs]. rewrite Hg.
  destruct (FC_MapInsert_wf m codepoint g Hwf) as (m' & E & Hwf' & _).
  split; [exists m'; by split|]. split; [by repeat split|].
  split; [intros k v Hf; by apply FC_MapFind_stable|].
  split; [|split; [|discriminate]].
  - intros k Hk. apply FC_MapFind_insert_other; [exact Hwf|].
    intros ->. apply Hk. by left.
  - intros g' [= <-] Hnone. by apply FC_MapFind_insert_new.
Qed.

(** A second attempt after a failure. *)
Lemma map_effect_retry codepoint r f f1 f' :
  map_effect codepoint None f f1 -> map_effect codepoint r f1 f' ->
  map_effect codepoint r f f'.
Proof.
  intros (_ & Hs1 & Hst1 & Hch1 & _ & Hn1) (Hwf & Hs2 & Hst2 & Hch2 & Hf2 & Hn2).
  specialize (Hn1 eq_refl).
  split; [exact Hwf|]. split; [by eapply same_settings_trans|].
  split; [auto|]. split; [|split].
  - intros k Hk. rewrite Hch2, Hch1 by exact Hk. reflexivity.
  - intros g Hr Hnone. apply Hf2; [exact Hr | congruence].
  - intros Hr. rewrite Hn2 by exact Hr. exact Hn1.
Qed.

(** A request for TAB: the space is fetched first. *)
Lemma map_effect_tab r1 r f f1 f' :
  map_effect 32 r1 f f1 -> map_effect 9 r f1 f' -> map_effect 9 r f f'.
Proof.
  intros (_ & Hs1 & Hst1 & Hch1 & _ & _) (Hwf & Hs2 & Hst2 & Hch2 & Hf2 & Hn2).
  assert (Hnine : FC_MapFind (glyphs f1) 9 = FC_MapFind (glyphs f) 9).
  { apply Hch1. unfold may_change. intros [[=]|[[=] _]]. }
  split; [exact Hwf|]. split; [by eapply same_settings_trans|].
  split; [auto|]. split; [|split].
  - intros k Hk. rewrite Hch2 by exact Hk. apply Hch1. by apply may_change_32_not_9.
  - intros g Hr Hnone. apply Hf2; [exact Hr | congruence].
  - intros Hr. rewrite Hn2 by exact Hr. exact Hnine.
Qed.

Lemma pack_at_cursor_effect font codepoint width maxWidth maxHeight :
  font_map_wf font ->
  map_effect codepoint (fst (pack_at_cursor font codepoint width maxWidth maxHeight))
    font (snd (pack_at_cursor font codepoint width maxWidth maxHeight)).
Proof.
  intros Hwf. pose proof Hwf as (m & Hg & Hm). unfold pack_at_cursor.
  destruct (row_is_full _ _ _); [destruct (level_is_full _ _ _)|].
  - cbn [fst snd]. apply map_effect_unchanged;
      [exact Hwf | reflexivity | by repeat split].
  - rewrite Hg.
    match goal with |- context [FC_MapInsert (Some m) codepoint ?g] =>
      destruct (FC_MapInsert_spec m codepoint g Hm) as (chain & _ & E);
      pose proof (map_effect_insert font m codepoint g) as Heff
    end.
    rewrite E in *. cbn [fst snd] in *. by apply Heff.
  - rewrite Hg.
    match goal with |- context [FC_MapInsert (Some m) codepoint ?g] =>
      destruct (FC_MapInsert_spec m codepoint g Hm) as (chain & _ & E);
      pose proof (map_effect_insert font m codepoint g) as Heff
    end.
    rewrite E in *. cbn [fst snd] in *. by apply Heff.
Qed.

Lemma FC_SetGlyphCacheLevel_frame font level tex :
  let font' := snd (FC_SetGlyphCacheLevel font level tex) in
  glyphs font' = glyphs font /\ last_glyph font' = last_glyph font
  /\ same_settings font font'.
Proof.
  unfold FC_SetGlyphCacheLevel, same_settings.
  destruct (level <? 0); [by repeat split|].
  destruct (level >? glyph_cache_count font + 1); [by repeat split|].
  destruct (level =? glyph_cache_count font);
    [destruct (glyph_cache_count font + 1 >? glyph_cache_size font)|];
    by repeat split.
Qed.

Lemma FC_GrowGlyphCache_frame font :
  let font' := snd (FC_GrowGlyphCache font) in
  glyphs font' = glyphs font /\ last_glyph font' = last_glyph font
  /\ same_settings font font'.
Proof.
  unfold FC_GrowGlyphCache.
  destruct (SDL_CreateTexture _ _ _) as [tex|];
    [|split; [reflexivity|]; split; [reflexivity | apply same_settings_refl]].
  pose proof (FC_SetGlyphCacheLevel_frame font (glyph_cache_count font) (Some tex)) as H.
  destruct (FC_SetGlyphCacheLevel _ _ _) as [[|] font']; exact H.
Qed.

Section ProviderEffect.

Variable tab_width : Z.
Variable junk : FC_GlyphData.

Lemma pack_body_effect (get : FC_Font -> Z -> option FC_GlyphData * FC_Font) :
  (forall font, font_map_wf font ->
                map_effect 32 (fst (get font 32)) font (snd (get font 32))) ->
  forall font codepoint width maxWidth maxHeight,
    font_map_wf font ->
    let res := FC_PackGlyphData_body tab_width junk get font codepoint
                 width maxWidth maxHeight in
    map_effect codepoint (fst res) font (snd res).
Proof.
  intros Hget font codepoint width maxWidth maxHeight Hwf res. subst res.
  unfold FC_PackGlyphData_body.
  destruct (Z.eqb_spec codepoint 9) as [->|Hne]; [|by apply pack_at_cursor_effect].
  specialize (Hget font Hwf). destruct (get font 32) as [found font1].
  cbn [fst snd] in Hget.
  eapply map_effect_tab; [exact Hget|].
  apply pack_at_cursor_effect. apply Hget.
Qed.

Lemma get_body_effect
    (pack : FC_Font -> Z -> Z -> Z -> Z -> option FC_GlyphData * FC_Font) :
  (forall font codepoint width maxWidth maxHeight,
      font_map_wf font ->
      map_effect codepoint (fst (pack font codepoint width maxWidth maxHeight))
        font (snd (pack font codepoint width maxWidth maxHeight))) ->
  forall font codepoint,
    font_map_wf font ->
    FC_MapFind (glyphs font) codepoint = None ->
    map_effect codepoint (fst (FC_GetGlyphData_body pack font codepoint))
      font (snd (FC_GetGlyphData_body pack font codepoint)).
Proof.
  intros Hpack font codepoint Hwf Hnone. unfold FC_GetGlyphData_body. rewrite Hnone.
  assert (Hsame : map_effect codepoint None font font)
    by (apply map_effect_unchanged; [exact Hwf | reflexivity | apply same_settings_refl]).
  destruct (ttf_source font) as [ttf|]; [|exact Hsame].
  destruct (FC_GetGlyphCacheLevel _ _) as [img|]; [|exact Hsame].
  destruct (TTF_RenderUTF8_Blended _ _) as [surf|]; [|exact Hsame].
  pose proof (Hpack font codepoint (surf_w surf) (tex_w img) (tex_h img) Hwf) as H1.
  destruct (pack font codepoint _ _ _) as [[e|] font1]; cbn [fst snd] in H1; [exact H1|].
  pose proof (FC_GrowGlyphCache_frame font1) as (Hg & _ & Hs).
  destruct (FC_GrowGlyphCache font1) as [ok font2]. cbn [snd] in Hg, Hs.
  assert (H2 : map_effect codepoint None font1 font2)
    by (apply map_effect_unchanged; [apply H1 | exact Hg | exact Hs]).
  eapply map_effect_retry; [exact H1|].
  eapply map_effect_retry; [exact H2|].
  apply Hpack. apply H2.
Qed.

Lemma FC_GetGlyphData_space_effect font :
  font_map_wf font ->
  map_effect 32 (fst (FC_GetGlyphData_space tab_width junk font 32))
    font (snd (FC_GetGlyphData_space tab_width junk font 32)).
Proof.
  intros Hwf. unfold FC_GetGlyphData_space.
  destruct (FC_MapFind (glyphs font) 32) as [e|] eqn:E.
  - unfold FC_GetGlyphData_body. rewrite E. cbn [fst snd].
    unfold map_effect. split; [exact Hwf|]. split; [apply same_settings_refl|].
    split; [auto|]. split; [auto|]. split; [congruence | discriminate].
  - apply get_body_effect; [|exact Hwf | exact E].
    intros f cp w mw mh Hf. apply (pack_body_effect (fun font0 _ => (None, font0))); [|exact Hf].
    intros f0 Hf0. cbn [fst snd].
    apply map_effect_unchanged; [exact Hf0 | reflexivity | apply same_settings_refl].
Qed.

Lemma FC_PackGlyphData_effect font codepoint width maxWidth maxHeight :
  font_map_wf font ->
  map_effect codepoint
    (fst (FC_PackGlyphData tab_width junk font codepoint width maxWidth maxHeight))
    font (snd (FC_PackGlyphData tab_width junk font codepoint width maxWidth maxHeight)).
Proof.
  intros Hwf. unfold FC_PackGlyphData.
  apply (pack_body_effect (FC_GetGlyphData_space tab_width junk)); [|exact Hwf].
  apply FC_GetGlyphData_space_effect.
Qed.

Lemma FC_GetGlyphData_effect font codepoint :
  font_map_wf font ->
  FC_MapFind (glyphs font) codepoint = None ->
  map_effect codepoint (fst (FC_GetGlyphData tab_width junk font codepoint))
    font (snd (FC_GetGlyphData tab_width junk font codepoint)).
Proof.
  intros Hwf Hnone. unfold FC_GetGlyphData.
  apply get_body_effect; [|exact Hwf | exact Hnone].
  intros f cp w mw mh Hf. by apply FC_PackGlyphData_effect.
Qed.

End ProviderEffect.

(** X13. [FC_GetGlyphData] works as a cache that only grows.  Whatever it
    returns, every glyph that a lookup found before the call is found with
    the same data after it, only the entry of the requested codepoint (and
    of the space, for TAB) can differ, and the font keeps its height, its
    spacings, its rasterizer and its renderer.  When it returns a glyph, a
    lookup finds that glyph afterwards, and a second call returns it again
    without touching the font. *)
Theorem provider_cache_only_grows tab_width junk font codepoint :
  font_map_wf font ->
  let r := fst (FC_GetGlyphData tab_width junk font codepoint) in
  let font' := snd (FC_GetGlyphData tab_width junk font codepoint) in
  font_map_wf font'
  /\ same_settings font font'
  /\ (forall k v, FC_MapFind (glyphs font) k = Some v -> FC_MapFind (glyphs font') k = Some v)
  /\ (forall k, k <> codepoint -> ~ (codepoint = 9 /\ k = 32) ->
                FC_MapFind (glyphs font') k = FC_MapFind (glyphs font) k)
  /\ (forall g, r = Some g ->
                FC_MapFind (glyphs font') codepoint = Some g
                /\ FC_GetGlyphData tab_width junk font' codepoint = (Some g, font')).
Proof.
  intros Hwf r font'. subst r font'.
  destruct (FC_MapFind (glyphs font) codepoint) as [e|] eqn:E.
  - rewrite (FC_GetGlyphData_cached tab_width junk font codepoint e E). cbn [fst snd].
    split; [exact Hwf|]. split; [apply same_settings_refl|].
    split; [auto|]. split; [auto|].
    intros g [= <-]. split; [exact E | by apply FC_GetGlyphData_cached].
  - pose proof (FC_GetGlyphData_effect tab_width junk font codepoint Hwf E)
      as (Hwf' & Hs & Hst & Hch & Hf & _).
    split; [exact Hwf'|]. split; [exact Hs|]. split; [exact Hst|]. split.
    + intros k Hk Htab. apply Hch. unfold may_change. tauto.
    + intros g Hr. specialize (Hf g Hr E). split; [exact Hf|].
      by apply FC_GetGlyphData_cached.
Qed.

Lemma provider_cache_only_grows_witness :
  let font := font_with_cursor 6 3 1 10 (Some any_size_renderer) in
  let font' := snd (FC_GetGlyphData 4 no_glyph font 103) in
  FC_MapFind (glyphs font') 103 = Some (FC_MakeGlyphData 0 15 1 6 10)
  /\ FC_GetGlyphData 4 no_glyph font' 103 = (Some (FC_MakeGlyphData 0 15 1 6 10), font').
Proof.
  intros font font'.
  destruct (provider_cache_only_grows 4 no_glyph font 103) as (_ & _ & _ & _ & Hres).
  - eexists. split; [vm_compute; reflexivity|]. split; [cbn; lia | reflexivity].
  - apply Hres. reflexivity.
Defined.

(** The packer's failure: what [FC_PackGlyphData] leaves when it returns
    null. *)
Lemma pack_step_exhausted tab_width junk font m codepoint width maxWidth maxHeight font1 :
  glyphs font = Some m ->
  FC_Map_wf m ->
  codepoint <> 9 \/ is_Some (FC_MapFind (glyphs font) 32) ->
  Uint16 maxWidth < 2 ^ 15 ->
  Uint16 maxHeight < 2 ^ 15 ->
  cursor_ok font ->
  FC_PackGlyphData tab_width junk font codepoint width maxWidth maxHeight = (None, font1) ->
  font1 = set_last_glyph font
            {| rect := {| rect_x := 1; rect_y := 1; rect_w := 0;
                          rect_h := rect_h (rect (last_glyph font)) |};
               cache_level := glyph_cache_count font |}.
Proof.
  intros Hg Hwf Hcp HmaxW HmaxH Hok Hpack.
  rewrite pack_step in Hpack by exact Hcp.
  pose proof (packed_width_range tab_width font codepoint width) as Hwidth.
  pose proof (pack_at_cursor_cases font m codepoint
                (packed_width tab_width font codepoint width)
                (Uint16 maxWidth) (Uint16 maxHeight)
                Hg Hwf Hok Hwidth HmaxW HmaxH) as Hcases.
  cbv zeta in Hcases.
  destruct (_ >=? Uint16 maxWidth - 1); [destruct (_ >=? Uint16 maxHeight - 1)|];
    rewrite Hcases in Hpack; [|discriminate..].
  by injection Hpack as <-.
Qed.

(** X14. [FC_GetGlyphData] never places a new glyph over a cached one.  For
    a font whose cached glyphs have all been passed by the cursor and lie
    on levels in use, whose cursor's level is smaller than 32768 pixels,
    a glyph returned for a codepoint that was not cached (other than a TAB
    that still has to fetch the space) overlaps no glyph found on its level
    before the call, also when the level was full and the glyph went to a
    newly added level.  The glyph is the cursor afterwards, the invariant
    holds again, and the levels are in use again unless the new level could
    not be created. *)
Theorem provider_never_overlaps tab_width junk font codepoint g font' :
  font_map_wf font ->
  cursor_ok font ->
  packed_before font ->
  levels_in_use font ->
  codepoint <> 9 \/ is_Some (FC_MapFind (glyphs font) 32) ->
  FC_MapFind (glyphs font) codepoint = None ->
  (forall img,
      FC_GetGlyphCacheLevel font (cache_level (last_glyph font)) = Some img ->
      Uint16 (tex_w img) < 2 ^ 15 /\ Uint16 (tex_h img) < 2 ^ 15) ->
  FC_GetGlyphData tab_width junk font codepoint = (Some g, font') ->
  (forall k g0,
      FC_MapFind (glyphs font) k = Some g0 ->
      cache_level g0 = cache_level g ->
      rect_disjoint (rect g0) (rect g))
  /\ last_glyph font' = g
  /\ cursor_ok font'
  /\ packed_before font'
  /\ (cache_level g < glyph_cache_count font' -> levels_in_use font').
Proof.
  intros Hwf Hok Hinv [Hlevels Hcursor] Hcp Hnone Hsize Hget.
  pose proof Hwf as (m & Hg & Hm).
  (* the levels afterwards *)
  assert (Hafter : 0 <= cache_level g -> cache_level g < glyph_cache_count font' ->
                   last_glyph font' = g -> levels_in_use font').
  { intros Hge Hlt Hlast.
    pose proof (FC_GetGlyphData_effect tab_width junk font codepoint Hwf Hnone)
      as (_ & _ & Hst & Hch & Hf & _).
    pose proof (FC_GetGlyphData_body_count (FC_PackGlyphData tab_width junk) font codepoint)
      as Hcount.
    fold (FC_GetGlyphData tab_width junk) in Hcount.
    rewrite Hget in Hst, Hch, Hf, Hcount. cbn [fst snd] in Hst, Hch, Hf, Hcount.
    specialize (Hf g eq_refl Hnone).
    assert (glyph_cache_count font <= glyph_cache_count font') as Hle.
    { apply Hcount; [|lia]. intros f cp w mw mh Hf0. by apply FC_PackGlyphData_count. }
    split; [|rewrite Hlast; lia].
    intros k g0 Hfind.
    destruct (Z.eq_dec k codepoint) as [->|Hne].
    { rewrite Hf in Hfind. by injection Hfind as <-. }
    destruct (FC_MapFind (glyphs font) k) as [v|] eqn:Hk.
    - rewrite (Hst k v Hk) in Hfind. injection Hfind as <-.
      specialize (Hlevels k v Hk). lia.
    - rewrite Hch, Hk in Hfind; [discriminate|].
      unfold may_change. intros [->|[-> ->]]; [contradiction|].
      destruct Hcp as [Hcp|[sp Hsp]]; [contradiction | congruence]. }
  revert Hget. unfold FC_GetGlyphData, FC_GetGlyphData_body. rewrite Hnone.
  destruct (ttf_source font) as [ttf|]; [|discriminate].
  destruct (FC_GetGlyphCacheLevel font (cache_level (last_glyph font)))
    as [img|] eqn:Himg; [|discriminate].
  destruct (TTF_RenderUTF8_Blended ttf _) as [surf|]; [|discriminate].
  fold (FC_PackGlyphData tab_width junk).
  destruct (Hsize img eq_refl) as [HmaxW HmaxH].
  destruct (FC_PackGlyphData tab_width junk font codepoint _ _ _) as [[e|] font1] eqn:Hp1.
  - (* the glyph fits on the cursor's level *)
    intros [= <- <-]. intros.
    destruct (pack_step_moved tab_width junk font m codepoint _ _ _ e font1
                Hg Hm Hcp HmaxW HmaxH Hok Hp1) as (Hmoved & Hlevel & Hbounds & E).
    pose proof (packed_before_moved font m codepoint e Hg Hm Hok Hinv Hmoved Hlevel Hbounds)
      as [Hok' Hinv'].
    rewrite <- E in Hok', Hinv'.
    assert (last_glyph font1 = e) as Hlast by (rewrite E; reflexivity).
    split; [|split; [exact Hlast | split; [exact Hok' | split; [exact Hinv'|]]]].
    + intros k g0 Hfind Hl.
      apply (before_cursor_disjoint (row_pitch font) (rect (last_glyph font)));
        [unfold row_pitch, Uint16; apply Z.mod_pos_bound; lia | | exact Hmoved].
      apply (Hinv k g0 Hfind). congruence.
    + intros Hlt. apply Hafter; [lia | exact Hlt | exact Hlast].
  - (* the level is full: the glyph goes to the level index [glyph_cache_count] *)
    pose proof (pack_step_exhausted tab_width junk font m codepoint _ _ _ font1
                  Hg Hm Hcp HmaxW HmaxH Hok Hp1) as ->.
    match goal with |- context [FC_GrowGlyphCache ?f] =>
      pose proof (FC_GrowGlyphCache_frame f) as (Hg2 & Hl2 & (Hh2 & _));
      destruct (FC_GrowGlyphCache f) as [ok font2]
    end.
    cbn [snd glyphs last_glyph set_last_glyph height] in Hg2, Hl2, Hh2.
    intros Hp2. intros.
    assert (Hg2' : glyphs font2 = Some m) by congruence.
    assert (Hok2 : cursor_ok font2).
    { destruct Hok as (_ & _ & _ & _ & Hh).
      unfold cursor_ok, row_pitch. rewrite Hl2, Hh2.
      cbn [rect rect_x rect_y rect_w rect_h]. fold (row_pitch font). lia. }
    assert (Hinv2 : packed_before font2).
    { intros k g0 Hfind Hl. rewrite Hg2 in Hfind. rewrite Hl2 in Hl. cbn [cache_level] in Hl.
      specialize (Hlevels k g0 Hfind). lia. }
    destruct (pack_step_moved tab_width junk font2 m codepoint _ _ _ g font'
                Hg2' Hm ltac:(rewrite Hg2; exact Hcp) HmaxW HmaxH Hok2 Hp2)
      as (Hmoved & Hlevel & Hbounds & E).
    pose proof (packed_before_moved font2 m codepoint g Hg2' Hm Hok2 Hinv2
                  Hmoved Hlevel Hbounds) as [Hok' Hinv'].
    rewrite <- E in Hok', Hinv'.
    assert (last_glyph font' = g) as Hlast by (rewrite E; reflexivity).
    split; [|split; [exact Hlast | split; [exact Hok' | split; [exact Hinv'|]]]].
    + intros k g0 Hfind Hl.
      rewrite Hlevel, Hl2 in Hl. cbn [cache_level] in Hl.
      specialize (Hlevels k g0 Hfind). lia.
    + intros Hlt. apply Hafter; [|exact Hlt | exact Hlast].
      rewrite Hlevel, Hl2. cbn [cache_level]. lia.
Qed.

Lemma provider_never_overlaps_witness :
  let font := snd (FC_GetGlyphData 4 no_glyph (fresh_font 6) 103) in
  let g := FC_MakeGlyphData 0 11 1 6 10 in
  let font' := snd (FC_GetGlyphData 4 no_glyph font 104) in
  FC_MapFind (glyphs font) 103 = Some (FC_MakeGlyphData 0 3 1 6 10)
  /\ FC_GetGlyphData 4 no_glyph font 104 = (Some g, font')
  /\ rect_disjoint (rect (FC_MakeGlyphData 0 3 1 6 10)) (rect g)
  /\ last_glyph font' = g
  /\ cursor_ok font' /\ packed_before font' /\ levels_in_use font'.
Proof.
  intros font g font'.
  (* the first glyph, into the empty map *)
  destruct (provider_never_overlaps 4 no_glyph (fresh_font 6) 103
              (FC_MakeGlyphData 0 3 1 6 10) font) as (_ & _ & Hok & Hinv & Hlev).
  { eexists. split; [reflexivity|]. apply FC_MapCreate_wf. unfold FC_DEFAULT_NUM_BUCKETS. lia. }
  { unfold cursor_ok, row_pitch, fresh_font, FC_CACHE_PADDING.
    cbn [last_glyph rect rect_x rect_y rect_w rect_h height].
    rewrite Uint16_small by lia. lia. }
  { intros k g0 Hfind. change (glyphs (fresh_font 6))
      with (Some (FC_MapCreate FC_DEFAULT_NUM_BUCKETS)) in Hfind.
    rewrite FC_MapFind_empty in Hfind. discriminate. }
  { split; [|cbn; lia].
    intros k g0 Hfind. change (glyphs (fresh_font 6))
      with (Some (FC_MapCreate FC_DEFAULT_NUM_BUCKETS)) in Hfind.
    rewrite FC_MapFind_empty in Hfind. discriminate. }
  { left. discriminate. }
  { reflexivity. }
  { intros img [= <-]. split; vm_compute; reflexivity. }
  { vm_compute. reflexivity. }
  specialize (Hlev ltac:(vm_compute; reflexivity)).
  (* the second glyph, beside the first *)
  assert (Hfind : FC_MapFind (glyphs font) 103 = Some (FC_MakeGlyphData 0 3 1 6 10))
    by (vm_compute; reflexivity).
  destruct (provider_never_overlaps 4 no_glyph font 104 g font')
    as (Hapart & Hlast & Hok' & Hinv' & Hlev').
  { exists (match glyphs font with
            | Some m => m
            | None => FC_MapCreate FC_DEFAULT_NUM_BUCKETS
            end).
    split; [vm_compute; reflexivity|].
    split; [vm_compute; split; reflexivity | vm_compute; reflexivity]. }
  { exact Hok. }
  { exact Hinv. }
  { exact Hlev. }
  { left. discriminate. }
  { vm_compute. reflexivity. }
  { intros img Himg. vm_compute in Himg. injection Himg as <-.
    split; vm_compute; reflexivity. }
  { vm_compute. reflexivity. }
  split; [exact Hfind|]. split; [vm_compute; reflexivity|].
  split; [apply (Hapart 103); [exact Hfind | reflexivity]|].
  split; [exact Hlast|]. split; [exact Hok'|]. split; [exact Hinv'|].
  apply Hlev'. vm_compute. reflexivity.
Defined.

(** ** Splitting and wrapping, continued *)

Lemma explode_from_join text delimiter cur :
  join_with delimiter (explode_from text delimiter cur) = cur ++ text
  /\ explode_from text delimiter cur <> [].
Proof.
  revert cur. induction text as [|b rest IH]; intros cur; cbn [explode_from].
  - split; [by rewrite app_nil_r | discriminate].
  - destruct (Byte.eqb b delimiter) eqn:Hb.
    + apply Byte.byte_dec_bl in Hb. subst b.
      destruct (IH []) as [Hj Hne]. split; [|discriminate].
      destruct (explode_from rest delimiter []) as [|p ps] eqn:E; [contradiction|].
      cbn [join_with]. cbn [join_with] in Hj. rewrite Hj. reflexivity.
    + destruct (IH (cur ++ [b])) as [Hj Hne]. split; [|exact Hne].
      rewrite Hj. by rewrite <- app_assoc.
Qed.

Lemma explode_from_pieces text delimiter cur :
  delimiter ∉ cur ->
  Forall (fun piece => delimiter ∉ piece) (explode_from text delimiter cur).
Proof.
  revert cur. induction text as [|b rest IH]; intros cur Hcur; cbn [explode_from].
  - by constructor.
  - destruct (Byte.eqb b delimiter) eqn:Hb.
    + constructor; [exact Hcur|]. apply IH. apply not_elem_of_nil.
    + apply IH. rewrite elem_of_app, list_elem_of_singleton.
      intros [H | Heq]; [by apply Hcur|]. subst b.
      rewrite Byte.byte_dec_lb in Hb by reflexivity. discriminate.
Qed.

Lemma explode_from_cur text delimiter cur :
  explode_from text delimiter cur
  = match explode_from text delimiter [] with
    | [] => []
    | piece :: pieces => (cur ++ piece) :: pieces
    end.
Proof.
  revert cur. induction text as [|b rest IH]; intros cur; cbn [explode_from].
  - by rewrite app_nil_r.
  - destruct (Byte.eqb b delimiter); [by rewrite app_nil_r|].
    cbn [app]. rewrite (IH (cur ++ [b])), (IH [b]).
    destruct (explode_from rest delimiter []); [reflexivity|].
    by rewrite <- app_assoc.
Qed.

Lemma explode_keep_from_explode text delimiter cur :
  explode_keep_from text delimiter cur
  = match explode_from text delimiter [] with
    | [] => []
    | piece :: pieces => (cur ++ piece) :: map (cons delimiter) pieces
    end.
Proof.
  revert cur. induction text as [|b rest IH]; intros cur;
    cbn [explode_keep_from explode_from].
  - by rewrite app_nil_r.
  - destruct (Byte.eqb b delimiter) eqn:Hb.
    + apply Byte.byte_dec_bl in Hb. subst b.
      rewrite app_nil_r, (IH [delimiter]).
      destruct (explode_from rest delimiter []) as [|p ps] eqn:E;
        [by destruct (explode_from_join rest delimiter []) as [_ Hne]|].
      reflexivity.
    + cbn [app]. rewrite (IH (cur ++ [b])), (explode_from_cur rest delimiter [b]).
      destruct (explode_from rest delimiter []) as [|p ps]; [reflexivity|].
      by rewrite <- app_assoc.
Qed.

Lemma concat_kept_pieces delimiter piece (pieces : list cstring) :
  concat (piece :: map (cons delimiter) pieces) = join_with delimiter (piece :: pieces).
Proof.
  revert piece. induction pieces as [|p ps IH]; intros piece.
  - cbn. by rewrite app_nil_r.
  - change (concat (piece :: map (cons delimiter) (p :: ps)))
      with (piece ++ delimiter :: concat (p :: map (cons delimiter) ps)).
    rewrite (IH p). reflexivity.
Qed.

(** X15. Splitting loses nothing.  The pieces of [FC_Explode] joined with the
    delimiter between them are the text again, and no piece contains the
    delimiter.  [FC_ExplodeAndKeep] gives the same pieces with the delimiter
    in front of every piece but the first, so its pieces concatenated are
    the text. *)
Theorem explode_pieces_rebuild_text text delimiter :
  join_with delimiter (FC_Explode text delimiter) = text
  /\ Forall (fun piece => delimiter ∉ piece) (FC_Explode text delimiter)
  /\ (exists piece pieces,
        FC_Explode text delimiter = piece :: pieces
        /\ FC_ExplodeAndKeep text delimiter = piece :: map (cons delimiter) pieces)
  /\ concat (FC_ExplodeAndKeep text delimiter) = text.
Proof.
  unfold FC_Explode, FC_ExplodeAndKeep.
  destruct (explode_from_join text delimiter []) as [Hj Hne].
  pose proof (explode_keep_from_explode text delimiter []) as Hk.
  destruct (explode_from text delimiter []) as [|piece pieces] eqn:E; [contradiction|].
  cbn [app] in Hk, Hj.
  split; [exact Hj|]. split; [|split].
  - rewrite <- E. apply explode_from_pieces. apply not_elem_of_nil.
  - exists piece, pieces. by split.
  - rewrite Hk. rewrite <- Hj. apply concat_kept_pieces.
Qed.

Lemma explode_pieces_concat_kept text delimiter :
  concat (FC_ExplodeAndKeep text delimiter) = text.
Proof.
  unfold FC_ExplodeAndKeep.
  destruct (explode_from_join text delimiter []) as [Hj Hne].
  rewrite explode_keep_from_explode.
  destruct (explode_from text delimiter []) as [|piece pieces]; [contradiction|].
  cbn [app] in Hj |- *. rewrite concat_kept_pieces. exact Hj.
Qed.

Lemma explode_from_concat text delimiter cur :
  concat (explode_from text delimiter cur)
  = cur ++ List.filter (fun b => negb (Byte.eqb b delimiter)) text.
Proof.
  revert cur. induction text as [|b rest IH]; intros cur; cbn [explode_from List.filter].
  - cbn. reflexivity.
  - destruct (Byte.eqb b delimiter); cbn [negb concat].
    + by rewrite IH.
    + rewrite IH. by rewrite <- app_assoc.
Qed.

Lemma explode_space_from_concat text cur :
  exists word words space spaces,
    explode_space_from text cur = (word :: words, space :: spaces)
    /\ word ++ space ++ concat (zip_with app words spaces) = cur ++ text.
Proof.
  revert cur. induction text as [|b rest IH]; intros cur; cbn [explode_space_from].
  - exists cur, [], [], []. split; [reflexivity|]. cbn. reflexivity.
  - destruct (is_breaking_space b).
    + destruct (IH []) as (w & ws & s & ss & E & Hc). rewrite E.
      exists cur, (w :: ws), [b], (s :: ss). split; [reflexivity|].
      cbn [zip_with concat app]. rewrite <- app_assoc, Hc. reflexivity.
    + destruct (IH (cur ++ [b])) as (w & ws & s & ss & E & Hc). rewrite E.
      exists w, ws, s, ss. split; [reflexivity|]. rewrite Hc. by rewrite <- app_assoc.
Qed.

Lemma explode_space_from_shape text cur :
  is_word cur ->
  let '(words, spaces) := explode_space_from text cur in
  length words = length spaces
  /\ concat (zip_with app words spaces) = cur ++ text
  /\ Forall is_word words
  /\ (exists separators,
        spaces = separators ++ [[]]
        /\ Forall (fun s => s = [char_space] \/ s = [char_tab]) separators).
Proof.
  revert cur. induction text as [|b rest IH]; intros cur Hcur; cbn [explode_space_from].
  - split; [reflexivity|]. split; [cbn; by rewrite !app_nil_r|].
    split; [by constructor|]. exists []. by split.
  - destruct (is_breaking_space b) eqn:Hb.
    + specialize (IH [] ltac:(constructor)).
      destruct (explode_space_from rest []) as [words spaces].
      destruct IH as (Hlen & Hcat & Hw & seps & -> & Hseps).
      split; [cbn [length]; by rewrite Hlen|].
      split; [cbn [zip_with concat]; rewrite Hcat, <- app_assoc; reflexivity|].
      split; [by constructor|].
      exists ([b] :: seps). split; [reflexivity|]. constructor; [|exact Hseps].
      unfold is_breaking_space in Hb. apply orb_prop in Hb as [Hb|Hb];
        apply Byte.byte_dec_bl in Hb; subst b; [by left | by right].
    + specialize (IH (cur ++ [b])).
      destruct (explode_space_from rest (cur ++ [b])) as [words spaces].
      destruct IH as (Hlen & Hcat & Hw & Hs).
      { apply Forall_app. split; [exact Hcur | by repeat constructor]. }
      split; [exact Hlen|]. split; [by rewrite Hcat, <- app_assoc|].
      split; [exact Hw | exact Hs].
Qed.

(** X16. [FC_ExplodeBreakingSpace] splits a text at every space and tab and
    loses nothing: there are as many words as separators, no word contains
    a space or a tab, every separator is the one space or tab byte that
    followed its word, except the last, which is empty, and the words each
    followed by its separator are the text again. *)
Theorem breaking_space_words_rebuild_text text :
  let '(words, spaces) := FC_ExplodeBreakingSpace text in
  length words = length spaces
  /\ concat (zip_with app words spaces) = text
  /\ Forall is_word words
  /\ (exists separators,
        spaces = separators ++ [[]]
        /\ Forall (fun s => s = [char_space] \/ s = [char_tab]) separators).
Proof.
  unfold FC_ExplodeBreakingSpace.
  apply (explode_space_from_shape text []). constructor.
Qed.

Section WrapBytes.

Variable fc_tab_width : Z.
Variable indeterminate : FC_GlyphData.
Variable fc_buffer_size : Z.

Lemma fit_words_concat font W line current words spaces :
  concat (fst (fit_words fc_tab_width indeterminate fc_buffer_size
                 font W line current words spaces))
  = concat current ++ line ++ concat (zip_with app words spaces).
Proof.
  revert font line current spaces.
  induction words as [|word words IH]; intros font line current spaces.
  { cbn. rewrite concat_app. cbn. reflexivity. }
  destruct spaces as [|space spaces].
  { cbn. rewrite concat_app. cbn. reflexivity. }
  cbn [fit_words zip_with concat]. unfold new_concat.
  destruct (FC_GetWidth_of _ _ _ font (line ++ word)) as [m font1].
  destruct (m >? W); rewrite IH.
  - rewrite concat_app. cbn [concat]. rewrite app_nil_r, <- !app_assoc. reflexivity.
  - rewrite <- !app_assoc. reflexivity.
Qed.

Lemma fit_paragraphs_concat font W current iter :
  concat (fst (fit_paragraphs fc_tab_width indeterminate fc_buffer_size
                 font W current iter))
  = concat current ++ concat iter.
Proof.
  revert font current. induction iter as [|line next IH]; intros font current.
  { cbn. by rewrite app_nil_r. }
  cbn [fit_paragraphs concat].
  destruct (if W >? 0
            then let '(measured, font1) :=
                   FC_GetWidth_of fc_tab_width indeterminate fc_buffer_size font line in
                 (measured >? W, font1)
            else (false, font)) as [too_long font1].
  destruct too_long.
  - unfold FC_ExplodeBreakingSpace.
    destruct (explode_space_from_concat line []) as (w & ws & s & ss & E & Hc).
    rewrite E. unfold new_concat.
    pose proof (fit_words_concat font1 W (w ++ s) current ws ss) as Hw.
    destruct (fit_words _ _ _ font1 W (w ++ s) current ws ss) as [current' font2].
    cbn [fst] in Hw. rewrite IH, Hw. cbn [app] in Hc.
    rewrite <- Hc, <- !app_assoc. reflexivity.
  - rewrite IH, concat_app. cbn [concat]. rewrite app_nil_r, <- app_assoc. reflexivity.
Qed.

(** X17. Wrapping keeps every byte.  The lines [FC_GetBufferFitToColumn]
    returns, one after the other, are the text in the buffer when newlines
    are kept, and the text without its newline bytes when they are not: for
    every font and every column width, no byte is dropped, added or moved,
    and the separators stay at the end of the line they close. *)
Theorem wrap_keeps_every_byte font buffer W (keep_newlines : bool) :
  concat (fst (FC_GetBufferFitToColumn fc_tab_width indeterminate fc_buffer_size
                 font buffer W keep_newlines))
  = if keep_newlines then buffer else without_newlines buffer.
Proof.
  unfold FC_GetBufferFitToColumn. rewrite fit_paragraphs_concat. cbn [concat app].
  destruct keep_newlines.
  - apply explode_pieces_concat_kept.
  - unfold FC_Explode. apply (explode_from_concat buffer char_nl []).
Qed.

End WrapBytes.

(** ** Text height and wrapped text *)

Lemma Uint16_Sint32 z : Uint16 (Sint32 z) = Uint16 z.
Proof.
  unfold Uint16, Sint32.
  replace ((z + 2 ^ 31) mod 2 ^ 32 - 2 ^ 31)
    with (z + (- ((z + 2 ^ 31) / 2 ^ 32) * 2 ^ 16) * 2 ^ 16).
  - apply Z.mod_add. lia.
  - pose proof (Z.div_mod (z + 2 ^ 31) (2 ^ 32) ltac:(lia)). lia.
Qed.

Lemma FC_GetHeight_loop_lines c cur numLines :
  0 <= numLines ->
  numLines + Z.of_nat (length (explode_from c char_nl cur)) - 1 < 2 ^ 16 ->
  FC_GetHeight_loop c numLines
  = numLines + Z.of_nat (length (explode_from c char_nl cur)) - 1.
Proof.
  revert cur numLines. induction c as [|b rest IH]; intros cur numLines H0 Hlt;
    cbn [FC_GetHeight_loop explode_from] in *.
  - cbn. lia.
  - destruct (Byte.eqb b char_nl).
    + cbn [length] in Hlt |- *.
      assert (1 <= length (explode_from rest char_nl []))%nat
        by (pose proof (explode_from_join rest char_nl []) as [_ Hne];
            destruct (explode_from rest char_nl []); [contradiction | cbn; lia]).
      rewrite Uint16_small by lia.
      rewrite (IH []) by lia. lia.
    + by apply IH.
Qed.

(** X18. [FC_GetHeight] is the height of the font times the number of
    newline-separated lines of the text, plus the line spacing for every
    line but the first, as a 16-bit value; it is 0 for a null font or a null
    text.  The lines are those [FC_Explode] gives for the newline. *)
Theorem height_counts_lines fc_buffer_size font text :
  let lines := FC_Explode (FC_EXTRACT_VARARGS fc_buffer_size text) char_nl in
  let n := Z.of_nat (length lines) in
  n < 2 ^ 16 ->
  FC_GetHeight fc_buffer_size (Some font) (Some text)
  = Uint16 (height font * n + lineSpacing font * (n - 1))
  /\ 1 <= n
  /\ FC_GetHeight fc_buffer_size None (Some text) = 0
  /\ FC_GetHeight fc_buffer_size (Some font) None = 0.
Proof.
  intros lines n Hn. subst n lines. unfold FC_Explode in *.
  pose proof (explode_from_join (FC_EXTRACT_VARARGS fc_buffer_size text) char_nl [])
    as [_ Hne].
  assert (1 <= Z.of_nat (length (explode_from (FC_EXTRACT_VARARGS fc_buffer_size text)
                                   char_nl []))) as H1
    by (destruct (explode_from _ _ _); [contradiction | cbn [length]; lia]).
  split; [|split; [exact H1 | split; reflexivity]].
  unfold FC_GetHeight.
  rewrite (FC_GetHeight_loop_lines _ []) by lia.
  rewrite Uint16_Sint32. f_equal. lia.
Qed.

Lemma height_counts_lines_witness :
  FC_GetHeight 1024 (Some letters_font) (Some [Byte.x61; Byte.x0a; Byte.x62; Byte.x0a]) = 30.
Proof.
  apply (height_counts_lines 1024 letters_font [Byte.x61; Byte.x0a; Byte.x62; Byte.x0a]).
  vm_compute. reflexivity.
Defined.

Lemma without_newlines_join (pieces : list cstring) :
  without_newlines (join_with char_nl pieces) = without_newlines (concat pieces).
Proof.
  unfold without_newlines. induction pieces as [|p ps IH]; [reflexivity|].
  destruct ps as [|p' ps'].
  - cbn. by rewrite app_nil_r.
  - change (join_with char_nl (p :: p' :: ps'))
      with (p ++ char_nl :: join_with char_nl (p' :: ps')).
    change (concat (p :: p' :: ps')) with (p ++ concat (p' :: ps')).
    rewrite !List.filter_app. cbn [List.filter].
    change (negb (Byte.eqb char_nl char_nl)) with false. cbv iota.
    by rewrite IH.
Qed.

Lemma without_newlines_idem text :
  without_newlines (without_newlines text) = without_newlines text.
Proof.
  unfold without_newlines. induction text as [|b rest IH]; [reflexivity|].
  cbn [List.filter]. destruct (negb (Byte.eqb b char_nl)) eqn:E; [|exact IH].
  cbn [List.filter]. rewrite E. by rewrite IH.
Qed.

Lemma wrap_keeps_bytes_without_newlines tab_width junk fc_buffer_size font buffer W :
  without_newlines
    (concat (fst (FC_GetBufferFitToColumn tab_width junk fc_buffer_size
                    font buffer W false)))
  = without_newlines buffer.
Proof.
  unfold FC_GetBufferFitToColumn. rewrite fit_paragraphs_concat. cbn [concat app].
  unfold FC_Explode. rewrite (explode_from_concat buffer char_nl []).
  apply without_newlines_idem.
Qed.

Lemma join_with_cons delimiter piece (pieces : list cstring) :
  pieces <> [] ->
  join_with delimiter (piece :: pieces) = piece ++ delimiter :: join_with delimiter pieces.
Proof. destruct pieces; [contradiction | reflexivity]. Qed.

Lemma wrapped_text_loop_fits (lines : list cstring) out size_so_far size_remaining :
  0 <= size_so_far ->
  Z.of_nat (length (join_with char_nl lines)) <= size_remaining < 2 ^ 31 ->
  size_so_far + Z.of_nat (length (join_with char_nl lines)) < 2 ^ 31 ->
  wrapped_text_loop lines out size_so_far size_remaining
  = (size_so_far + Z.of_nat (length (join_with char_nl lines)),
     out ++ join_with char_nl lines).
Proof.
  revert out size_so_far size_remaining.
  induction lines as [|line next IH]; intros out size_so_far size_remaining H0 Hfit Hlt.
  { cbn. rewrite app_nil_r. f_equal. lia. }
  cbn [wrapped_text_loop].
  destruct (Z.gtb_spec size_remaining 0) as [Hpos|Hzero].
  - assert (Z.of_nat (length line) <= size_remaining) as Hline.
    { destruct next; cbn [join_with] in Hfit; [lia|].
      rewrite length_app in Hfit. lia. }
    assert (size_so_far + Z.of_nat (length line) < 2 ^ 31) as Hsz.
    { destruct next; cbn [join_with] in Hlt; [lia|].
      rewrite length_app in Hlt. lia. }
    rewrite (Sint32_small (Z.of_nat (length line))) by lia.
    assert (FC_MIN (Z.of_nat (length line)) size_remaining = Z.of_nat (length line)) as ->.
    { unfold FC_MIN. destruct (Z.ltb_spec (Z.of_nat (length line)) size_remaining); lia. }
    rewrite Nat2Z.id, firstn_all.
    rewrite (Sint32_small (size_so_far + Z.of_nat (length line))) by lia.
    destruct next as [|line' next'].
    + cbn. f_equal.
    + rewrite join_with_cons in Hfit, Hlt |- * by discriminate.
      rewrite length_app in Hfit, Hlt |- *. cbn [length] in Hfit, Hlt |- *.
      rewrite !Sint32_small by lia. rewrite IH by lia.
      f_equal; [lia|]. rewrite <- !app_assoc. reflexivity.
  - assert (length (join_with char_nl (line :: next)) = 0)%nat as Hlen by lia.
    destruct (join_with char_nl (line :: next)); [|discriminate].
    rewrite app_nil_r. f_equal. cbn. lia.
Qed.

(** X19. When the caller's array is large enough for the wrapped text and its
    terminator, [FC_GetWrappedText] of a text of whole characters with a
    non-zero width stores the lines of [FC_GetBufferFitToColumn] joined by
    newlines, none of them cut, and returns the number of bytes stored;
    without the newlines these are the bytes of the text without its
    newlines.  It returns 0, stores nothing and leaves the font as it was
    for a null font, a null text or a zero width. *)
Theorem wrapped_text_is_joined_lines tab_width junk fc_buffer_size
    font max_result_size width text :
  let buffer := FC_EXTRACT_VARARGS fc_buffer_size text in
  let lines := fst (FC_GetBufferFitToColumn tab_width junk fc_buffer_size
                      font buffer (Uint16 width) false) in
  let wrapped := join_with char_nl lines in
  (whole_characters buffer = true ->
   Uint16 width <> 0 ->
   Z.of_nat (length wrapped) <= max_result_size - 1 ->
   max_result_size < 2 ^ 31 ->
   fst (FC_GetWrappedText tab_width junk fc_buffer_size
          (Some font) max_result_size width (Some text))
   = (Z.of_nat (length wrapped), Some wrapped)
   /\ without_newlines wrapped = without_newlines buffer)
  /\ (Uint16 width = 0 ->
      FC_GetWrappedText tab_width junk fc_buffer_size
        (Some font) max_result_size width (Some text)
      = (0, None, Some font))
  /\ FC_GetWrappedText tab_width junk fc_buffer_size
       None max_result_size width (Some text) = (0, None, None)
  /\ FC_GetWrappedText tab_width junk fc_buffer_size
       (Some font) max_result_size width None = (0, None, Some font).
Proof.
  intros buffer lines wrapped.
  split; [|split; [|split; reflexivity]].
  - intros _ Hw Hfit Hmax. split.
    + unfold FC_GetWrappedText. destruct (Z.eqb_spec (Uint16 width) 0); [contradiction|].
      fold buffer. subst wrapped lines.
      destruct (FC_GetBufferFitToColumn _ _ _ font buffer (Uint16 width) false) as [ls f'].
      cbn [fst] in *.
      pose proof (Zle_0_nat (length (join_with char_nl ls))).
      rewrite (Sint32_small (max_result_size - 1)) by lia.
      rewrite wrapped_text_loop_fits by lia. reflexivity.
    + subst wrapped.
      pose proof (wrap_keeps_bytes_without_newlines tab_width junk fc_buffer_size
                    font buffer (Uint16 width)) as Hb.
      fold lines in Hb. rewrite <- Hb. apply without_newlines_join.
  - intros Hw. unfold FC_GetWrappedText. rewrite Hw. reflexivity.
Qed.

Lemma wrapped_text_is_joined_lines_witness :
  fst (FC_GetWrappedText 4 no_glyph 1024 (Some letters_font) 100 50 (Some text_ab_cd_ef))
  = (9, Some [Byte.x61; Byte.x62; Byte.x20; Byte.x63; Byte.x64; Byte.x20; Byte.x0a;
              Byte.x65; Byte.x66])
  /\ FC_GetWrappedText 4 no_glyph 1024 (Some letters_font) 100 65536 (Some text_ab_cd_ef)
     = (0, None, Some letters_font).
Proof.
  split.
  - destruct (wrapped_text_is_joined_lines 4 no_glyph 1024 letters_font 100 50 text_ab_cd_ef)
      as [H _].
    destruct H as [H _].
    + reflexivity.
    + vm_compute. discriminate.
    + vm_compute. discriminate.
    + lia.
    + exact H.
  - destruct (wrapped_text_is_joined_lines 4 no_glyph 1024 letters_font 100 65536
                text_ab_cd_ef) as (_ & H & _).
    apply H. reflexivity.
Defined.

Lemma wrapped_text_loop_grows (lines : list cstring) out size_so_far size_remaining :
  0 <= size_so_far ->
  0 <= size_remaining < 2 ^ 31 ->
  size_so_far + Z.of_nat (length (join_with char_nl lines)) < 2 ^ 31 ->
  size_so_far <= fst (wrapped_text_loop lines out size_so_far size_remaining).
Proof.
  revert out size_so_far size_remaining.
  induction lines as [|line next IH]; intros out size_so_far size_remaining H0 Hr Hlt.
  { cbn. lia. }
  cbn [wrapped_text_loop].
  destruct (Z.gtb_spec size_remaining 0) as [Hpos|Hzero]; [|cbn; lia].
  assert (0 <= FC_MIN (Sint32 (Z.of_nat (length line))) size_remaining
          <= Z.of_nat (length line)) as Hmin.
  { assert (Z.of_nat (length line) < 2 ^ 31)
      by (destruct next; cbn [join_with] in Hlt; [lia|]; rewrite length_app in Hlt; lia).
    rewrite Sint32_small by lia. unfold FC_MIN.
    destruct (Z.ltb_spec (Z.of_nat (length line)) size_remaining); lia. }
  set (n := FC_MIN (Sint32 (Z.of_nat (length line))) size_remaining) in *.
  destruct next as [|line' next'].
  - cbn [wrapped_text_loop fst]. cbn [join_with] in Hlt. rewrite Sint32_small by lia. lia.
  - rewrite join_with_cons in Hlt by discriminate.
    rewrite length_app in Hlt. cbn [length] in Hlt.
    rewrite (Sint32_small (size_so_far + n)) by lia.
    rewrite (Sint32_small (size_so_far + n + 1)) by lia.
    rewrite (Sint32_small (size_remaining - 1)) by lia.
    etransitivity; [|apply IH; lia]. lia.
Qed.

Lemma wrapped_text_loop_two first second more out size_so_far size_remaining :
  0 < size_remaining ->
  wrapped_text_loop (first :: second :: more) out size_so_far size_remaining
  = let num_bytes := FC_MIN (Sint32 (Z.of_nat (length first))) size_remaining in
    wrapped_text_loop (second :: more)
      ((out ++ take (Z.to_nat num_bytes) first) ++ [char_nl])
      (Sint32 (Sint32 (size_so_far + num_bytes) + 1)) (Sint32 (size_remaining - 1)).
Proof.
  intros Hpos. cbn [wrapped_text_loop].
  destruct (Z.gtb_spec size_remaining 0); [reflexivity | lia].
Qed.

(** X20. The size limit of [FC_GetWrappedText] is applied to every line
    separately, not to the whole result: the room left is reduced by the
    newlines stored but not by the bytes copied.  For [max_result_size] of
    at least 2, when the first wrapped line alone fills the array and
    another line follows, the count returned is at least [max_result_size],
    so the terminator and the bytes before it are stored past the end of an
    array of [max_result_size] bytes. *)
Theorem wrapped_text_overruns_array tab_width junk fc_buffer_size
    font max_result_size width text first second more :
  let buffer := FC_EXTRACT_VARARGS fc_buffer_size text in
  Uint16 width <> 0 ->
  fst (FC_GetBufferFitToColumn tab_width junk fc_buffer_size
         font buffer (Uint16 width) false) = first :: second :: more ->
  2 <= max_result_size <= Z.of_nat (length first) + 1 ->
  Z.of_nat (length (join_with char_nl (first :: second :: more))) < 2 ^ 31 ->
  max_result_size
  <= fst (fst (FC_GetWrappedText tab_width junk fc_buffer_size
                 (Some font) max_result_size width (Some text))).
Proof.
  intros buffer Hw Hlines Hmax Hlen.
  unfold FC_GetWrappedText. destruct (Z.eqb_spec (Uint16 width) 0); [contradiction|].
  fold buffer.
  destruct (FC_GetBufferFitToColumn _ _ _ font buffer (Uint16 width) false) as [ls f'].
  cbn [fst] in Hlines. subst ls.
  rewrite join_with_cons in Hlen by discriminate.
  rewrite length_app in Hlen. cbn [length] in Hlen.
  rewrite (Sint32_small (max_result_size - 1)) by lia.
  rewrite wrapped_text_loop_two by lia. cbv zeta.
  rewrite (Sint32_small (Z.of_nat (length first))) by lia.
  assert (FC_MIN (Z.of_nat (length first)) (max_result_size - 1) = max_result_size - 1)
    as -> by (unfold FC_MIN;
              destruct (Z.ltb_spec (Z.of_nat (length first)) (max_result_size - 1)); lia).
  rewrite (Sint32_small (0 + (max_result_size - 1))) by lia.
  rewrite (Sint32_small (0 + (max_result_size - 1) + 1)) by lia.
  rewrite (Sint32_small (max_result_size - 1 - 1)) by lia.
  match goal with
  | |- context [wrapped_text_loop ?l ?o ?s ?r] =>
      pose proof (wrapped_text_loop_grows l o s r
                    ltac:(lia) ltac:(lia) ltac:(lia)) as Hg;
      destruct (wrapped_text_loop l o s r) as [size out]
  end.
  cbn [fst] in *. lia.
Qed.

Lemma wrapped_text_overruns_array_witness :
  3 <= fst (fst (FC_GetWrappedText 4 no_glyph 1024 (Some letters_font) 3 50
                   (Some text_ab_cd_ef))).
Proof.
  apply (wrapped_text_overruns_array 4 no_glyph 1024 letters_font 3 50 text_ab_cd_ef
           text_ab_cd_ [Byte.x65; Byte.x66] []).
  - vm_compute. discriminate.
  - vm_compute. reflexivity.
  - cbn. lia.
  - cbn. lia.
Defined.

(** ** Text operations and the cache *)

Lemma Sint32_eqm z : exists k, Sint32 z = z + k * 2 ^ 32.
Proof.
  unfold Sint32. exists (- ((z + 2 ^ 31) / 2 ^ 32)).
  pose proof (Z.div_mod (z + 2 ^ 31) (2 ^ 32) ltac:(lia)). lia.
Qed.

Lemma Sint32_add_mul z k : Sint32 (z + k * 2 ^ 32) = Sint32 z.
Proof.
  unfold Sint32. replace (z + k * 2 ^ 32 + 2 ^ 31) with (z + 2 ^ 31 + k * 2 ^ 32) by lia.
  by rewrite Z.mod_add by lia.
Qed.

Lemma Uint16_add_mul z k : Uint16 (z + k * 2 ^ 32) = Uint16 z.
Proof.
  unfold Uint16. replace (k * 2 ^ 32) with (k * 2 ^ 16 * 2 ^ 16) by lia.
  by rewrite Z.mod_add by lia.
Qed.

Lemma font_grows_refl font : font_map_wf font -> font_grows font font.
Proof. intros Hwf. split; [exact Hwf|]. split; [apply same_settings_refl | auto]. Qed.

Lemma font_grows_trans f1 f2 f3 : font_grows f1 f2 -> font_grows f2 f3 -> font_grows f1 f3.
Proof.
  intros (_ & Hs1 & Hst1) (Hwf & Hs2 & Hst2).
  split; [exact Hwf|]. split; [by eapply same_settings_trans | auto].
Qed.

(** The glyph provider only adds glyphs. *)
Lemma FC_GetGlyphData_grows tab_width junk font codepoint :
  font_map_wf font ->
  font_grows font (snd (FC_GetGlyphData tab_width junk font codepoint)).
Proof.
  intros Hwf. destruct (FC_MapFind (glyphs font) codepoint) as [e|] eqn:E.
  - rewrite (FC_GetGlyphData_cached tab_width junk font codepoint e E). cbn [snd].
    by apply font_grows_refl.
  - pose proof (FC_GetGlyphData_effect tab_width junk font codepoint Hwf E)
      as (Hwf' & Hs & Hst & _).
    split; [exact Hwf'|]. by split.
Qed.

Section ColumnHeight.

Context {float : Type} `{FloatOps float}.

Variable fc_tab_width : Z.
Variable indeterminate : FC_GlyphData.
Variable fc_buffer_size : Z.
Variable fc_render_callback :
  option SDL_Texture -> SDL_Rect -> Z -> Z -> float -> float -> SDL_Rect.

Lemma GetWidth_loop_grows turns font c width bigWidth :
  font_map_wf font ->
  font_grows font
    (snd (FC_GetWidth_loop fc_tab_width indeterminate turns font c width bigWidth)).
Proof.
  revert font c width bigWidth.
  induction turns as [|turns IH]; intros font c width bigWidth Hwf;
    [by apply font_grows_refl|].
  destruct c as [|b rest]; [by apply font_grows_refl|].
  cbn [FC_GetWidth_loop]. destruct (Byte.eqb b char_nl); [by apply IH|].
  destruct (codepoint_at (b :: rest) true) as [codepoint c1].
  pose proof (FC_GetGlyphData_grows fc_tab_width indeterminate font codepoint Hwf) as H1.
  destruct (FC_GetGlyphData fc_tab_width indeterminate font codepoint) as [found font1].
  cbn [snd] in H1.
  destruct found as [glyph|].
  - eapply font_grows_trans; [exact H1 | apply IH, H1].
  - pose proof (FC_GetGlyphData_grows fc_tab_width indeterminate font1 32 (proj1 H1)) as H2.
    destruct (FC_GetGlyphData fc_tab_width indeterminate font1 32) as [found' font2].
    cbn [snd] in H2.
    eapply font_grows_trans; [exact H1|]. eapply font_grows_trans; [exact H2|].
    destruct found' as [glyph|]; apply IH, H2.
Qed.

Lemma GetWidth_of_grows font text :
  font_map_wf font ->
  font_grows font
    (snd (FC_GetWidth_of fc_tab_width indeterminate fc_buffer_size font text)).
Proof.
  intros Hwf. unfold FC_GetWidth_of, FC_GetWidth_buffer.
  pose proof (GetWidth_loop_grows
                (length (FC_EXTRACT_VARARGS fc_buffer_size text)) font
                (FC_EXTRACT_VARARGS fc_buffer_size text) 0 0 Hwf) as Hk.
  destruct (FC_GetWidth_loop _ _ _ font _ 0 0) as [[w bw] f']. exact Hk.
Qed.

Lemma fit_words_grows font W line current words spaces :
  font_map_wf font ->
  font_grows font
    (snd (fit_words fc_tab_width indeterminate fc_buffer_size
            font W line current words spaces)).
Proof.
  revert font line current spaces.
  induction words as [|word words IH]; intros font line current spaces Hwf;
    [by apply font_grows_refl|].
  destruct spaces as [|space spaces]; [by apply font_grows_refl|].
  cbn [fit_words].
  pose proof (GetWidth_of_grows font (new_concat line word) Hwf) as H1.
  destruct (FC_GetWidth_of _ _ _ font (new_concat line word)) as [m font1].
  cbn [snd] in H1.
  eapply font_grows_trans; [exact H1|].
  destruct (m >? W); apply IH, H1.
Qed.

Lemma fit_paragraphs_grows font W current iter :
  font_map_wf font ->
  font_grows font
    (snd (fit_paragraphs fc_tab_width indeterminate fc_buffer_size
            font W current iter)).
Proof.
  revert font current. induction iter as [|line next IH]; intros font current Hwf;
    [by apply font_grows_refl|].
  cbn [fit_paragraphs].
  assert (Hm : font_grows font
                 (snd (if W >? 0
                       then let '(measured, font1) :=
                              FC_GetWidth_of fc_tab_width indeterminate fc_buffer_size
                                font line in
                            (measured >? W, font1)
                       else (false, font)))).
  { destruct (W >? 0); [|by apply font_grows_refl].
    pose proof (GetWidth_of_grows font line Hwf) as Hk.
    destruct (FC_GetWidth_of _ _ _ font line) as [m f1]. exact Hk. }
  destruct (if W >? 0 then _ else _) as [too_long font1]. cbn [snd] in Hm.
  eapply font_grows_trans; [exact Hm|].
  destruct too_long; [|apply IH, Hm].
  destruct (FC_ExplodeBreakingSpace line) as [[|word words] [|space spaces]];
    try apply IH, Hm.
  pose proof (fit_words_grows font1 W (new_concat word space) current words spaces
                (proj1 Hm)) as H2.
  destruct (fit_words _ _ _ font1 W (new_concat word space) current words spaces)
    as [current' font2].
  cbn [snd] in H2.
  eapply font_grows_trans; [exact H2 | apply IH, H2].
Qed.

Lemma RenderLeft_loop_grows newlineX scale destH destLineSpacing destLetterSpacing
    turns c st :
  font_map_wf (rs_font st) ->
  font_grows (rs_font st)
    (rs_font (FC_RenderLeft_loop fc_tab_width indeterminate fc_render_callback
                newlineX scale destH destLineSpacing destLetterSpacing turns c st)).
Proof.
  revert c st. induction turns as [|turns IH]; intros c st Hwf;
    [by apply font_grows_refl|].
  destruct c as [|b rest]; [by apply font_grows_refl|].
  cbn [FC_RenderLeft_loop]. cbv zeta.
  destruct (Byte.eqb b char_nl).
  { match goal with |- context [FC_RenderLeft_loop _ _ _ _ _ _ _ _ _ _ ?s] =>
      apply (IH (drop 1 (b :: rest)) s Hwf)
    end. }
  destruct (codepoint_at (b :: rest) true) as [codepoint c1].
  pose proof (FC_GetGlyphData_grows fc_tab_width indeterminate (rs_font st) codepoint Hwf)
    as H1.
  destruct (FC_GetGlyphData fc_tab_width indeterminate (rs_font st) codepoint)
    as [found font1].
  cbn [snd] in H1.
  eapply font_grows_trans; [exact H1|].
  destruct found as [glyph|].
  - match goal with |- context [FC_RenderLeft_loop _ _ _ _ _ _ _ _ _ _ ?s] =>
      pose proof (IH (drop 1 c1) s) as Hs
    end.
    destruct (codepoint =? 32); apply Hs, H1.
  - pose proof (FC_GetGlyphData_grows fc_tab_width indeterminate font1 32 (proj1 H1)) as H2.
    destruct (FC_GetGlyphData fc_tab_width indeterminate font1 32) as [found' font2].
    cbn [snd] in H2.
    eapply font_grows_trans; [exact H2|].
    destruct found' as [glyph|];
      match goal with |- context [FC_RenderLeft_loop _ _ _ _ _ _ _ _ _ _ ?s] =>
        apply (IH (drop 1 c1) s), H2
      end.
Qed.

Lemma RenderLeft_font_grows font dest x y scale text :
  font_map_wf font ->
  font_grows font
    (snd (fst (FC_RenderLeft_font fc_tab_width indeterminate fc_render_callback
                 font dest x y scale text))).
Proof.
  intros Hwf. unfold FC_RenderLeft_font. cbv zeta.
  destruct text as [c|]; [|by apply font_grows_refl].
  destruct dest as [d|]; [|by apply font_grows_refl].
  destruct (glyph_cache_count font =? 0); [by apply font_grows_refl|].
  cbn [fst snd].
  match goal with |- context [FC_RenderLeft_loop _ _ _ ?nx ?sc ?dh ?dl ?dt ?t ?cc ?s] =>
    apply (RenderLeft_loop_grows nx sc dh dl dt t cc s Hwf)
  end.
Qed.

Lemma draw_lines_grows font dest box scale iter y drawn :
  font_map_wf font ->
  font_grows font
    (snd (fst (draw_lines fc_tab_width indeterminate fc_render_callback
                 font dest box scale iter y drawn))).
Proof.
  revert font y drawn. induction iter as [|line next IH]; intros font y drawn Hwf;
    [by apply font_grows_refl|].
  cbn [draw_lines].
  pose proof (RenderLeft_font_grows font dest (rect_x box) y scale (Some line) Hwf) as H1.
  destruct (FC_RenderLeft_font _ _ _ font dest (rect_x box) y scale (Some line))
    as [[r font1] ds].
  cbn [fst snd] in H1.
  eapply font_grows_trans; [exact H1 | apply IH, H1].
Qed.

(** X21. Measuring and drawing only add glyphs to the cache.  After
    [FC_GetWidth], [FC_GetColumnHeight], [FC_GetWrappedText], [FC_Draw] or
    [FC_DrawColumn] on any text, every glyph that a lookup found before the
    call is found with the same data, the glyph map is still well formed,
    and the height, the spacings, the rasterizer and the renderer of the
    font are the same. *)
Theorem text_operations_only_add_glyphs font dest x y width max_result_size text :
  font_map_wf font ->
  (exists font',
      snd (FC_GetWidth fc_tab_width indeterminate fc_buffer_size (Some font) (Some text))
      = Some font' /\ font_grows font font')
  /\ (exists font',
        snd (FC_GetColumnHeight fc_tab_width indeterminate fc_buffer_size
               (Some font) width (Some text))
        = Some font' /\ font_grows font font')
  /\ (exists font',
        snd (FC_GetWrappedText fc_tab_width indeterminate fc_buffer_size
               (Some font) max_result_size width (Some text))
        = Some font' /\ font_grows font font')
  /\ (exists font',
        snd (fst (FC_Draw fc_tab_width indeterminate fc_buffer_size fc_render_callback
                    (Some font) dest x y (Some text)))
        = Some font' /\ font_grows font font')
  /\ (exists font',
        snd (fst (FC_DrawColumn fc_tab_width indeterminate fc_buffer_size
                    fc_render_callback (Some font) dest x y width (Some text)))
        = Some font' /\ font_grows font font').
Proof.
  intros Hwf.
  pose proof (fit_paragraphs_grows font (Uint16 width) []
                (FC_Explode (FC_EXTRACT_VARARGS fc_buffer_size text) char_nl) Hwf) as Hfit.
  split; [|split; [|split; [|split]]].
  - unfold FC_GetWidth.
    pose proof (GetWidth_of_grows font text Hwf) as Hk.
    destruct (FC_GetWidth_of _ _ _ font text) as [w f']. by exists f'.
  - unfold FC_GetColumnHeight.
    destruct (Uint16 width =? 0); [exists font; split; [reflexivity | by apply font_grows_refl]|].
    unfold FC_GetBufferFitToColumn.
    destruct (fit_paragraphs _ _ _ font (Uint16 width) [] _) as [ls f']. by exists f'.
  - unfold FC_GetWrappedText.
    destruct (Uint16 width =? 0); [exists font; split; [reflexivity | by apply font_grows_refl]|].
    unfold FC_GetBufferFitToColumn.
    destruct (fit_paragraphs _ _ _ font (Uint16 width) [] _) as [ls f'].
    destruct (wrapped_text_loop ls [] 0 _) as [size out]. by exists f'.
  - unfold FC_Draw, FC_RenderLeft.
    pose proof (RenderLeft_font_grows font dest x y unit_scale
                  (Some (FC_EXTRACT_VARARGS fc_buffer_size text)) Hwf) as Hk.
    destruct (FC_RenderLeft_font _ _ _ font dest x y unit_scale _) as [[r f'] ds].
    by exists f'.
  - unfold FC_DrawColumn, FC_DrawColumnFromBuffer. cbn [rect_w rect_x rect_y].
    unfold FC_GetBufferFitToColumn.
    destruct (fit_paragraphs _ _ _ font (Uint16 width) [] _) as [ls f1].
    cbn [snd] in Hfit.
    match goal with |- context [draw_lines _ _ _ ?f ?d ?b ?s ?i ?y0 ?dr] =>
      pose proof (draw_lines_grows f d b s i y0 dr (proj1 Hfit)) as Hd;
      destruct (draw_lines fc_tab_width indeterminate fc_render_callback f d b s i y0 dr)
        as [[yn f2] ds]
    end.
    cbn [fst snd] in Hd |- *. exists f2. split; [reflexivity|].
    by eapply font_grows_trans.
Qed.

Lemma draw_lines_height font dest box scale iter y drawn :
  font_map_wf font ->
  exists k,
    fst (fst (draw_lines fc_tab_width indeterminate fc_render_callback
                font dest box scale iter y drawn))
    = y + height font * Z.of_nat (length iter) + k * 2 ^ 32.
Proof.
  revert font y drawn. induction iter as [|line next IH]; intros font y drawn Hwf.
  { exists 0. cbn. lia. }
  cbn [draw_lines].
  pose proof (RenderLeft_font_grows font dest (rect_x box) y scale (Some line) Hwf)
    as (Hwf1 & (Hh & _) & _).
  destruct (FC_RenderLeft_font _ _ _ font dest (rect_x box) y scale (Some line))
    as [[r font1] ds].
  cbn [fst snd] in Hwf1, Hh. cbn [FC_GetLineHeight]. rewrite Hh.
  destruct (Sint32_eqm (y + height font)) as [k1 E1]. rewrite E1.
  destruct (IH font1 (y + height font + k1 * 2 ^ 32) (drawn ++ ds) Hwf1) as [k2 E2].
  rewrite E2, Hh. exists (k1 + k2). cbn [length]. lia.
Qed.

Lemma column_height_fold (ls : list cstring) h y :
  exists k,
    fold_left (fun y _ => Sint32 (y + h)) ls y = y + h * Z.of_nat (length ls) + k * 2 ^ 32.
Proof.
  revert y. induction ls as [|line next IH]; intros y.
  { exists 0. cbn. lia. }
  cbn [fold_left]. destruct (Sint32_eqm (y + h)) as [k1 E1]. rewrite E1.
  destruct (IH (y + h + k1 * 2 ^ 32)) as [k2 E2]. rewrite E2.
  exists (k1 + k2). cbn [length]. lia.
Qed.

(** The rectangle [FC_DrawColumn] returns: the given point, the given width
    and the height of the lines drawn. *)
Lemma FC_DrawColumn_box font dest x y width text :
  font_map_wf font ->
  let lines := fst (FC_GetBufferFitToColumn fc_tab_width indeterminate fc_buffer_size
                      font (FC_EXTRACT_VARARGS fc_buffer_size text) (Uint16 width) false) in
  fst (fst (FC_DrawColumn fc_tab_width indeterminate fc_buffer_size
              fc_render_callback (Some font) dest x y width (Some text)))
  = {| rect_x := x; rect_y := y; rect_w := Uint16 width;
       rect_h := Sint32 (height font * Z.of_nat (length lines)) |}.
Proof.
  intros Hwf lines.
  pose proof (fit_paragraphs_grows font (Uint16 width) []
                (FC_Explode (FC_EXTRACT_VARARGS fc_buffer_size text) char_nl) Hwf)
    as (Hwf1 & (Hh & _) & _).
  subst lines. unfold FC_DrawColumn, FC_DrawColumnFromBuffer.
  cbn [rect_w rect_y rect_x].
  unfold FC_GetBufferFitToColumn in *.
  destruct (fit_paragraphs _ _ _ font (Uint16 width) [] _) as [ls f'].
  cbn [fst snd] in *.
  match goal with |- context [draw_lines _ _ _ ?f ?d ?b ?s ?i ?y0 ?dr] =>
    destruct (draw_lines_height f d b s i y0 dr Hwf1) as [k E];
    destruct (draw_lines fc_tab_width indeterminate fc_render_callback f d b s i y0 dr)
      as [[yn f2] ds]
  end.
  cbn [fst snd rect_h rect_y] in *. rewrite E, Hh. f_equal.
  replace (y + height font * Z.of_nat (length ls) + k * 2 ^ 32 - y)
    with (height font * Z.of_nat (length ls) + k * 2 ^ 32) by lia.
  apply Sint32_add_mul.
Qed.

(** X22. Measuring a column agrees with drawing it.  For a font with a glyph
    map, a non-zero column width and a text of whole characters in the
    buffer, [FC_GetColumnHeight] is the font height times the number of
    lines [FC_GetBufferFitToColumn] makes of the text, as a 16-bit value,
    and the rectangle [FC_DrawColumn] returns for the same font, width and
    text has that height as an [int]: the value measured is the height
    drawn, taken as a [Uint16]. *)
Theorem column_height_is_drawn_height font dest x y width text :
  font_map_wf font ->
  Uint16 width <> 0 ->
  whole_characters (FC_EXTRACT_VARARGS fc_buffer_size text) = true ->
  let lines := fst (FC_GetBufferFitToColumn fc_tab_width indeterminate fc_buffer_size
                      font (FC_EXTRACT_VARARGS fc_buffer_size text) (Uint16 width) false) in
  let measured := fst (FC_GetColumnHeight fc_tab_width indeterminate fc_buffer_size
                         (Some font) width (Some text)) in
  let drawn := fst (fst (FC_DrawColumn fc_tab_width indeterminate fc_buffer_size
                           fc_render_callback (Some font) dest x y width (Some text))) in
  measured = Uint16 (height font * Z.of_nat (length lines))
  /\ rect_h drawn = Sint32 (height font * Z.of_nat (length lines))
  /\ measured = Uint16 (rect_h drawn).
Proof.
  intros Hwf Hw _ lines measured drawn.
  pose proof (fit_paragraphs_grows font (Uint16 width) []
                (FC_Explode (FC_EXTRACT_VARARGS fc_buffer_size text) char_nl) Hwf)
    as (Hwf1 & (Hh & _) & _).
  assert (Hm : measured = Uint16 (height font * Z.of_nat (length lines))).
  { subst measured lines. unfold FC_GetColumnHeight.
    destruct (Z.eqb_spec (Uint16 width) 0); [contradiction|].
    unfold FC_GetBufferFitToColumn in *.
    destruct (fit_paragraphs _ _ _ font (Uint16 width) [] _) as [ls f'].
    cbn [fst snd FC_GetLineHeight] in *. rewrite Hh.
    destruct (column_height_fold ls (height font) 0) as [k ->].
    rewrite Uint16_add_mul. f_equal; lia. }
  assert (Hd : rect_h drawn = Sint32 (height font * Z.of_nat (length lines))).
  { subst drawn lines. by rewrite (FC_DrawColumn_box font dest x y width text Hwf). }
  split; [exact Hm|]. split; [exact Hd|].
  rewrite Hm, Hd, Uint16_Sint32. reflexivity.
Qed.

End ColumnHeight.

Lemma column_height_is_drawn_height_witness :
  fst (FC_GetColumnHeight 4 no_glyph 1024 (Some letters_font) 50 (Some text_ab_cd_ef))
  = Uint16 (rect_h (fst (fst (FC_DrawColumn 4 no_glyph 1024
                                (FC_DefaultRenderCallback (float := Z))
                                (Some letters_font) (Some any_size_renderer) 0 0 50
                                (Some text_ab_cd_ef))))).
Proof.
  apply (column_height_is_drawn_height 4 no_glyph 1024
           (FC_DefaultRenderCallback (float := Z))
           letters_font (Some any_size_renderer) 0 0 50 text_ab_cd_ef).
  - eexists. split; [vm_compute; reflexivity|]. split; [cbn; lia | reflexivity].
  - vm_compute. discriminate.
  - reflexivity.
Defined.

Lemma text_operations_only_add_glyphs_witness :
  exists font',
    snd (FC_GetWidth 4 no_glyph 1024 (Some (fresh_font 6)) (Some text_abcdef)) = Some font'
    /\ font_grows (fresh_font 6) font'.
Proof.
  destruct (text_operations_only_add_glyphs 4 no_glyph 1024
              (FC_DefaultRenderCallback (float := Z))
              (fresh_font 6) None 0 0 50 100 text_abcdef) as [Hwidth _].
  - exists (FC_MapCreate FC_DEFAULT_NUM_BUCKETS). split; [reflexivity|].
    apply FC_MapCreate_wf. unfold FC_DEFAULT_NUM_BUCKETS. lia.
  - exact Hwidth.
Defined.

(** ** Dirty rectangle of the draw functions *)

Section DirtyRect.

Context {float : Type} `{FloatOps float}.
Variable fc_tab_width : Z.
Variable indeterminate : FC_GlyphData.
Variable fc_buffer_size : Z.
Variable fc_render_callback :
  option SDL_Texture -> SDL_Rect -> Z -> Z -> float -> float -> SDL_Rect.

(** C6, amended. For [FC_RenderLeft], and for [FC_Draw], [FC_DrawScale] and
    [FC_DrawColor] which return its result, the dirty rectangle is the
    rectangles of the glyph draws folded with [SDL_RectUnion] from the first
    non-empty one on.  When no draw is flipped - every rectangle the callback
    returned has a width and a height that are not negative, and coordinates
    within 2^30 in magnitude - it contains every pixel of every rectangle
    drawn during the call.  [FC_DrawColumn] returns the column box instead:
    the given point, the given width, and as its height the line height
    times the number of lines the text is wrapped into, for a font with a
    glyph map and a text of whole characters. *)
Theorem dirty_rect_covers_glyphs :
  (forall font dest x y scale text,
      let '(dirty, _, drawn) :=
        FC_RenderLeft fc_tab_width indeterminate fc_render_callback font dest x y scale text in
      dirty = fold_left dirty_after drawn {| rect_x := x; rect_y := y; rect_w := 0; rect_h := 0 |}
      /\ (Forall rect_upright drawn -> Forall (rect_covers dirty) drawn))
  /\ (forall font dest x y text,
        let '(dirty, _, drawn) :=
          FC_Draw fc_tab_width indeterminate fc_buffer_size fc_render_callback
            font dest x y text in
        dirty = fold_left dirty_after drawn {| rect_x := x; rect_y := y; rect_w := 0; rect_h := 0 |}
        /\ (Forall rect_upright drawn -> Forall (rect_covers dirty) drawn))
  /\ (forall font dest x y scale text,
        let '(dirty, _, drawn) :=
          FC_DrawScale fc_tab_width indeterminate fc_buffer_size fc_render_callback
            font dest x y scale text in
        dirty = fold_left dirty_after drawn {| rect_x := x; rect_y := y; rect_w := 0; rect_h := 0 |}
        /\ (Forall rect_upright drawn -> Forall (rect_covers dirty) drawn))
  /\ (forall font dest x y color text,
        let '(dirty, _, drawn) :=
          FC_DrawColor fc_tab_width indeterminate fc_buffer_size fc_render_callback
            font dest x y color text in
        dirty = fold_left dirty_after drawn {| rect_x := x; rect_y := y; rect_w := 0; rect_h := 0 |}
        /\ (Forall rect_upright drawn -> Forall (rect_covers dirty) drawn))
  /\ (forall font dest x y width text,
        font_map_wf font ->
        whole_characters (FC_EXTRACT_VARARGS fc_buffer_size text) = true ->
        let lines :=
          fst (FC_GetBufferFitToColumn fc_tab_width indeterminate fc_buffer_size
                 font (FC_EXTRACT_VARARGS fc_buffer_size text) (Uint16 width) false) in
        fst (fst (FC_DrawColumn fc_tab_width indeterminate fc_buffer_size fc_render_callback
                    (Some font) dest x y width (Some text)))
        = {| rect_x := x; rect_y := y; rect_w := Uint16 width;
             rect_h := Sint32 (height font * Z.of_nat (length lines)) |}).
Proof.
  assert (HL : forall font dest x y scale text,
             let '(dirty, _, drawn) :=
               FC_RenderLeft fc_tab_width indeterminate fc_render_callback
                 font dest x y scale text in
             dirty = fold_left dirty_after drawn
                       {| rect_x := x; rect_y := y; rect_w := 0; rect_h := 0 |}
             /\ (Forall rect_upright drawn -> Forall (rect_covers dirty) drawn)).
  { intros font dest x y scale text. unfold FC_RenderLeft.
    destruct font as [f|]; [|split; [reflexivity | constructor]].
    pose proof (RenderLeft_font_dirty fc_tab_width indeterminate fc_render_callback
                  f dest x y scale text) as Hf.
    destruct (FC_RenderLeft_font _ _ _ f dest x y scale text) as [[dirty f'] drawn].
    destruct Hf as [Hfold Hcov]. split; [exact Hfold|].
    intros Hup. apply Hcov. eapply Forall_impl; [exact Hup|]. by intros r [Hr _]. }
  split; [exact HL|].
  split; [|split; [|split]].
  - intros font dest x y text. unfold FC_Draw.
    destruct text as [t|]; [|split; [reflexivity | constructor]].
    destruct font as [f|]; [|split; [reflexivity | constructor]].
    apply HL.
  - intros font dest x y scale text. unfold FC_DrawScale.
    destruct text as [t|]; [|split; [reflexivity | constructor]].
    destruct font as [f|]; [|split; [reflexivity | constructor]].
    apply HL.
  - intros font dest x y color text. unfold FC_DrawColor.
    destruct text as [t|]; [|split; [reflexivity | constructor]].
    destruct font as [f|]; [|split; [reflexivity | constructor]].
    apply HL.
  - intros font dest x y width text Hwf _ lines.
    apply (FC_DrawColumn_box fc_tab_width indeterminate fc_buffer_size fc_render_callback
             font dest x y width text Hwf).
Qed.

End DirtyRect.

(** With a negative scale the rectangles [FC_DefaultRenderCallback] returns
    have a negative width, and the dirty rectangle need not hold what was
    drawn: for two glyphs drawn from x = 100 to the left it is empty. *)
Lemma flipped_draw_dirty_rect_empty :
  FC_DrawScale 4 no_glyph 1024 (FC_DefaultRenderCallback (float := Z))
    (Some letters_font) (Some any_size_renderer) 100 0 (mkScale (-1) 1)
    (Some [Byte.x61; Byte.x62])
  = ({| rect_x := 90; rect_y := 0; rect_w := 0; rect_h := 10 |},
     Some letters_font,
     [ {| rect_x := 100; rect_y := 0; rect_w := -10; rect_h := 10 |};
       {| rect_x := 90; rect_y := 0; rect_w := -10; rect_h := 10 |} ]).
Proof. vm_compute. reflexivity. Qed.

Lemma dirty_rect_covers_glyphs_witness :
  let '(dirty, _, drawn) :=
    FC_Draw 4 no_glyph 1024 (FC_DefaultRenderCallback (float := Z)) (Some letters_font)
      (Some any_size_renderer) 5 7
      (Some [Byte.x61; Byte.x20; Byte.x62; Byte.x0a; Byte.x63]) in
  Forall rect_upright drawn /\ Forall (rect_covers dirty) drawn.
Proof.
  pose proof (proj1 (proj2 (dirty_rect_covers_glyphs 4 no_glyph 1024
                              (FC_DefaultRenderCallback (float := Z))))
                (Some letters_font) (Some any_size_renderer) 5 7
                (Some [Byte.x61; Byte.x20; Byte.x62; Byte.x0a; Byte.x63])) as Hw.
  remember (FC_Draw _ _ _ _ _ _ _ _ _) as res eqn:E.
  vm_compute in E. subst res.
  destruct Hw as [_ Hw].
  assert (Hr : Forall rect_upright
                 [ {| rect_x := 5; rect_y := 7; rect_w := 10; rect_h := 10 |};
                   {| rect_x := 25; rect_y := 7; rect_w := 10; rect_h := 10 |};
                   {| rect_x := 5; rect_y := 17; rect_w := 10; rect_h := 10 |} ])
    by (repeat constructor; cbn; lia).
  split; [exact Hr | exact (Hw Hr)].
Defined.

(** ** What a draw shows *)

Section DrawnGlyphs.

Context {float : Type} `{FloatOps float}.

Variable fc_tab_width : Z.
Variable indeterminate : FC_GlyphData.
Variable fc_render_callback :
  option SDL_Texture -> SDL_Rect -> Z -> Z -> float -> float -> SDL_Rect.

Variable newlineX : Z.
Variable scale : FC_Scale float.
Variables destH destLineSpacing destLetterSpacing : float.

Local Abbreviation render_loop :=
  (FC_RenderLeft_loop fc_tab_width indeterminate fc_render_callback
     newlineX scale destH destLineSpacing destLetterSpacing).

(** One turn of the loop of [FC_RenderLeft] on an item of the text. *)
Lemma RenderLeft_loop_item n item rest st :
  is_text_item item ->
  exists st',
    render_loop (S n) (item ++ rest) st = render_loop n rest st'
    /\ rs_font st' = snd (is_drawn fc_tab_width indeterminate (rs_font st) item)
    /\ length (drawn st')
       = ((if fst (is_drawn fc_tab_width indeterminate (rs_font st) item) then 1 else 0)
          + length (drawn st))%nat
    /\ (fst (is_drawn fc_tab_width indeterminate (rs_font st) item) = false ->
        dirtyRect st' = dirtyRect st).
Proof.
  intros [->|Hch].
  - (* a newline *)
    eexists. split; [reflexivity|]. cbn. repeat split.
  - destruct (codepoint_at_uchar item rest Hch) as [Hcp Hrest].
    assert (exists b tl, item = b :: tl /\ Byte.eqb b char_nl = false)
      as (b & tl & -> & Hnl).
    { unfold is_uchar in Hch. destruct item as [|b tl]; [discriminate|].
      apply andb_prop in Hch as [Hb _]. exists b, tl.
      split; [reflexivity|]. by apply negb_true_iff. }
    cbn [app] in Hcp, Hrest |- *. cbn [FC_RenderLeft_loop is_drawn]. rewrite Hnl.
    destruct (codepoint_at (b :: tl ++ rest) true) as [codepoint c1].
    cbn [fst snd] in Hcp, Hrest. subst codepoint. rewrite Hrest.
    destruct (FC_GetGlyphData _ _ (rs_font st) _) as [[glyph|] font1].
    + destruct (fst (codepoint_at (b :: tl) false) =? 32).
      * eexists. split; [reflexivity|]. cbn. repeat split.
      * eexists. split; [reflexivity|]. cbn. rewrite length_app. cbn.
        split; [reflexivity|]. split; [lia | discriminate].
    + destruct (FC_GetGlyphData _ _ font1 32) as [[glyph|] font2];
        eexists; (split; [reflexivity|]); cbn; repeat split.
Qed.

Lemma RenderLeft_loop_items items n rest st :
  Forall is_text_item items ->
  exists st',
    render_loop (length items + n) (concat items ++ rest) st = render_loop n rest st'
    /\ rs_font st' = snd (drawn_count fc_tab_width indeterminate (rs_font st) items)
    /\ length (drawn st')
       = (fst (drawn_count fc_tab_width indeterminate (rs_font st) items)
          + length (drawn st))%nat
    /\ (fst (drawn_count fc_tab_width indeterminate (rs_font st) items) = 0%nat ->
        dirtyRect st' = dirtyRect st).
Proof.
  intros Hall. revert st. induction Hall as [|item items Hitem _ IH]; intros st.
  { exists st. cbn. repeat split. }
  cbn [length concat Nat.add drawn_count]. rewrite <- app_assoc.
  destruct (RenderLeft_loop_item (length items + n) item (concat items ++ rest) st Hitem)
    as (st1 & -> & Hf1 & Hd1 & Hr1).
  destruct (IH st1) as (st2 & -> & Hf2 & Hd2 & Hr2).
  rewrite Hf1 in Hf2, Hd2, Hr2.
  destruct (is_drawn _ _ (rs_font st) item) as [shown font1]. cbn [fst snd] in *.
  destruct (drawn_count _ _ font1 items) as [k font2]. cbn [fst snd] in *.
  exists st2. split; [reflexivity|]. split; [exact Hf2|]. split.
  - rewrite Hd2, Hd1. destruct shown; lia.
  - destruct shown; [discriminate|]. intros ->. rewrite Hr2, Hr1; reflexivity.
Qed.

End DrawnGlyphs.

Section DrawnGlyphsTop.

Context {float : Type} `{FloatOps float}.

Variable fc_tab_width : Z.
Variable indeterminate : FC_GlyphData.
Variable fc_render_callback :
  option SDL_Texture -> SDL_Rect -> Z -> Z -> float -> float -> SDL_Rect.

Lemma text_items_length (items : list cstring) :
  Forall is_text_item items -> (length items <= length (concat items))%nat.
Proof.
  induction 1 as [|item items Hitem _ IH]; [reflexivity|].
  cbn. rewrite length_app.
  destruct Hitem as [->|Hch]; [cbn; lia|].
  destruct item; [discriminate | cbn; lia].
Qed.

(** X23. [FC_RenderLeft] calls the render callback once for every character
    of the text that is not a space and whose own glyph lookup succeeds, and
    for nothing else: a newline, a space, and a character whose glyph is not
    available - for which the space glyph stands in - draw nothing.  When no
    character is drawn the rectangle returned is the empty rectangle at
    [(x, y)]. *)
Theorem render_draws_available_glyphs font renderer x y scale items :
  glyph_cache_count font <> 0 ->
  Forall is_text_item items ->
  let '(dirty, font', rects) :=
    FC_RenderLeft_font fc_tab_width indeterminate fc_render_callback
      font (Some renderer) x y scale (Some (concat items)) in
  length rects = fst (drawn_count fc_tab_width indeterminate font items)
  /\ font' = snd (drawn_count fc_tab_width indeterminate font items)
  /\ (fst (drawn_count fc_tab_width indeterminate font items) = 0%nat ->
      dirty = {| rect_x := x; rect_y := y; rect_w := 0; rect_h := 0 |}).
Proof.
  intros Hcount Hall. unfold FC_RenderLeft_font.
  destruct (Z.eqb_spec (glyph_cache_count font) 0); [contradiction|].
  pose proof (text_items_length items Hall) as Hle.
  cbv zeta.
  match goal with |- context [FC_RenderLeft_loop _ _ _ ?nx ?sc ?dh ?dl ?dt ?t ?c ?s] =>
    assert (exists st',
               FC_RenderLeft_loop fc_tab_width indeterminate fc_render_callback
                 nx sc dh dl dt t c s = st'
               /\ rs_font st' = snd (drawn_count fc_tab_width indeterminate font items)
               /\ length (drawn st')
                  = fst (drawn_count fc_tab_width indeterminate font items)
               /\ (fst (drawn_count fc_tab_width indeterminate font items) = 0%nat ->
                   dirtyRect st' = {| rect_x := x; rect_y := y; rect_w := 0; rect_h := 0 |}))
      as (st' & -> & Hf & Hd & Hr)
  end.
  { replace (length (concat items))
      with (length items + (length (concat items) - length items))%nat by lia.
    rewrite <- (app_nil_r (concat items)).
    match goal with |- context [FC_RenderLeft_loop _ _ _ ?nx ?sc ?dh ?dl ?dt _ _ ?s] =>
      destruct (RenderLeft_loop_items fc_tab_width indeterminate fc_render_callback
                  nx sc dh dl dt items (length (concat items ++ []) - length items) [] s Hall)
        as (st' & E & Hf & Hd & Hr)
    end.
    exists st'. rewrite E. cbn [rs_font drawn dirtyRect length] in Hf, Hd, Hr.
    split; [destruct (length (concat items ++ []) - length items)%nat; reflexivity|].
    split; [exact Hf|]. split; [lia | exact Hr]. }
  split; [exact Hd|]. split; [exact Hf | exact Hr].
Qed.

End DrawnGlyphsTop.

Lemma render_draws_available_glyphs_witness :
  let '(dirty, font', rects) :=
    FC_RenderLeft_font 4 no_glyph (FC_DefaultRenderCallback (float := Z))
      letters_font (Some any_size_renderer) 0 0 unit_scale
      (Some (concat [[Byte.x61]; [Byte.x20]; [Byte.x0a]; [Byte.x7a]; [Byte.x62]])) in
  length rects = 2%nat.
Proof.
  pose proof (render_draws_available_glyphs 4 no_glyph (FC_DefaultRenderCallback (float := Z))
                letters_font any_size_renderer 0 0 unit_scale
                [[Byte.x61]; [Byte.x20]; [Byte.x0a]; [Byte.x7a]; [Byte.x62]]) as Hthm.
  destruct (FC_RenderLeft_font _ _ _ _ _ _ _ _ _) as [[dirty font'] rects].
  apply Hthm.
  - discriminate.
  - repeat constructor; try (by right); by left.
Defined.

(** ** Loading a font *)

(** The C string in a buffer that holds a whole character and zeros. *)
Lemma c_str_whole (ch : cstring) k :
  forallb (fun b => negb (Byte.eqb b Byte.x00)) ch = true ->
  c_str (ch ++ replicate k Byte.x00) = ch.
Proof.
  induction ch as [|b ch IH]; intros Hall.
  - destruct k; reflexivity.
  - cbn [forallb] in Hall. apply andb_prop in Hall as [Hb Hall].
    cbn [app c_str].
    destruct (Z.eqb_spec (byte.unsigned b) 0) as [E|_].
    + assert (b = Byte.x00) as -> by (rewrite <- (byte.of_Z_unsigned b), E; reflexivity).
      discriminate Hb.
    + f_equal. by apply IH.
Qed.

(** The codepoint of a whole character does not depend on what follows. *)
Lemma codepoint_at_whole ch rest adv :
  is_whole_char ch = true ->
  fst (codepoint_at (ch ++ rest) adv) = fst (codepoint_at ch false).
Proof.
  unfold is_whole_char. destruct ch as [|b0 ch]; [discriminate|].
  intros [Hlen _]%andb_prop. apply Z.eqb_eq in Hlen.
  unfold U8_charsize in Hlen. unfold codepoint_at.
  rewrite (peek_app_lt (b0 :: ch) rest 0) by (cbn; lia).
  destruct (peek (b0 :: ch) 0 <=? 127).
  { destruct ch; [|cbn in Hlen; lia]. reflexivity. }
  destruct (peek (b0 :: ch) 0 <? 224).
  { destruct ch as [|b1 [|]]; try (cbn in Hlen; lia). reflexivity. }
  destruct (peek (b0 :: ch) 0 <? 240).
  { destruct ch as [|b1 [|b2 [|]]]; try (cbn in Hlen; lia). reflexivity. }
  destruct ch as [|b1 [|b2 [|b3 [|]]]]; try (cbn in Hlen; lia). reflexivity.
Qed.

(** [U8_charcpy] of a whole character into the zeroed buffer of the loader. *)
Lemma U8_charcpy_whole (ch rest : cstring) :
  is_whole_char ch = true ->
  U8_charcpy (Some (replicate 5 Byte.x00)) (Some (ch ++ rest)) 5
  = (Z.of_nat (length ch), Some (ch ++ replicate (5 - length ch) Byte.x00)).
Proof.
  intros Hch. pose proof (whole_char_size ch Hch) as [Hne Hsize].
  pose proof (U8_charsize_pos ch) as Hpos.
  assert (Hz : U8_charsize (Some (ch ++ rest)) = Z.of_nat (length ch)).
  { rewrite U8_charsize_app by exact Hne. lia. }
  unfold U8_charcpy. rewrite Hz, Nat2Z.id, peek_bytes, drop_replicate.
  change (5 <? 1) with false. cbv iota.
  destruct (Z.gtb_spec (Z.of_nat (length ch)) 5); [lia | reflexivity].
Qed.

Lemma rect_disjoint_sym a b : rect_disjoint a b -> rect_disjoint b a.
Proof. unfold rect_disjoint. intros Hd px py Hb Ha. exact (Hd px py Ha Hb). Qed.

(** Inserting a glyph that overlaps no glyph of its level keeps the glyphs
    apart. *)
Lemma glyphs_disjoint_insert font m codepoint g lg :
  glyphs font = Some m ->
  FC_Map_wf m ->
  glyphs_disjoint font ->
  (forall k g0, FC_MapFind (glyphs font) k = Some g0 ->
                cache_level g0 = cache_level g -> rect_disjoint (rect g0) (rect g)) ->
  glyphs_disjoint (set_glyphs (set_last_glyph font lg)
                     (snd (FC_MapInsert (Some m) codepoint g))).
Proof.
  intros Hg Hwf Hd Hnew k1 k2 g1 g2 Hne. cbn [glyphs set_glyphs set_last_glyph].
  rewrite !FC_MapFind_insert by exact Hwf. rewrite <- Hg.
  destruct (FC_MapFind (glyphs font) k1) as [v1|] eqn:E1,
           (FC_MapFind (glyphs font) k2) as [v2|] eqn:E2.
  - intros [= <-] [= <-]. by apply (Hd k1 k2).
  - destruct (Z.eqb_spec codepoint k2); [|discriminate].
    intros [= <-] [= <-] Hl. by apply (Hnew k1).
  - destruct (Z.eqb_spec codepoint k1); [|discriminate].
    intros [= <-] [= <-] Hl. apply rect_disjoint_sym. apply (Hnew k2); congruence.
  - destruct (Z.eqb_spec codepoint k1), (Z.eqb_spec codepoint k2); try discriminate.
    congruence.
Qed.

(** A texture stored at the first free level is read back there, and the
    levels in use keep theirs. *)
Lemma FC_SetGlyphCacheLevel_append font tex :
  cache_wf font ->
  exists font',
    FC_SetGlyphCacheLevel font (glyph_cache_count font) tex = (true, font')
    /\ glyph_cache_count font' = glyph_cache_count font + 1
    /\ cache_wf font'
    /\ FC_GetGlyphCacheLevel font' (glyph_cache_count font) = tex
    /\ (forall other, 0 <= other < glyph_cache_count font ->
                      FC_GetGlyphCacheLevel font' other = FC_GetGlyphCacheLevel font other).
Proof.
  intros [Hc Hlen]. unfold FC_SetGlyphCacheLevel.
  destruct (Z.ltb_spec (glyph_cache_count font) 0); [lia|].
  destruct (Z.gtb_spec (glyph_cache_count font) (glyph_cache_count font + 1)); [lia|].
  rewrite Z.eqb_refl.
  destruct (Z.gtb_spec (glyph_cache_count font + 1) (glyph_cache_size font)) as [Hfull|Hroom].
  - assert (glyph_cache_count font = glyph_cache_size font) as Heq by lia.
    eexists. split; [reflexivity|].
    cbn [set_glyph_cache glyph_cache glyph_cache_count glyph_cache_size].
    assert (Hnew : length (take (Z.to_nat (glyph_cache_size font)) (glyph_cache font)
                           ++ replicate (Z.to_nat (glyph_cache_count font + 1
                                                   - glyph_cache_size font)) None)
                   = Z.to_nat (glyph_cache_count font + 1)).
    { rewrite length_app, length_take, length_replicate. lia. }
    split; [reflexivity|]. split; [|split].
    + unfold cache_wf.
      cbn [set_glyph_cache glyph_cache glyph_cache_count glyph_cache_size].
      split; [lia|]. by rewrite length_insert.
    + rewrite FC_GetGlyphCacheLevel_slot
        by (cbn [glyph_cache_count set_glyph_cache]; lia).
      cbn [glyph_cache set_glyph_cache].
      rewrite list_lookup_insert_eq by (rewrite Hnew; lia). reflexivity.
    + intros other Ho.
      rewrite !FC_GetGlyphCacheLevel_slot
        by (cbn [glyph_cache_count set_glyph_cache]; lia).
      cbn [glyph_cache set_glyph_cache].
      rewrite list_lookup_insert_ne by lia.
      rewrite lookup_app_l by (rewrite length_take; lia).
      rewrite lookup_take_lt by lia. reflexivity.
  - eexists. split; [reflexivity|].
    cbn [set_glyph_cache glyph_cache glyph_cache_count glyph_cache_size].
    split; [reflexivity|]. split; [|split].
    + unfold cache_wf.
      cbn [set_glyph_cache glyph_cache glyph_cache_count glyph_cache_size].
      split; [lia|]. by rewrite length_insert.
    + rewrite FC_GetGlyphCacheLevel_slot
        by (cbn [glyph_cache_count set_glyph_cache]; lia).
      cbn [glyph_cache set_glyph_cache].
      rewrite list_lookup_insert_eq by lia. reflexivity.
    + intros other Ho.
      rewrite !FC_GetGlyphCacheLevel_slot
        by (cbn [glyph_cache_count set_glyph_cache]; lia).
      cbn [glyph_cache set_glyph_cache].
      rewrite list_lookup_insert_ne by lia. reflexivity.
Qed.

(** Uploading a surface as the first free level, with a renderer that
    creates its texture. *)
Lemma FC_UploadGlyphCache_next font r w h tex :
  renderer font = Some r ->
  create_texture r w h = Some tex ->
  cache_wf font ->
  levels_filled font ->
  let font' := snd (FC_UploadGlyphCache font (glyph_cache_count font)
                      (Some {| surf_w := w; surf_h := h |})) in
  glyphs font' = glyphs font /\ last_glyph font' = last_glyph font
  /\ same_settings font font'
  /\ glyph_cache_count font' = glyph_cache_count font + 1
  /\ cache_wf font' /\ levels_filled font'.
Proof.
  intros Hr Htex Hcw Hfill. unfold FC_UploadGlyphCache, SDL_CreateTexture.
  rewrite Hr. cbn [surf_w surf_h]. rewrite Htex.
  pose proof (FC_SetGlyphCacheLevel_frame font (glyph_cache_count font) (Some tex))
    as (Hg & Hl & Hs).
  destruct (FC_SetGlyphCacheLevel_append font (Some tex) Hcw)
    as (font' & E & Hcount & Hcw' & Hget & Hother).
  rewrite E in *. cbn [snd] in *.
  split; [exact Hg|]. split; [exact Hl|]. split; [exact Hs|].
  split; [exact Hcount|]. split; [exact Hcw'|].
  intros level Hlevel.
  destruct (Z.eq_dec level (glyph_cache_count font)) as [->|Hne].
  - rewrite Hget. by eexists.
  - rewrite Hother by lia. apply Hfill. lia.
Qed.

Section LoaderProofs.

Variable tab_width : Z.
Variable junk : FC_GlyphData.
Variable H : Z.
Variable r : SDL_Renderer.
Variable tex : SDL_Texture.

Hypothesis HH : 1 <= H.
Hypothesis HW : H * 12 < 2 ^ 15.
Hypothesis Htex : create_texture r (H * 12) (H * 12) = Some tex.

(** The first glyph of a level always finds room: the level is 12 rows
    high. *)
Lemma pack_fresh_level font m codepoint width :
  glyphs font = Some m ->
  FC_Map_wf m ->
  codepoint <> 9 ->
  height font = H ->
  cursor_ok font ->
  rect_x (rect (last_glyph font)) = 1 ->
  rect_y (rect (last_glyph font)) = 1 ->
  rect_w (rect (last_glyph font)) = 0 ->
  exists g font',
    FC_PackGlyphData tab_width junk font codepoint width (H * 12) (H * 12) = (Some g, font').
Proof.
  intros Hg Hm Hcp Hh Hok Hx Hy Hw.
  rewrite pack_step by (left; exact Hcp).
  pose proof (packed_width_range tab_width font codepoint width) as Hwidth.
  assert (Uint16 (H * 12) = H * 12) as HU by (apply Uint16_small; lia).
  pose proof (pack_at_cursor_cases font m codepoint
                (packed_width tab_width font codepoint width)
                (Uint16 (H * 12)) (Uint16 (H * 12))
                Hg Hm Hok Hwidth ltac:(lia) ltac:(lia)) as Hcases.
  cbv zeta in Hcases.
  assert (row_pitch font = H + 1) as Hpitch.
  { unfold row_pitch, FC_CACHE_PADDING. rewrite Hh. apply Uint16_small. lia. }
  rewrite Hpitch, Hx, Hy, Hw, HU in Hcases. rewrite HU.
  destruct (_ >=? H * 12 - 1);
    [destruct (Z.geb_spec (1 + (H + 1) + (H + 1)) (H * 12 - 1)); [lia|]|];
    rewrite Hcases; eauto.
Qed.

(** A successful call of the packer in the loop keeps the loop's
    invariant and caches the codepoint. *)
Lemma pack_success_inv font num codepoint width g font' :
  codepoint <> 9 ->
  load_inv font num ->
  FC_PackGlyphData tab_width junk font codepoint width (H * 12) (H * 12) = (Some g, font') ->
  font_grows font font' /\ load_inv font' num
  /\ is_Some (FC_MapFind (glyphs font') codepoint).
Proof.
  intros Hcp ((Hwf & Hd & Hcw & Hfill & Hcount & Hlev & Hnum) & Hok & Hinv & Hcl) Hpack.
  pose proof Hwf as (m & Hg & Hm).
  assert (Uint16 (H * 12) = H * 12) as HU by (apply Uint16_small; lia).
  destruct (pack_step_moved tab_width junk font m codepoint width (H * 12) (H * 12) g font'
              Hg Hm ltac:(left; exact Hcp) ltac:(lia) ltac:(lia) Hok Hpack)
    as (Hmoved & Hlevel & Hbounds & ->).
  pose proof (packed_before_moved font m codepoint g Hg Hm Hok Hinv Hmoved Hlevel Hbounds)
    as [Hok' Hinv'].
  pose proof (map_effect_insert font m codepoint g g Hg Hm) as (Hwf' & Hs' & Hst' & _).
  assert (Hfind : forall k,
             FC_MapFind (glyphs (set_glyphs (set_last_glyph font g)
                                   (snd (FC_MapInsert (Some m) codepoint g)))) k
             = match FC_MapFind (glyphs font) k with
               | Some v => Some v
               | None => if codepoint =? k then Some g else None
               end).
  { intros k. cbn [glyphs set_glyphs set_last_glyph].
    rewrite FC_MapFind_insert by exact Hm. by rewrite Hg. }
  split; [split; [exact Hwf' | split; [exact Hs' | exact Hst']]|].
  split; [split; [|split; [exact Hok' | split; [exact Hinv'|]]]|].
  - split; [exact Hwf'|]. split.
    { apply glyphs_disjoint_insert; [exact Hg | exact Hm | exact Hd|].
      intros k g0 Hk Hl.
      apply (before_cursor_disjoint (row_pitch font) (rect (last_glyph font)));
        [unfold row_pitch, Uint16; apply Z.mod_pos_bound; lia | | exact Hmoved].
      apply (Hinv k g0 Hk). congruence. }
    split; [exact Hcw|]. split; [exact Hfill|]. split; [exact Hcount|].
    split; [|exact Hnum].
    intros k g0. rewrite Hfind.
    destruct (FC_MapFind (glyphs font) k) as [v|] eqn:Hk.
    + intros [= <-]. by apply (Hlev k).
    + destruct (codepoint =? k); [|discriminate]. intros [= <-]. lia.
  - cbn [last_glyph set_glyphs set_last_glyph]. lia.
  - rewrite Hfind. destruct (FC_MapFind (glyphs font) codepoint); [by eexists|].
    rewrite Z.eqb_refl. by eexists.
Qed.

(** One glyph of the loading string: the loop's invariant holds again
    unless the loop is left, which happens with the last surface only. *)
Lemma load_glyph_inv font num codepoint width :
  codepoint <> 9 ->
  height font = H ->
  renderer font = Some r ->
  load_inv font num ->
  match load_glyph tab_width junk (H * 12) (H * 12) font num codepoint width with
  | (font', num', brk) =>
      font_grows font font' /\ loaded font' num'
      /\ if brk then num' = FC_LOAD_MAX_SURFACES
         else cursor_ok font' /\ packed_before font'
              /\ cache_level (last_glyph font') = num' - 1
              /\ is_Some (FC_MapFind (glyphs font') codepoint)
  end.
Proof.
  intros Hcp Hh Hr Hload. unfold load_glyph.
  destruct (FC_PackGlyphData tab_width junk font codepoint width (H * 12) (H * 12))
    as [[g|] font1] eqn:Hp1.
  { destruct (pack_success_inv font num codepoint width g font1 Hcp Hload Hp1)
      as (Hgrow & (Hl & Hok' & Hinv' & Hcl') & Hsome).
    split; [exact Hgrow|]. split; [exact Hl|]. split; [exact Hok'|].
    split; [exact Hinv'|]. split; [exact Hcl' | exact Hsome]. }
  destruct Hload as ((Hwf & Hd & Hcw & Hfill & Hcount & Hlev & Hnum) & Hok & Hinv & Hcl).
  pose proof Hwf as (m & Hg & Hm).
  assert (Uint16 (H * 12) = H * 12) as HU by (apply Uint16_small; lia).
  pose proof (pack_step_exhausted tab_width junk font m codepoint width (H * 12) (H * 12)
                font1 Hg Hm ltac:(left; exact Hcp) ltac:(lia) ltac:(lia) Hok Hp1) as ->.
  unfold FC_LOAD_MAX_SURFACES in *.
  destruct (Z.geb_spec num 10) as [Hmax|Hroom].
  { (* the loop is left *)
    split; [split; [exact Hwf | split; [by repeat split | auto]]|].
    split; [|lia].
    split; [exact Hwf|]. split; [exact Hd|]. split; [exact Hcw|].
    split; [exact Hfill|]. split; [exact Hcount|]. split; [exact Hlev | exact Hnum]. }
  (* the surface is uploaded and the glyph goes to the next one *)
  rewrite (Sint32_small (num - 1)), (Sint32_small (num + 1)) by lia.
  set (font1 := set_last_glyph font _).
  assert (glyph_cache_count font1 = num - 1) as Hc1 by exact Hcount.
  rewrite <- Hc1.
  pose proof (FC_UploadGlyphCache_next font1 r (H * 12) (H * 12) tex Hr Htex Hcw Hfill)
    as (Hg2 & Hl2 & Hs2 & Hc2 & Hcw2 & Hfill2).
  destruct (FC_UploadGlyphCache font1 (glyph_cache_count font1) _) as [ok2 font2].
  cbn [snd] in Hg2, Hl2, Hs2, Hc2, Hcw2, Hfill2.
  set (font3 := set_last_glyph font2 _).
  assert (Hg3 : glyphs font3 = Some m) by (rewrite <- Hg; exact Hg2).
  assert (Hh3 : height font3 = H) by (destruct Hs2 as (Hh2 & _); rewrite <- Hh; exact Hh2).
  assert (Hrect3 : rect (last_glyph font3)
                   = {| rect_x := 1; rect_y := 1; rect_w := 0;
                        rect_h := rect_h (rect (last_glyph font)) |}).
  { subst font3. cbn [last_glyph set_last_glyph rect]. rewrite Hl2. reflexivity. }
  assert (Hok3 : cursor_ok font3).
  { destruct Hok as (_ & _ & _ & _ & Hhh).
    unfold cursor_ok, row_pitch. rewrite Hrect3, Hh3.
    unfold row_pitch in Hhh. rewrite Hh in Hhh.
    cbn [rect_x rect_y rect_w rect_h]. lia. }
  assert (Hload3 : load_inv font3 (num + 1)).
  { split; [|split; [exact Hok3 | split]].
    - split; [exists m; by split|].
      split; [intros k1 k2 g1 g2; rewrite Hg3, <- Hg; apply Hd|].
      split; [exact Hcw2|]. split; [exact Hfill2|].
      split; [change (glyph_cache_count font3) with (glyph_cache_count font2); lia|].
      split; [|unfold FC_LOAD_MAX_SURFACES; lia].
      intros k g0. rewrite Hg3, <- Hg. intros Hk. specialize (Hlev k g0 Hk). lia.
    - intros k g0. rewrite Hg3, <- Hg. intros Hk Hl.
      specialize (Hlev k g0 Hk). unfold font3 in Hl.
      cbn [last_glyph set_last_glyph cache_level] in Hl. lia.
    - unfold font3. cbn [last_glyph set_last_glyph cache_level]. lia. }
  destruct (pack_fresh_level font3 m codepoint width Hg3 Hm Hcp Hh3 Hok3)
    as (g & font4 & Hp2); [by rewrite Hrect3..|].
  rewrite Hp2.
  destruct (pack_success_inv font3 (num + 1) codepoint width g font4 Hcp Hload3 Hp2)
    as (Hgrow & (Hl & Hok' & Hinv' & Hcl') & Hsome).
  split; [|split; [exact Hl | split; [exact Hok' | split; [exact Hinv'|]]]];
    [|split; [exact Hcl' | exact Hsome]].
  apply (font_grows_trans font font3 font4); [|exact Hgrow].
  split; [exists m; by split|]. split.
  - apply (same_settings_trans font font1 font3); [by repeat split | exact Hs2].
  - intros k v. rewrite Hg3, <- Hg. auto.
Qed.

(** The loop over the characters of the loading string. *)
Lemma load_loop_inv (ttf : TTF_Font) (chars : list cstring) n font num :
  Forall (fun ch => is_whole_char ch = true
                    /\ fst (codepoint_at ch false) <> 9
                    /\ is_Some (ttf ch)) chars ->
  height font = H ->
  renderer font = Some r ->
  load_inv font num ->
  match load_loop tab_width junk (length chars + n) ttf (H * 12) (H * 12) font num
          (concat chars) with
  | (font', num') =>
      font_grows font font' /\ loaded font' num'
      /\ (num' < FC_LOAD_MAX_SURFACES ->
          cursor_ok font' /\ packed_before font'
          /\ cache_level (last_glyph font') = num' - 1
          /\ Forall (fun ch => is_Some (FC_MapFind (glyphs font')
                                          (fst (codepoint_at ch false)))) chars)
  end.
Proof.
  intros Hall. revert font num.
  induction Hall as [|ch chars (Hch & Hcp & [surf Hsurf]) _ IH]; intros font num Hh Hr Hload.
  { assert (load_loop tab_width junk (length (@nil cstring) + n) ttf (H * 12) (H * 12)
              font num (concat []) = (font, num)) as -> by (destruct n; reflexivity).
    pose proof Hload as ((Hwf & _) & Hok & Hinv & Hcl).
    split; [by apply font_grows_refl|]. split; [apply Hload|].
    intros _. split; [exact Hok|]. split; [exact Hinv|].
    split; [exact Hcl | constructor]. }
  cbn [length concat Nat.add].
  destruct (whole_char_cons ch (concat chars) Hch) as (b & tl & E).
  rewrite E. cbn [load_loop]. rewrite <- E.
  rewrite U8_next_whole, U8_charcpy_whole by exact Hch.
  pose proof (whole_char_size ch Hch) as [Hne Hsize].
  destruct (Z.eqb_spec (Z.of_nat (length ch)) 0) as [Hz|_];
    [destruct ch; [contradiction | cbn in Hz; lia]|].
  assert (Hzero : forallb (fun b => negb (Byte.eqb b Byte.x00)) ch = true).
  { revert Hch. unfold is_whole_char. destruct ch; [discriminate|].
    by intros [_ ?]%andb_prop. }
  rewrite c_str_whole by exact Hzero.
  unfold TTF_RenderUTF8_Blended. rewrite Hsurf.
  rewrite codepoint_at_whole by exact Hch.
  pose proof (load_glyph_inv font num (fst (codepoint_at ch false)) (surf_w surf)
                Hcp Hh Hr Hload) as Hstep.
  destruct (load_glyph _ _ _ _ font num _ _) as [[font1 num1] [|]].
  { destruct Hstep as (Hgrow & Hl & ->). split; [exact Hgrow|]. split; [exact Hl | lia]. }
  destruct Hstep as (Hgrow & Hl & Hok1 & Hinv1 & Hcl1 & Hsome).
  pose proof Hgrow as (_ & (Hh1 & _ & _ & _ & Hr1) & _).
  specialize (IH font1 num1 ltac:(congruence) ltac:(congruence)
                ltac:(split; [exact Hl | split; [exact Hok1 | split; [exact Hinv1 | exact Hcl1]]])).
  destruct (load_loop _ _ _ ttf _ _ font1 num1 _) as [font' num'].
  destruct IH as (Hgrow' & Hl' & Hrest).
  split; [by apply (font_grows_trans font font1 font')|]. split; [exact Hl'|].
  intros Hlt. destruct (Hrest Hlt) as (Hok' & Hinv' & Hcl' & Hcached).
  split; [exact Hok'|]. split; [exact Hinv'|]. split; [exact Hcl'|].
  constructor; [|exact Hcached].
  destruct Hsome as [v Hv]. destruct Hgrow' as (_ & _ & Hst). rewrite (Hst _ v Hv). by eexists.
Qed.

End LoaderProofs.

(** X24. [FC_LoadFontFromTTF] caches the loading string without overlap.
    The loading string is made of whole characters, none of them a TAB,
    that the rasterizer renders; the loaded height is at least 1 and at
    most 2730, and the renderer creates textures of 12 times the height
    squared.  Then the call returns 1 and leaves the font with the given
    renderer, rasterizer and height, between 1 and [FC_LOAD_MAX_SURFACES]
    cache levels that all hold a texture, every cached glyph on one of
    them, and no two glyphs of different codepoints on one level
    overlapping.  When fewer than [FC_LOAD_MAX_SURFACES] levels were
    needed, every character of the loading string is cached and the
    cursor has passed all the glyphs of its level, so that glyphs cached
    later do not overlap them either. *)
Theorem load_caches_loading_string tab_width junk (chars : list cstring)
    slot0 slot1 slot2 font0 r (ttf : TTF_Font) ttf_height ttf_ascent ttf_descent :
  let H := loaded_height ttf_height ttf_ascent ttf_descent in
  Forall (fun ch => is_whole_char ch = true
                    /\ fst (codepoint_at ch false) <> 9
                    /\ is_Some (ttf ch)) chars ->
  1 <= H ->
  H * 12 < 2 ^ 15 ->
  is_Some (create_texture r (H * 12) (H * 12)) ->
  exists font',
    FC_LoadFontFromTTF tab_width junk (concat chars) slot0 slot1 slot2
      (Some font0) (Some r) (Some ttf) ttf_height ttf_ascent ttf_descent
    = (true, Some font')
    /\ renderer font' = Some r /\ ttf_source font' = Some ttf /\ height font' = H
    /\ font_map_wf font'
    /\ 1 <= glyph_cache_count font' <= FC_LOAD_MAX_SURFACES
    /\ levels_filled font'
    /\ (forall k g, FC_MapFind (glyphs font') k = Some g ->
                    cache_level g < glyph_cache_count font')
    /\ glyphs_disjoint font'
    /\ (glyph_cache_count font' < FC_LOAD_MAX_SURFACES ->
        Forall (fun ch => is_Some (FC_MapFind (glyphs font')
                                     (fst (codepoint_at ch false)))) chars
        /\ cursor_ok font' /\ packed_before font' /\ levels_in_use font').
Proof.
  intros H Hall HH HW [tex Htex].
  unfold FC_LoadFontFromTTF. cbv zeta. fold H. clearbody H.
  rewrite (Sint32_small (H * 12)) by lia.
  rewrite (Uint32_small (H * 12)) by lia.
  rewrite (Sint32_small (H * 12)) by lia.
  match goal with |- context [load_loop _ _ _ _ _ _ ?f _ _] => set (font1 := f) end.
  assert (Hload1 : load_inv font1 1).
  { split; [|split; [|split]].
    - split; [eexists; split; [reflexivity | by apply FC_MapCreate_wf]|].
      split.
      { intros k1 k2 g1 g2 _ Hk. change (glyphs font1)
          with (Some (FC_MapCreate FC_DEFAULT_NUM_BUCKETS)) in Hk.
        rewrite FC_MapFind_empty in Hk. discriminate. }
      split; [split; [cbn; lia | reflexivity]|].
      split; [intros level Hl; cbn in Hl; lia|].
      split; [reflexivity|]. split; [|unfold FC_LOAD_MAX_SURFACES; lia].
      intros k g Hk. change (glyphs font1)
        with (Some (FC_MapCreate FC_DEFAULT_NUM_BUCKETS)) in Hk.
      rewrite FC_MapFind_empty in Hk. discriminate.
    - unfold cursor_ok, row_pitch, font1.
      cbn [last_glyph rect rect_x rect_y rect_w rect_h height].
      unfold FC_CACHE_PADDING.
      rewrite Uint16_small by lia. lia.
    - intros k g Hk. change (glyphs font1)
        with (Some (FC_MapCreate FC_DEFAULT_NUM_BUCKETS)) in Hk.
      rewrite FC_MapFind_empty in Hk. discriminate.
    - reflexivity. }
  pose proof (whole_chars_length chars
                ltac:(eapply Forall_impl; [exact Hall | by intros ch (? & _)])) as Hlen.
  replace (length (concat chars))
    with (length chars + (length (concat chars) - length chars))%nat by lia.
  pose proof (load_loop_inv tab_width junk H r tex HH HW Htex ttf chars
                (length (concat chars) - length chars) font1 1 Hall eq_refl eq_refl Hload1)
    as Hloop.
  destruct (load_loop _ _ _ ttf _ _ font1 1 _) as [font2 num].
  destruct Hloop as ((_ & Hs2 & _) & (Hwf2 & Hd2 & Hcw2 & Hfill2 & Hc2 & Hlev2 & Hnum) & Hrest).
  destruct Hs2 as (Hh2 & _ & _ & Ht2 & Hr2).
  unfold FC_LOAD_MAX_SURFACES in *.
  rewrite (Sint32_small (num - 1)) by lia. rewrite <- Hc2.
  pose proof (FC_UploadGlyphCache_next font2 r (H * 12) (H * 12) tex Hr2 Htex Hcw2 Hfill2)
    as (Hg3 & Hl3 & (Hh3 & _ & _ & Ht3 & Hr3) & Hc3 & Hcw3 & Hfill3).
  destruct (FC_UploadGlyphCache font2 (glyph_cache_count font2) _) as [ok3 font3].
  cbn [snd] in Hg3, Hl3, Hh3, Ht3, Hr3, Hc3, Hcw3, Hfill3.
  exists font3. split; [reflexivity|].
  split; [by rewrite Hr3, Hr2|]. split; [by rewrite Ht3, Ht2|].
  split; [by rewrite Hh3, Hh2|].
  split; [unfold font_map_wf; rewrite Hg3; exact Hwf2|].
  split; [lia|]. split; [exact Hfill3|].
  split; [intros k g; rewrite Hg3; intros Hk; specialize (Hlev2 k g Hk); lia|].
  split; [intros k1 k2 g1 g2; rewrite Hg3; apply Hd2|].
  intros Hlt. destruct (Hrest ltac:(lia)) as (Hok & Hinv & Hcl & Hcached).
  split; [by rewrite Hg3|].
  split; [unfold cursor_ok, row_pitch; rewrite Hl3, Hh3; exact Hok|].
  split; [unfold packed_before, row_pitch; rewrite Hg3, Hl3, Hh3; exact Hinv|].
  split; [|rewrite Hl3; lia].
  intros k g. rewrite Hg3. intros Hk. specialize (Hlev2 k g Hk). lia.
Qed.

Lemma load_caches_loading_string_witness :
  exists font',
    FC_LoadFontFromTTF 4 no_glyph
      (concat [[Byte.x61]; [Byte.xc3; Byte.xa9]; [Byte.xe2; Byte.x82; Byte.xac]])
      None None None (Some letters_font) (Some any_size_renderer)
      (Some (fun _ => Some {| surf_w := 6; surf_h := 10 |})) 10 8 (-2)
    = (true, Some font')
    /\ height font' = 10
    /\ glyphs_disjoint font'
    /\ Forall (fun ch => is_Some (FC_MapFind (glyphs font') (fst (codepoint_at ch false))))
         [[Byte.x61]; [Byte.xc3; Byte.xa9]; [Byte.xe2; Byte.x82; Byte.xac]].
Proof.
  destruct (load_caches_loading_string 4 no_glyph
              [[Byte.x61]; [Byte.xc3; Byte.xa9]; [Byte.xe2; Byte.x82; Byte.xac]]
              None None None letters_font any_size_renderer
              (fun _ => Some {| surf_w := 6; surf_h := 10 |}) 10 8 (-2))
    as (font' & E & _ & _ & Hh & _ & Hcount & _ & _ & Hd & Hrest).
  - repeat constructor; try (vm_compute; discriminate); by eexists.
  - vm_compute. discriminate.
  - vm_compute. reflexivity.
  - vm_compute. by eexists.
  - exists font'. split; [exact E|]. split; [exact Hh|]. split; [exact Hd|].
    apply Hrest. vm_compute in E. injection E as <-. reflexivity.
Defined.

(** X25. [FC_LoadFontFromTTF] can return 1 although the loading string
    needed more than [FC_LOAD_MAX_SURFACES] surfaces, leaving the cursor at
    the start of the last level, over the glyphs cached there.  This is
    shown on one instance.  With the 41 characters from '0' to 'X', a
    rasterizer that renders each of them 6 wide, and height 1, four glyphs
    fit on a surface: the call returns 1 with 10 levels, the last character
    'X' is not cached, the cursor has not passed the glyphs of its level,
    and the glyph that [FC_GetGlyphData] caches next, for 'a', gets the
    rectangle and the level of the glyph of 'T'. *)
Theorem load_overflow_overlaps :
  Forall (fun ch => is_whole_char ch = true
                    /\ fst (codepoint_at ch false) <> 9
                    /\ is_Some (small_ttf ch)) chars_0_to_X
  /\ FC_LoadFontFromTTF 4 no_glyph (concat chars_0_to_X) None None None
       (Some letters_font) (Some any_size_renderer) (Some small_ttf) 1 1 0
     = (true, Some overflowed_font)
  /\ glyph_cache_count overflowed_font = FC_LOAD_MAX_SURFACES
  /\ FC_MapFind (glyphs overflowed_font) 88 = None
  /\ ~ packed_before overflowed_font
  /\ exists g font',
       FC_GetGlyphData 4 no_glyph overflowed_font 97 = (Some g, font')
       /\ FC_MapFind (glyphs font') 97 = Some g
       /\ FC_MapFind (glyphs font') 84 = Some g
       /\ ~ glyphs_disjoint font'.
Proof.
  split.
  { unfold chars_0_to_X. cbn [map seq].
    repeat constructor; try (vm_compute; discriminate); by eexists. }
  split; [vm_compute; reflexivity|]. split; [vm_compute; reflexivity|].
  split; [vm_compute; reflexivity|]. split.
  { intros Hp.
    specialize (Hp 84 (FC_MakeGlyphData 9 3 1 6 1)
                  ltac:(vm_compute; reflexivity) ltac:(vm_compute; reflexivity)).
    vm_compute in Hp. destruct Hp as (_ & _ & [[_ Hp]|Hp]); apply Hp; reflexivity. }
  exists (FC_MakeGlyphData 9 3 1 6 1), (snd (FC_GetGlyphData 4 no_glyph overflowed_font 97)).
  split; [vm_compute; reflexivity|]. split; [vm_compute; reflexivity|].
  split; [vm_compute; reflexivity|].
  intros Hd.
  specialize (Hd 84 97 (FC_MakeGlyphData 9 3 1 6 1) (FC_MakeGlyphData 9 3 1 6 1)
                ltac:(lia) ltac:(vm_compute; reflexivity) ltac:(vm_compute; reflexivity)
                eq_refl 3 1).
  apply Hd; vm_compute; repeat split; discriminate.
Qed.

(** ** Rectangles *)

Lemma rect_covers_bounds R A :
  0 < rect_w A -> 0 < rect_h A ->
  rect_covers R A ->
  rect_x R <= rect_x A /\ rect_x A + rect_w A <= rect_x R + rect_w R
  /\ rect_y R <= rect_y A /\ rect_y A + rect_h A <= rect_y R + rect_h R.
Proof.
  intros Hw Hh Hcov.
  pose proof (Hcov (rect_x A) (rect_y A)) as H1.
  pose proof (Hcov (rect_x A + rect_w A - 1) (rect_y A + rect_h A - 1)) as H2.
  unfold pixel_in in H1, H2. lia.
Qed.

(** X26. [SDL_RectUnion] of two non-empty rectangles is their bounding box:
    it contains both, every rectangle that contains both contains it, and
    the order of the arguments does not matter. *)
Theorem rect_union_is_bounding_box A B R :
  rect_in_range A -> rect_in_range B ->
  0 < rect_w A -> 0 < rect_h A -> 0 < rect_w B -> 0 < rect_h B ->
  rect_covers (SDL_RectUnion A B) A
  /\ rect_covers (SDL_RectUnion A B) B
  /\ (rect_covers R A -> rect_covers R B -> rect_covers R (SDL_RectUnion A B))
  /\ SDL_RectUnion A B = SDL_RectUnion B A.
Proof.
  intros HA HB HwA HhA HwB HhB.
  destruct (SDL_RectUnion_covers A B HA HB) as (HcA & HcB & _).
  split; [exact HcA|]. split; [exact HcB|]. split.
  - intros HRA HRB.
    pose proof (rect_covers_bounds R A HwA HhA HRA) as HbA.
    pose proof (rect_covers_bounds R B HwB HhB HRB) as HbB.
    destruct HA as [[HAx HAw] [HAy HAh]]. destruct HB as [[HBx HBw] [HBy HBh]].
    unfold SDL_RectUnion, rect_covers, pixel_in.
    cbn [rect_x rect_y rect_w rect_h].
    rewrite !FC_MIN_spec, !FC_MAX_spec.
    rewrite (Sint32_small (rect_x A + rect_w A)), (Sint32_small (rect_x B + rect_w B)),
      (Sint32_small (rect_y A + rect_h A)), (Sint32_small (rect_y B + rect_h B)) by lia.
    rewrite !Sint32_small by lia.
    intros px py Hp. lia.
  - unfold SDL_RectUnion. rewrite !FC_MIN_spec, !FC_MAX_spec.
    rewrite (Z.min_comm (rect_x B)), (Z.min_comm (rect_y B)).
    rewrite (Z.max_comm (Sint32 (rect_x B + rect_w B))),
      (Z.max_comm (Sint32 (rect_y B + rect_h B))).
    reflexivity.
Qed.

Lemma rect_union_is_bounding_box_witness :
  SDL_RectUnion (mkRect 0 0 10 10) (mkRect 20 5 10 10)
  = SDL_RectUnion (mkRect 20 5 10 10) (mkRect 0 0 10 10).
Proof.
  apply (rect_union_is_bounding_box (mkRect 0 0 10 10) (mkRect 20 5 10 10)
           (mkRect 0 0 30 15));
    try (cbn; lia); repeat split; cbn; lia.
Defined.
